(** * LPSolver: the tableau simplex engine of [lpsolver/solver.py], the
      model of [lpsolver/model.py] and the expressions of
      [lpsolver/variables.py]

    The Python code computes with numpy [float64] arrays.  The development
    renders the solver twice.

    The first rendering models the numbers as exact rationals ([Q]): its
    statements are statements about the algorithm in exact arithmetic, about
    the values an operation computes.  The tolerance [1e-10] is the rational
    [1 / 10^10].  Division by zero, which numpy answers with [inf]/[nan] and
    a warning, has no exact counterpart; [Q]'s total division is used and
    every theorem that depends on a quotient carries the hypothesis that the
    divisor is not zero (or derives it).

    The second rendering, the module [F64], is the same code over binary64
    (the kernel's primitive floats): comparisons, quotients that overflow to
    [inf] or underflow to [-0.0], and [nan] are those of IEEE 754.  What is
    said about which branch or which row the code takes (the entering test,
    the ratio test) is proved on this rendering.

    Arrays are lists, read with a default value where Python would raise
    [IndexError]; [solve] is modelled for well-shaped problems ([A] of shape
    [(m, n)], [c] of length [n], [b] of length [m]), on which the loop never
    reads outside the tableau (shown below).  The one exception
    the simplex methods raise themselves, the [ValueError] of [min] on an
    empty sequence, is part of the model. *)

From Stdlib Require Import QArith Qabs Lqa ZArith Lia.
From Stdlib Require Import Floats.
From stdpp Require Import base list sorting strings pretty gmap.

Local Open Scope Q_scope.

(** ** Numbers *)

Definition eps : Q := 1 # 10000000000.

Definition Qleb (x y : Q) : bool := Qle_bool x y.
Definition Qltb (x y : Q) : bool := negb (Qle_bool y x).

#[global] Instance Q_inhabited : Inhabited Q := populate 0.

(** [np.isclose(a, b, atol=atol)] with numpy's default [rtol = 1e-05]:
    [abs(a - b) <= atol + rtol * abs(b)]. *)
Definition rtol_default : Q := 1 # 100000.
Definition isclose (a b atol : Q) : bool :=
  Qleb (Qabs (a - b)) (atol + rtol_default * Qabs b).

(** ** Arrays

    A two-dimensional array is the list of its rows.  [T[i, j]] is
    [entry T i j]; the Python index [-1] is the last position of the row.
    The solver only reads positions produced by [enumerate]/[range] over the
    same array, which are in range on a rectangular tableau. *)

Definition entry (T : list (list Q)) (i j : nat) : Q := (T !!! i) !!! j.

(** [row[-1]] *)
Definition last_of (row : list Q) : Q := row !!! (length row - 1)%nat.

(** [T[i, -1]] *)
Definition rhs (T : list (list Q)) (i : nat) : Q := last_of (T !!! i).

(** [row[:-1]] *)
Definition but_last (row : list Q) : list Q := take (length row - 1)%nat row.

(** The caller's constraint matrix, an [ndarray] that carries its shape. *)
Record matrix := Matrix { nrows : nat; ncols : nat; mdata : list (list Q) }.

Definition wf_matrix (A : matrix) : Prop :=
  length (mdata A) = nrows A ∧ Forall (λ r, length r = ncols A) (mdata A).

(** [np.eye(m)] *)
Definition eye (m : nat) : list (list Q) :=
  (λ i, (λ k, if (k =? i)%nat then 1 else 0) <$> seq 0 m) <$> seq 0 m.

(** [np.zeros(m)] *)
Definition zeros (m : nat) : list Q := replicate m 0.

(** [np.hstack([A, B])] on two-dimensional arrays with the same row count. *)
Definition hstack (A : matrix) (B : list (list Q)) (Bcols : nat) : matrix :=
  Matrix (nrows A) (ncols A + Bcols) (zip_with app (mdata A) B).

(** ** Exceptions and results *)

Inductive exception : Type :=
| ValueError (msg : string)
| IndexError (msg : string).

Inductive exc (A : Type) : Type :=
| Ok (a : A)
| Raise (e : exception).
Arguments Ok {A} a.
Arguments Raise {A} e.

(** The dictionary returned by [solve]; an absent key is [None]. *)
Record SolveResult := mkResult {
  status : string;
  res_solution : option (list Q);
  res_objective_value : option Q;
  iterations : Z
}.

(** ** The solver object *)

(** The instance fields of [LPSolver]; [None] for [tableau] and [basis] in
    [__init__] is the empty list: [solve] assigns both before any method
    reads them. *)
Record LPSolver := mkSolver {
  tableau : list (list Q);
  num_variables : nat;
  num_constraints : nat;
  basis : list nat;
  objective_value : option Q;
  solution : option (list Q)
}.

Definition init_solver : LPSolver := mkSolver [] 0 0 [] None None.

Definition set_tableau (self : LPSolver) (T : list (list Q)) : LPSolver :=
  mkSolver T (num_variables self) (num_constraints self) (basis self)
           (objective_value self) (solution self).

Definition set_basis (self : LPSolver) (B : list nat) : LPSolver :=
  mkSolver (tableau self) (num_variables self) (num_constraints self) B
           (objective_value self) (solution self).

(** [standard_form]: one slack column per constraint. *)
Definition standard_form (c : list Q) (A : matrix) (b : list Q)
  : list Q * matrix * list Q :=
  let m := nrows A in
  let A_new := hstack A (eye m) m in
  let c_new := c ++ zeros m in
  (c_new, A_new, b).

(** [create_initial_tableau]: the zero array of shape [(m+1, n+1)] after the
    three slice assignments [tableau[0, :-1] = -c], [tableau[1:, :-1] = A],
    [tableau[1:, -1] = b] (shapes as [solve] passes them: [c] of length [n],
    [A] of shape [(m, n)], [b] of length [m]). *)
Definition create_initial_tableau (c : list Q) (A : matrix) (b : list Q)
  : list (list Q) :=
  ((Qopp <$> c) ++ [0]) :: zip_with (λ row bi, row ++ [bi]) (mdata A) b.

(** [initialize_basis]: [list(range(num_variables - num_constraints,
    num_variables))]. *)
Definition initialize_basis (self : LPSolver) : list nat :=
  let lo := (num_variables self - num_constraints self)%nat in
  seq lo (num_variables self - lo).

(** The index of the first element satisfying [p], as the [for j, coeff in
    enumerate(...)] loop with [return j] finds it. *)
Fixpoint first_index (p : Q → bool) (j : nat) (l : list Q) : option nat :=
  match l with
  | [] => None
  | coeff :: l' => if p coeff then Some j else first_index p (S j) l'
  end.

(** [self.tableau[0, :-1]] *)
Definition obj_row (self : LPSolver) : list Q := but_last (tableau self !!! 0%nat).

(** [get_entering_variable] *)
Definition get_entering_variable (self : LPSolver) : option nat :=
  let obj_row := obj_row self in
  if forallb (λ x, Qleb (- eps) x) obj_row then None
  else first_index (λ coeff, Qltb coeff (- eps) && negb (isclose coeff 0 eps))
                   0 obj_row.

(** A ratio of the minimum-ratio test: a quotient or [float('inf')]. *)
Inductive ratio : Type :=
| Fin (q : Q)
| Inf.

(** [r >= 0] *)
Definition ratio_nonneg (r : ratio) : bool :=
  match r with Fin q => Qleb 0 q | Inf => true end.

(** [r1 < r2] *)
Definition ratio_ltb (r1 r2 : ratio) : bool :=
  match r1, r2 with
  | Fin q1, Fin q2 => Qltb q1 q2
  | Fin _, Inf => true
  | Inf, _ => false
  end.

(** Python's [min(iterable, key=...)]: the first element whose key is not
    greater than any other; [ValueError] on an empty iterable. *)
Fixpoint min_from (best : ratio * nat) (l : list (ratio * nat)) : ratio * nat :=
  match l with
  | [] => best
  | x :: l' => min_from (if ratio_ltb (fst x) (fst best) then x else best) l'
  end.

Definition py_min (l : list (ratio * nat)) : exc (ratio * nat) :=
  match l with
  | [] => Raise (ValueError "min() arg is an empty sequence")
  | x :: l' => Ok (min_from x l')
  end.

(** The [ratios] list built by the loop over [range(len(b))]. *)
Definition ratios_of (column b : list Q) : list (ratio * nat) :=
  imap (λ i bi,
          if Qltb eps (column !!! i) then (Fin (bi / (column !!! i)), i)
          else (Inf, i)) b.

(** [self.tableau[1:, entering_idx]] and [self.tableau[1:, -1]] *)
Definition column_of (self : LPSolver) (entering_idx : nat) : list Q :=
  (λ row, row !!! entering_idx) <$> tail (tableau self).
Definition rhs_column (self : LPSolver) : list Q :=
  last_of <$> tail (tableau self).

(** [get_leaving_variable] *)
Definition get_leaving_variable (self : LPSolver) (entering_idx : nat)
  : exc (option nat) :=
  let column := column_of self entering_idx in
  let b := rhs_column self in
  if forallb (λ x, Qleb x eps) column then Ok None
  else
    match py_min (filter (λ r, ratio_nonneg (fst r) = true) (ratios_of column b)) with
    | Raise e => Raise e
    | Ok (min_ratio, leaving_idx) => Ok (Some leaving_idx)
    end.

(** [pivot]: the pivot row is normalised in place, then the loop over
    [range(self.tableau.shape[0])] updates every other row, then the basis
    entry is overwritten. *)
Definition row_sub (r : list Q) (f : Q) (p : list Q) : list Q :=
  zip_with (λ x y, x - f * y) r p.

Definition pivot_rows (entering_idx pivot_row : nat) (T : list (list Q))
  : list (list Q) :=
  foldl (λ T i,
           if (i =? pivot_row)%nat then T
           else <[i := row_sub (T !!! i) (entry T i entering_idx) (T !!! pivot_row)]> T)
        T (seq 0 (length T)).

Definition pivot_element (self : LPSolver) (entering_idx leaving_idx : nat) : Q :=
  entry (tableau self) (leaving_idx + 1) entering_idx.

Definition pivot (self : LPSolver) (entering_idx leaving_idx : nat) : LPSolver :=
  let pivot_row := (leaving_idx + 1)%nat in
  let pivot_element := pivot_element self entering_idx leaving_idx in
  let T1 := <[pivot_row := (λ x, x / pivot_element) <$> (tableau self !!! pivot_row)]>
              (tableau self) in
  let T2 := pivot_rows entering_idx pivot_row T1 in
  set_basis (set_tableau self T2) (<[leaving_idx := entering_idx]> (basis self)).

(** [extract_solution] *)
Fixpoint extract_loop (T : list (list Q)) (nstruct : nat) (i : nat)
         (bs : list nat) (solution : list Q) : list Q :=
  match bs with
  | [] => solution
  | var_idx :: rest =>
      extract_loop T nstruct (S i) rest
        (if (var_idx <? nstruct)%nat
         then <[var_idx := rhs T (i + 1)]> solution
         else solution)
  end.

Definition extract_solution (self : LPSolver) : list Q * Q :=
  let nstruct := (num_variables self - num_constraints self)%nat in
  let solution := extract_loop (tableau self) nstruct 0 (basis self)
                               (zeros (num_variables self)) in
  let objective_value := - rhs (tableau self) 0 in
  (take nstruct solution, objective_value).

(** One pass through the body of the [while] loop of [solve]. *)
Inductive iteration_outcome : Type :=
| Pivoted (self : LPSolver)
| Returned (r : SolveResult) (self : LPSolver)
| Raised (e : exception) (self : LPSolver).

Definition iterate_once (self : LPSolver) (iteration : Z) : iteration_outcome :=
  match get_entering_variable self with
  | None =>
      let '(sol, obj) := extract_solution self in
      let self' := mkSolver (tableau self) (num_variables self)
                            (num_constraints self) (basis self)
                            (Some obj) (Some sol) in
      Returned (mkResult "optimal" (Some sol) (Some obj) iteration) self'
  | Some entering_idx =>
      match get_leaving_variable self entering_idx with
      | Raise e => Raised e self
      | Ok None => Returned (mkResult "unbounded" None None iteration) self
      | Ok (Some leaving_idx) => Pivoted (pivot self entering_idx leaving_idx)
      end
  end.

(** [while iteration < max_iterations]: [iteration] starts at 0 and grows by
    one per pass, so [remaining] passes are left when
    [remaining = max_iterations - iteration] (none when that is negative). *)
Fixpoint simplex_loop (remaining : nat) (max_iterations iteration : Z)
         (self : LPSolver) : exc SolveResult * LPSolver :=
  match remaining with
  | O => (Ok (mkResult "iteration_limit" None None max_iterations), self)
  | S remaining' =>
      match iterate_once self iteration with
      | Returned r self' => (Ok r, self')
      | Raised e self' => (Raise e, self')
      | Pivoted self' =>
          simplex_loop remaining' max_iterations (iteration + 1)%Z self'
      end
  end.

(** The state of the solver when the loop of [solve] is entered. *)
Definition setup (self : LPSolver) (c : list Q) (A : matrix) (b : list Q)
  : LPSolver :=
  let self := mkSolver (tableau self) (num_variables self) (nrows A)
                       (basis self) (objective_value self) (solution self) in
  let '(c_std, A_std, b_std) := standard_form c A b in
  let self := mkSolver (tableau self) (ncols A_std) (num_constraints self)
                       (basis self) (objective_value self) (solution self) in
  let self := set_tableau self (create_initial_tableau c_std A_std b_std) in
  set_basis self (initialize_basis self).

(** [solve] *)
Definition solve (self : LPSolver) (c : list Q) (A : matrix) (b : list Q)
           (max_iterations : Z) : exc SolveResult * LPSolver :=
  simplex_loop (Z.to_nat max_iterations) max_iterations 0%Z (setup self c A b).

Definition default_max_iterations : Z := 1000.

(** ** The standard-form step of [LPModel] ([lpsolver/model.py]) *)

(** [LPVariable]; [index] is the position [add_variable] assigned. *)
Record LPVariable := mkVar {
  var_name : string;
  lower_bound : Q;
  upper_bound : ratio;
  index : nat
}.

(** [LPExpression]: the [terms] dictionary in iteration order, and the
    constant. *)
Record LPExpression := mkExpr {
  terms : list (LPVariable * Q);
  constant : Q
}.

Record LPConstraint := mkConstraint {
  lhs : LPExpression;
  sense : string;
  crhs : Q
}.

Record LPModel := mkModel {
  name : string;
  variables : list LPVariable;
  constraints : list LPConstraint;
  objective : option LPExpression;
  msense : string
}.

(** [a[i] = x] on a numpy array: [IndexError] out of range. *)
Definition setitem (a : list Q) (i : nat) (x : Q) : exc (list Q) :=
  if (i <? length a)%nat then Ok (<[i := x]> a)
  else Raise (IndexError "index out of bounds").

(** [for var, coef in terms.items(): a[var.index] = f(coef)] *)
Fixpoint fill_terms (f : Q → Q) (ts : list (LPVariable * Q)) (a : list Q)
  : exc (list Q) :=
  match ts with
  | [] => Ok a
  | (var, coef) :: ts' =>
      match setitem a (index var) (f coef) with
      | Raise e => Raise e
      | Ok a' => fill_terms f ts' a'
      end
  end.

(** One pass of the loop over [enumerate(self.constraints)]: the row
    [A[i, :]] and the entry [b[i]], both zero before the pass and written
    by no other pass. *)
Definition constraint_row (n_vars : nat) (constraint : LPConstraint)
  : exc (list Q * Q) :=
  match fill_terms (λ coef, coef) (terms (lhs constraint)) (zeros n_vars) with
  | Raise e => Raise e
  | Ok row =>
      if String.eqb (sense constraint) "<=" then
        Ok (row, crhs constraint - constant (lhs constraint))
      else if String.eqb (sense constraint) ">=" then
        Ok (Qopp <$> row, - (crhs constraint - constant (lhs constraint)))
      else if String.eqb (sense constraint) "=" then
        Ok (row, crhs constraint - constant (lhs constraint))
      else
        Raise (ValueError ("Unsupported constraint sense: " +:+ sense constraint))
  end.

Fixpoint constraints_loop (n_vars : nat) (cs : list LPConstraint)
  : exc (list (list Q) * list Q) :=
  match cs with
  | [] => Ok ([], [])
  | constraint :: cs' =>
      match constraint_row n_vars constraint with
      | Raise e => Raise e
      | Ok (row, bi) =>
          match constraints_loop n_vars cs' with
          | Raise e => Raise e
          | Ok (A, b) => Ok (row :: A, bi :: b)
          end
      end
  end.

(** [to_standard_form] *)
Definition to_standard_form (self : LPModel) : exc (list Q * matrix * list Q) :=
  let n_vars := length (variables self) in
  let n_constraints := length (constraints self) in
  let c0 := zeros n_vars in
  match
    match objective self with
    | Some obj =>
        fill_terms (λ coef, if String.eqb (msense self) "maximize" then coef else - coef)
                   (terms obj) c0
    | None => Ok c0
    end
  with
  | Raise e => Raise e
  | Ok c =>
      match constraints_loop n_vars (constraints self) with
      | Raise e => Raise e
      | Ok (A, b) => Ok (c, Matrix n_constraints n_vars A, b)
      end
  end.


(** ** Vocabulary of the statements *)

(** [k] consecutive passes of the loop of [solve], each of which pivots;
    [None] when one of them returns or raises instead. *)
Fixpoint run_pivots (k : nat) (iteration : Z) (self : LPSolver) : option LPSolver :=
  match k with
  | O => Some self
  | S k' =>
      match iterate_once self iteration with
      | Pivoted self' => run_pivots k' (iteration + 1)%Z self'
      | _ => None
      end
  end.

(** Two solver objects that agree on the fields the simplex methods read. *)
Definition same_core (s1 s2 : LPSolver) : Prop :=
  tableau s1 = tableau s2 ∧ num_variables s1 = num_variables s2 ∧
  num_constraints s1 = num_constraints s2 ∧ basis s1 = basis s2.

(** The number of structural variables, as [extract_solution] computes it. *)
Definition num_structural (self : LPSolver) : nat :=
  (num_variables self - num_constraints self)%nat.

(** Row [i] of the constraint rows ([tableau[1:]]) is a candidate of the
    minimum-ratio test for column [j]. *)
Definition candidate (self : LPSolver) (j i : nat) : Prop :=
  (i < length (tail (tableau self)))%nat ∧ eps < entry (tableau self) (i + 1) j.

(** [T[i+1, -1] / T[i+1, j]] *)
Definition quotient (self : LPSolver) (j i : nat) : Q :=
  rhs (tableau self) (i + 1) / entry (tableau self) (i + 1) j.

Definition ratio_lt (r1 r2 : ratio) : Prop :=
  match r1, r2 with
  | Fin q1, Fin q2 => q1 < q2
  | Fin _, Inf => True
  | Inf, _ => False
  end.

(** The order in which [min] prefers one (ratio, index) pair to another:
    the smaller ratio, and the smaller index among equal ratios. *)
Definition preferred (x y : ratio * nat) : Prop :=
  ratio_lt (fst x) (fst y) ∨ (¬ ratio_lt (fst y) (fst x) ∧ (snd x ≤ snd y)%nat).

(** The minimum-ratio rule taken over all candidate rows: [None] exactly
    when there is no candidate, otherwise the candidate with the least
    quotient, the smallest index among equal quotients. *)
Definition min_ratio_over_candidates (self : LPSolver) (j : nat) : Prop :=
  (get_leaving_variable self j = Ok None ↔ ∀ i, ¬ candidate self j i)
  ∧ ((∃ i, candidate self j i) →
     ∃ r, get_leaving_variable self j = Ok (Some r) ∧ candidate self j r ∧
          ∀ k, candidate self j k →
               quotient self j r <= quotient self j k ∧
               (quotient self j k == quotient self j r → (r ≤ k)%nat)).

(** Every constraint row has a nonnegative right-hand side. *)
Definition rhs_nonneg (self : LPSolver) : Prop :=
  ∀ i, (1 ≤ i ≤ length (tail (tableau self)))%nat → 0 <= rhs (tableau self) i.

(** Scenario 2, [maximize x] subject to [x <= 5], and a problem with a
    negative right-hand side, [maximize x] subject to [x <= -1], [x <= 2]. *)
Definition scenario2 : exc SolveResult * LPSolver :=
  solve init_solver [1] (Matrix 1 1 [[1]]) [5] default_max_iterations.

Definition negative_rhs_start : LPSolver :=
  setup init_solver [1] (Matrix 2 1 [[1]; [1]]) [- (1); 2].

(** The three senses [to_standard_form] recognises. *)
Definition recognized (s : string) : Prop := s = "<=" ∨ s = ">=" ∨ s = "=".

(** Every variable of an expression was added to the model: its index is a
    position of the coefficient arrays. *)
Definition expr_in_model (n_vars : nat) (e : LPExpression) : Prop :=
  Forall (λ t : LPVariable * Q, (index (fst t) < n_vars)%nat) (terms e).

Definition vars_in_model (self : LPModel) : Prop :=
  (∀ obj, objective self = Some obj → expr_in_model (length (variables self)) obj)
  ∧ Forall (λ cst, expr_in_model (length (variables self)) (lhs cst))
           (constraints self).

(** The coefficient row of a constraint: the zero row after the assignments
    [A[i, var.index] = coef]. *)
Definition coefficient_row (n_vars : nat) (constraint : LPConstraint) : exc (list Q) :=
  fill_terms (λ coef, coef) (terms (lhs constraint)) (zeros n_vars).

(** [constraint.rhs - constraint.lhs.constant] *)
Definition effective_rhs (constraint : LPConstraint) : Q :=
  crhs constraint - constant (lhs constraint).

Definition invalid_sense_error (s : string) : exception :=
  ValueError ("Unsupported constraint sense: " +:+ s).

(** Every row of the array has [w] entries. *)
Definition rectangular (T : list (list Q)) (w : nat) : Prop :=
  Forall (λ row : list Q, length row = w) T.

(** The column of each basic variable [basis[i]], read on the rows from
    [lo] on, is the unit vector with its 1 in row [i + 1]. *)
Definition unit_columns (lo : nat) (self : LPSolver) : Prop :=
  ∀ i v, basis self !! i = Some v →
    ∀ k, (lo ≤ k < length (tableau self))%nat →
      entry (tableau self) k v == if decide (k = (i + 1)%nat) then 1 else 0.

(** The basis invariant: on the constraint rows [1..m] the column of
    [basis[i]] is the [i]-th standard basis vector. *)
Definition basis_invariant (self : LPSolver) : Prop := unit_columns 1 self.

(** The tableau has one row per basic variable under the objective row. *)
Definition shaped (self : LPSolver) (w : nat) : Prop :=
  rectangular (tableau self) w ∧
  length (tableau self) = S (length (basis self)).

(** The scalar product [u · x]. *)
Definition dot (u x : list Q) : Q := foldr Qplus 0 (zip_with Qmult u x).

(** The true objective value [c · x] of the current basic solution [x],
    the vector [extract_solution] reads off the tableau. *)
Definition objective_of (c : list Q) (self : LPSolver) : Q :=
  dot c (fst (extract_solution self)).

(** A problem [(c, A, b)] with [A] of shape [(m, n)], [c] of length [n]
    and [b] of length [m]. *)
Definition wf_problem (c : list Q) (A : matrix) (b : list Q) : Prop :=
  wf_matrix A ∧ length c = ncols A ∧ length b = nrows A.

(** The states of a run of [solve] on [(c, A, b)] reached through tableaux
    that all have nonnegative right-hand sides in the constraint rows. *)
Inductive feasible_run (c : list Q) (A : matrix) (b : list Q) : LPSolver → Prop :=
| run_start self0 : feasible_run c A b (setup self0 c A b)
| run_step s iteration s' :
    feasible_run c A b s → rhs_nonneg s →
    iterate_once s iteration = Pivoted s' →
    feasible_run c A b s'.

(** The states the loop of [solve] can be in on [(c, A, b)], whichever
    row the ratio test picks: the state in which the loop starts, and the
    state after a pivot on a nonzero element of the column
    [get_entering_variable] returns and of a constraint row. *)
Inductive pivoting_run (c : list Q) (A : matrix) (b : list Q) : LPSolver → Prop :=
| pivoting_start self0 : pivoting_run c A b (setup self0 c A b)
| pivoting_step s j r :
    pivoting_run c A b s →
    get_entering_variable s = Some j →
    (r < nrows A)%nat →
    ¬ pivot_element s j r == 0 →
    pivoting_run c A b (pivot s j r).

(** The objective never decreases from a pass of the loop to the next. *)
Definition objective_monotone (c : list Q) (A : matrix) (b : list Q) : Prop :=
  ∀ self k s s',
    run_pivots k 0 (setup self c A b) = Some s →
    iterate_once s (Z.of_nat k) = Pivoted s' →
    objective_of c s <= objective_of c s'.

(** The value of variable [v] in the basic solution of the tableau. *)
Definition basic_value (self : LPSolver) (v : nat) : Q :=
  match list_find (λ w, w = v) (basis self) with
  | Some (i, _) => rhs (tableau self) (i + 1)
  | None => 0
  end.

Definition basic_solution (self : LPSolver) : list Q :=
  basic_value self <$> seq 0 (num_variables self).

(** [x] satisfies the equations the constraint rows stand for. *)
Definition satisfies (self : LPSolver) (x : list Q) : Prop :=
  ∀ k, (1 ≤ k < length (tableau self))%nat →
    dot (but_last (tableau self !!! k)) x == rhs (tableau self) k.

(** The objective row accounts for the objective: on every solution of the
    constraint rows, [T[0, :-1] · x + c · x = T[0, -1]]. *)
Definition objective_row_identity (c_std : list Q) (self : LPSolver) : Prop :=
  ∀ x, length x = length c_std → satisfies self x →
    dot (obj_row self) x + dot c_std x == rhs (tableau self) 0.

(** The invariant of the loop of [solve] in exact arithmetic. *)
Definition canonical (c : list Q) (A : matrix) (self : LPSolver) : Prop :=
  shaped self (ncols A + nrows A + 1) ∧
  length (basis self) = nrows A ∧
  num_variables self = (ncols A + nrows A)%nat ∧
  num_constraints self = nrows A ∧
  Forall (λ v, (v < ncols A + nrows A)%nat) (basis self) ∧
  unit_columns 0 self ∧
  objective_row_identity (c ++ zeros (nrows A)) self.

(** A problem whose first constraint has a negative right-hand side:
    [maximize x] subject to [x <= -1], [-x <= 1]; and one in which both
    have, [maximize x] subject to [x <= -1], [x <= -2]. *)
Definition infeasible_start : LPSolver :=
  setup init_solver [1] (Matrix 2 1 [[1]; [- (1)]]) [- (1); 1].

Definition all_negative_start : LPSolver :=
  setup init_solver [1] (Matrix 2 1 [[1]; [1]]) [- (1); - (2)].


(** A problem with two constraints: [maximize x + y] subject to
    [x + y <= 4], [2x + y <= 6]; the state in which the loop starts. *)
Definition two_rows_start : LPSolver :=
  setup init_solver [1; 1] (Matrix 2 2 [[1; 1]; [2; 1]]) [4; 6].

(** The model of the examples: [maximize 3x + 4y] subject to
    [2x + 3y <= 6], [x >= 1], [x + y = 3]. *)
Definition var_x : LPVariable := mkVar "x" 0 Inf 0.
Definition var_y : LPVariable := mkVar "y" 0 Inf 1.
Definition example_model : LPModel :=
  mkModel "Example Model" [var_x; var_y]
    [ mkConstraint (mkExpr [(var_x, 2); (var_y, 3)] 0) "<=" 6;
      mkConstraint (mkExpr [(var_x, 1)] 0) ">=" 1;
      mkConstraint (mkExpr [(var_x, 1); (var_y, 1)] 0) "=" 3 ]
    (Some (mkExpr [(var_x, 3); (var_y, 4)] 0)) "maximize".


(** A model without variables whose only constraint mentions a variable
    (of index 0) and has the sense ['<']. *)
Definition stray_variable_model : LPModel :=
  mkModel "LP Model" [] [ mkConstraint (mkExpr [(var_x, 1)] 0) "<" 1 ] None "maximize".

(** ** Vocabulary of the further properties *)

(** The sum of the entries of a vector. *)
Definition sumQ (l : list Q) : Q := foldr Qplus 0 l.

(** The slack [b - A x] a point [x] leaves in each constraint. *)
Definition slack_of (A : matrix) (b x : list Q) : list Q :=
  zip_with (λ row bi, bi - dot row x) (mdata A) b.

(** [x] is feasible for the problem [A x <= b], [x >= 0]. *)
Definition feasible_point (A : matrix) (b x : list Q) : Prop :=
  length x = ncols A ∧ Forall (λ v, 0 <= v) x ∧
  ∀ i row, mdata A !! i = Some row → dot row x <= b !!! i.

(** Every tableau a call of [solve] goes through has nonnegative right-hand
    sides in its constraint rows. *)
Definition stays_feasible (self : LPSolver) (c : list Q) (A : matrix) (b : list Q)
  : Prop :=
  ∀ k s, run_pivots k 0 (setup self c A b) = Some s → rhs_nonneg s.


(** ** Building and solving a model ([lpsolver/model.py]) *)

(** [LPModel.__init__] *)
Definition new_model (model_name : string) : LPModel :=
  mkModel model_name [] [] None "maximize".

(** [add_variable]: without a name the variable is called
    [f"x{len(self.variables)}"]; its index is the number of variables the
    model had. *)
Definition add_variable (self : LPModel) (vname : option string) (lb : Q) (ub : ratio)
  : LPVariable * LPModel :=
  let vname := match vname with
               | None => "x" +:+ pretty (length (variables self))
               | Some s => s
               end in
  let var := mkVar vname lb ub (length (variables self)) in
  (var, mkModel (name self) (variables self ++ [var]) (constraints self)
                (objective self) (msense self)).

(** [add_variables]: the comprehension
    [[self.add_variable(f"{prefix}{i+1}", lb, ub) for i in range(count)]],
    from pass [i] on. *)
Fixpoint add_variables_from (self : LPModel) (i count : nat) (prefix : string)
         (lb : Q) (ub : ratio) : list LPVariable * LPModel :=
  match count with
  | O => ([], self)
  | S count' =>
      let '(var, self1) := add_variable self (Some (prefix +:+ pretty (i + 1)%nat)) lb ub in
      let '(vars, self2) := add_variables_from self1 (S i) count' prefix lb ub in
      (var :: vars, self2)
  end.

Definition add_variables (self : LPModel) (count : nat) (prefix : string)
           (lb : Q) (ub : ratio) : list LPVariable * LPModel :=
  add_variables_from self 0 count prefix lb ub.

(** [add_constraint] *)
Definition add_constraint (self : LPModel) (constraint : LPConstraint) : LPModel :=
  mkModel (name self) (variables self) (constraints self ++ [constraint])
          (objective self) (msense self).

(** [str.lower()] on ASCII strings. *)
Definition lower_ascii (a : Ascii.ascii) : Ascii.ascii :=
  let n := Ascii.nat_of_ascii a in
  if (65 <=? n)%nat && (n <=? 90)%nat then Ascii.ascii_of_nat (n + 32) else a.

Fixpoint lower (s : string) : string :=
  match s with
  | EmptyString => EmptyString
  | String a s' => String (lower_ascii a) (lower s')
  end.

(** The argument of [set_objective]: an expression or a single variable. *)
Inductive objective_arg : Type :=
| ObjVariable (var : LPVariable)
| ObjExpression (expr : LPExpression).

(** [set_objective]: a variable becomes [LPExpression({expr: 1.0}, 0.0)];
    the sense is stored in lower case. *)
Definition set_objective (self : LPModel) (expr : objective_arg) (sense_arg : string)
  : LPModel :=
  let expr := match expr with
              | ObjVariable var => mkExpr [(var, 1)] 0
              | ObjExpression e => e
              end in
  mkModel (name self) (variables self) (constraints self) (Some expr)
          (lower sense_arg).

(** The dictionary [LPModel.solve] returns: the result of the solver and,
    for an optimal result, the key ["variable_values"]. *)
Record ModelResult := mkModelResult {
  solver_result : SolveResult;
  variable_values : option (gmap string Q)
}.

(** The loop [for i, var in enumerate(self.variables)] of [LPModel.solve]. *)
Fixpoint collect_values (vars : list LPVariable) (i : nat) (sol : list Q)
         (values : gmap string Q) : gmap string Q :=
  match vars with
  | [] => values
  | var :: vars' =>
      collect_values vars' (S i) sol
        (if (i <? length sol)%nat then <[var_name var := sol !!! i]> values
         else values)
  end.

(** [LPModel.solve]: a fresh solver with the default iteration limit.  An
    optimal result always carries a solution ([solve] attaches one), so the
    lookup [result["solution"]] does not fail. *)
Definition model_solve (self : LPModel) : exc ModelResult :=
  match to_standard_form self with
  | Raise e => Raise e
  | Ok (c, A, b) =>
      match fst (solve init_solver c A b default_max_iterations) with
      | Raise e => Raise e
      | Ok result =>
          if String.eqb (status result) "optimal" then
            match res_solution result with
            | Some sol =>
                Ok (mkModelResult result
                      (Some (collect_values (variables self) 0 sol ∅)))
            | None => Ok (mkModelResult result None)
            end
          else Ok (mkModelResult result None)
      end
  end.

(** The value of a sum of terms at the point [x]: [sum of coef * x[var.index]]. *)
Definition eval_terms (x : list Q) (ts : list (LPVariable * Q)) : Q :=
  foldr (λ t acc, snd t * x !!! index (fst t) + acc) 0 ts.

(** The terms of an expression mention each variable index once. *)
Definition distinct_indices (e : LPExpression) : Prop :=
  NoDup ((λ t : LPVariable * Q, index (fst t)) <$> terms e).

(** The position of every variable of the model is its index. *)
Definition indexed (self : LPModel) : Prop :=
  ∀ i v, variables self !! i = Some v → index v = i.

(** Every variable an expression mentions is one of the model's. *)
Definition over_variables (self : LPModel) (e : LPExpression) : Prop :=
  Forall (λ t : LPVariable * Q, fst t ∈ variables self) (terms e).

(** A model with one variable: [maximize x] subject to [x <= 5]. *)
Definition single_model : LPModel :=
  mkModel "LP Model" [var_x]
    [ mkConstraint (mkExpr [(var_x, 1)] 0) "<=" 5 ]
    (Some (mkExpr [(var_x, 1)] 0)) "maximize".

(** ** Expressions as Python objects ([lpsolver/variables.py])

    The [terms] of an [LPExpression] is a dictionary keyed by [LPVariable]
    objects.  [LPVariable] hashes by name and its [__eq__] builds a
    constraint, a dictionary display [{self: 1.0, other: -1.0}] included.  A
    dictionary therefore finds a key when it meets the very same object; when
    it meets another object of the same name (the same hash) it calls
    [__eq__], which builds that display, which compares the same two objects
    again: the lookup ends in [RecursionError].  Names that differ are taken
    to hash differently.  An object is its identity [oid] together with its
    fields; [copy.deepcopy] gives every key a new identity, counted from
    [fresh], the first identity not in use.  A dictionary is the list of its
    items in insertion order.  The messages of the exceptions are left
    out. *)

Record VarObj := mkObj { oid : nat; obj : LPVariable }.

Record PyExpression := mkPyExpr {
  pterms : list (VarObj * Q);
  pconstant : Q
}.

Record PyConstraint := mkPyConstraint {
  plhs : PyExpression;
  psense : string;
  prhs : Q
}.

Inductive py_error : Type :=
| RecursionError
| TypeError
| ZeroDivisionError.

Inductive outcome (A : Type) : Type :=
| Returns (a : A)
| Throws (e : py_error).
Arguments Returns {A} a.
Arguments Throws {A} e.

(** The result of looking a key up: its position and value, no such key,
    or the comparison that does not return. *)
Inductive slot : Type :=
| Found (i : nat) (v : Q)
| Missing
| Clash.

Fixpoint dict_find (d : list (VarObj * Q)) (k : VarObj) (i : nat) : slot :=
  match d with
  | [] => Missing
  | (k', v) :: d' =>
      if String.eqb (var_name (obj k')) (var_name (obj k)) then
        if (oid k' =? oid k)%nat then Found i v else Clash
      else dict_find d' k (S i)
  end.

(** [d[k] = v]: an existing key keeps its place (and stays the key). *)
Definition dict_set (d : list (VarObj * Q)) (k : VarObj) (v : Q)
  : outcome (list (VarObj * Q)) :=
  match dict_find d k 0 with
  | Found i _ => Returns (alter (λ kv, (fst kv, v)) i d)
  | Missing => Returns (d ++ [(k, v)])
  | Clash => Throws RecursionError
  end.

(** A dictionary display [{k1: v1, k2: v2, ...}]. *)
Fixpoint dict_display (d : list (VarObj * Q)) (kvs : list (VarObj * Q))
  : outcome (list (VarObj * Q)) :=
  match kvs with
  | [] => Returns d
  | (k, v) :: kvs' =>
      match dict_set d k v with
      | Returns d' => dict_display d' kvs'
      | Throws e => Throws e
      end
  end.

(** [LPExpression.add_term] *)
Definition add_term (self : PyExpression) (var : VarObj) (coefficient : Q)
  : outcome PyExpression :=
  match dict_find (pterms self) var 0 with
  | Clash => Throws RecursionError
  | Found i v =>
      if Qltb (Qabs (v + coefficient)) eps
      then Returns (mkPyExpr (delete i (pterms self)) (pconstant self))
      else Returns (mkPyExpr (alter (λ kv, (fst kv, v + coefficient)) i (pterms self))
                             (pconstant self))
  | Missing => Returns (mkPyExpr (pterms self ++ [(var, coefficient)]) (pconstant self))
  end.

(** [LPExpression.scale]: every key looked up is a key of the dictionary
    itself. *)
Definition scale (self : PyExpression) (factor : Q) : PyExpression :=
  mkPyExpr ((λ kv : VarObj * Q, (fst kv, snd kv * factor)) <$> pterms self)
           (pconstant self * factor).

(** [copy.deepcopy] of an expression. *)
Definition deepcopy (fresh : nat) (e : PyExpression) : PyExpression :=
  mkPyExpr (imap (λ i (kv : VarObj * Q), (mkObj (fresh + i) (obj (fst kv)), snd kv))
                 (pterms e))
           (pconstant e).

(** The right operand of an operator: a number ([int] or [float]), a
    variable, an expression, or anything else. *)
Inductive operand : Type :=
| Num (q : Q)
| VarRef (v : VarObj)
| ExprRef (e : PyExpression)
| OtherObject.

(** [LPExpression(terms, constant)] on a display that may not return. *)
Definition expression_of (d : outcome (list (VarObj * Q))) (c : Q)
  : outcome PyExpression :=
  match d with
  | Returns d => Returns (mkPyExpr d c)
  | Throws e => Throws e
  end.

(** [for var, coef in other.terms.items(): result.add_term(var, f(coef))] *)
Fixpoint add_terms (result : PyExpression) (f : Q → Q) (ts : list (VarObj * Q))
  : outcome PyExpression :=
  match ts with
  | [] => Returns result
  | (var, coef) :: ts' =>
      match add_term result var (f coef) with
      | Returns result' => add_terms result' f ts'
      | Throws e => Throws e
      end
  end.

(** [LPVariable.__add__] *)
Definition var_add (self : VarObj) (fresh : nat) (other : operand)
  : outcome PyExpression :=
  match other with
  | Num q => Returns (mkPyExpr [(self, 1)] q)
  | VarRef o => expression_of (dict_display [] [(self, 1); (o, 1)]) 0
  | ExprRef e => add_term (deepcopy fresh e) self 1
  | OtherObject => Throws TypeError
  end.

(** [LPVariable.__sub__] *)
Definition var_sub (self : VarObj) (fresh : nat) (other : operand)
  : outcome PyExpression :=
  match other with
  | Num q => Returns (mkPyExpr [(self, 1)] (- q))
  | VarRef o => expression_of (dict_display [] [(self, 1); (o, - (1))]) 0
  | ExprRef e => add_term (scale (deepcopy fresh e) (- (1))) self 1
  | OtherObject => Throws TypeError
  end.

(** [LPExpression.__add__] *)
Definition expr_add (self : PyExpression) (fresh : nat) (other : operand)
  : outcome PyExpression :=
  let result := deepcopy fresh self in
  match other with
  | Num q => Returns (mkPyExpr (pterms result) (pconstant result + q))
  | VarRef v => add_term result v 1
  | ExprRef o =>
      match add_terms result (λ coef, coef) (pterms o) with
      | Returns r => Returns (mkPyExpr (pterms r) (pconstant r + pconstant o))
      | Throws e => Throws e
      end
  | OtherObject => Throws TypeError
  end.

(** [LPExpression.__sub__] *)
Definition expr_sub (self : PyExpression) (fresh : nat) (other : operand)
  : outcome PyExpression :=
  let result := deepcopy fresh self in
  match other with
  | Num q => Returns (mkPyExpr (pterms result) (pconstant result - q))
  | VarRef v => add_term result v (- (1))
  | ExprRef o =>
      match add_terms result Qopp (pterms o) with
      | Returns r => Returns (mkPyExpr (pterms r) (pconstant r - pconstant o))
      | Throws e => Throws e
      end
  | OtherObject => Throws TypeError
  end.

(** [LPExpression.__mul__], [__truediv__] and [__neg__] *)
Definition expr_mul (self : PyExpression) (fresh : nat) (other : operand)
  : outcome PyExpression :=
  match other with
  | Num q => Returns (scale (deepcopy fresh self) q)
  | _ => Throws TypeError
  end.

Definition expr_truediv (self : PyExpression) (fresh : nat) (other : operand)
  : outcome PyExpression :=
  match other with
  | Num q =>
      if Qeq_bool q 0 then Throws ZeroDivisionError
      else Returns (scale (deepcopy fresh self) (1 / q))
  | _ => Throws TypeError
  end.

Definition expr_neg (self : PyExpression) (fresh : nat) : PyExpression :=
  scale (deepcopy fresh self) (- (1)).

(** [LPExpression.__le__], [__ge__] and [__eq__], which differ in the sense
    they store: ['<='], ['>='], ['=']. *)
Definition expr_compare (sense_symbol : string) (self : PyExpression) (fresh : nat)
           (other : operand) : outcome PyConstraint :=
  match other with
  | Num q => Returns (mkPyConstraint (deepcopy fresh self) sense_symbol q)
  | VarRef _ | ExprRef _ =>
      match expr_sub self fresh other with
      | Returns lhs => Returns (mkPyConstraint lhs sense_symbol 0)
      | Throws e => Throws e
      end
  | OtherObject => Throws TypeError
  end.

(** What [to_standard_form] reads of an expression and of a constraint. *)
Definition erase (e : PyExpression) : LPExpression :=
  mkExpr ((λ kv : VarObj * Q, (obj (fst kv), snd kv)) <$> pterms e) (pconstant e).

Definition erase_constraint (c : PyConstraint) : LPConstraint :=
  mkConstraint (erase (plhs c)) (psense c) (prhs c).

(** The value of an expression at the point [x]:
    [sum of coef * x[var.index] + constant]. *)
Definition terms_value (x : list Q) (d : list (VarObj * Q)) : Q :=
  foldr (λ kv acc, snd kv * x !!! index (obj (fst kv)) + acc) 0 d.

Definition value_at (x : list Q) (e : PyExpression) : Q :=
  terms_value x (pterms e) + pconstant e.

(** The value of an operand at [x]; 0 for what is no number, variable or
    expression. *)
Definition operand_value (x : list Q) (o : operand) : Q :=
  match o with
  | Num q => q
  | VarRef v => x !!! index (obj v)
  | ExprRef e => value_at x e
  | OtherObject => 0
  end.

(** The names of the keys of an expression. *)
Definition key_names (e : PyExpression) : list string :=
  (λ kv : VarObj * Q, var_name (obj (fst kv))) <$> pterms e.

(** The terms an operand stands for, and the names of their variables. *)
Definition operand_terms (o : operand) : list (VarObj * Q) :=
  match o with
  | VarRef v => [(v, 1)]
  | ExprRef e => pterms e
  | _ => []
  end.

Definition operand_names (o : operand) : list string :=
  (λ kv : VarObj * Q, var_name (obj (fst kv))) <$> operand_terms o.

(** Every variable object the operand holds was created before [fresh]. *)
Definition allocated_before (fresh : nat) (o : operand) : Prop :=
  Forall (λ kv : VarObj * Q, (oid (fst kv) < fresh)%nat) (operand_terms o).

(** Some key of [self] has the name of a variable of the operand. *)
Definition shares_name (self : PyExpression) (o : operand) : Prop :=
  ∃ n, n ∈ key_names self ∧ n ∈ operand_names o.

(** What a constraint says of the point [x]. *)
Definition constraint_holds (x : list Q) (c : PyConstraint) : Prop :=
  if String.eqb (psense c) "<=" then value_at x (plhs c) <= prhs c
  else if String.eqb (psense c) ">=" then prhs c <= value_at x (plhs c)
  else value_at x (plhs c) == prhs c.

Definition related (sense_symbol : string) (l r : Q) : Prop :=
  if String.eqb sense_symbol "<=" then l <= r
  else if String.eqb sense_symbol ">=" then r <= l
  else l == r.

(** ** The solver over binary64

    [lpsolver/solver.py] once more, definition by definition as above, with
    the entries of the arrays in binary64: [float] is the kernel's type of
    IEEE 754 double-precision values, with its operations and comparisons
    ([nan] compares false with everything, [-0.0] equals [0.0]). *)

Module F64.

#[global] Instance float_inhabited : Inhabited float := populate zero.

(** The literals [1e-10] and [1e-05] as Python reads them. *)
Definition eps : float := 0x1.b7cdfd9d7bdbbp-34%float.
Definition rtol_default : float := 0x1.4f8b588e368f1p-17%float.

(** [np.isclose(a, b, atol=atol)] for a finite [b]:
    [abs(a - b) <= atol + rtol * abs(b)]; for an [a] that is [inf] or [nan]
    numpy tests [a == b] instead, which is false as this comparison is. *)
Definition isclose (a b atol : float) : bool :=
  (abs (a - b) <=? atol + rtol_default * abs b)%float.

(** [T[i, j]], [row[-1]], [T[i, -1]] and [row[:-1]]. *)
Definition entry (T : list (list float)) (i j : nat) : float := (T !!! i) !!! j.
Definition last_of (row : list float) : float := row !!! (length row - 1)%nat.
Definition rhs (T : list (list float)) (i : nat) : float := last_of (T !!! i).
Definition but_last (row : list float) : list float := take (length row - 1)%nat row.

(** The caller's constraint matrix, with its shape. *)
Record matrix := Matrix { nrows : nat; ncols : nat; mdata : list (list float) }.

(** [np.eye(m)], [np.zeros(m)] and [np.hstack([A, B])]. *)
Definition eye (m : nat) : list (list float) :=
  (λ i, (λ k, if (k =? i)%nat then one else zero) <$> seq 0 m) <$> seq 0 m.
Definition zeros (m : nat) : list float := replicate m zero.
Definition hstack (A : matrix) (B : list (list float)) (Bcols : nat) : matrix :=
  Matrix (nrows A) (ncols A + Bcols) (zip_with app (mdata A) B).

(** The dictionary returned by [solve], and the instance fields of
    [LPSolver]. *)
Record SolveResult := mkResult {
  status : string;
  res_solution : option (list float);
  res_objective_value : option float;
  iterations : Z
}.

Record LPSolver := mkSolver {
  tableau : list (list float);
  num_variables : nat;
  num_constraints : nat;
  basis : list nat;
  objective_value : option float;
  solution : option (list float)
}.

Definition init_solver : LPSolver := mkSolver [] 0 0 [] None None.

Definition set_tableau (self : LPSolver) (T : list (list float)) : LPSolver :=
  mkSolver T (num_variables self) (num_constraints self) (basis self)
           (objective_value self) (solution self).

Definition set_basis (self : LPSolver) (B : list nat) : LPSolver :=
  mkSolver (tableau self) (num_variables self) (num_constraints self) B
           (objective_value self) (solution self).

(** [standard_form], [create_initial_tableau] (the array of zeros after
    [tableau[0, :-1] = -c], [tableau[1:, :-1] = A], [tableau[1:, -1] = b])
    and [initialize_basis]. *)
Definition standard_form (c : list float) (A : matrix) (b : list float)
  : list float * matrix * list float :=
  let m := nrows A in
  let A_new := hstack A (eye m) m in
  let c_new := c ++ zeros m in
  (c_new, A_new, b).

Definition create_initial_tableau (c : list float) (A : matrix) (b : list float)
  : list (list float) :=
  ((opp <$> c) ++ [zero]) :: zip_with (λ row bi, row ++ [bi]) (mdata A) b.

Definition initialize_basis (self : LPSolver) : list nat :=
  let lo := (num_variables self - num_constraints self)%nat in
  seq lo (num_variables self - lo).

(** The loop [for j, coeff in enumerate(obj_row)] with its [return j]. *)
Fixpoint first_index (p : float → bool) (j : nat) (l : list float) : option nat :=
  match l with
  | [] => None
  | coeff :: l' => if p coeff then Some j else first_index p (S j) l'
  end.

(** [self.tableau[0, :-1]] *)
Definition obj_row (self : LPSolver) : list float := but_last (tableau self !!! 0%nat).

(** [get_entering_variable]: [None] when [np.all(obj_row >= -1e-10)], else
    the first [j] with [coeff < -1e-10 and not np.isclose(coeff, 0,
    atol=1e-10)], else [None]. *)
Definition get_entering_variable (self : LPSolver) : option nat :=
  let obj_row := obj_row self in
  if forallb (λ x, (- eps <=? x)%float) obj_row then None
  else first_index (λ coeff, (coeff <? - eps)%float && negb (isclose coeff zero eps))
                   0 obj_row.

(** Python's [min(iterable, key=lambda x: x[0])]: the running best is
    replaced when the key of the next element is [<] its key. *)
Fixpoint min_from (best : float * nat) (l : list (float * nat)) : float * nat :=
  match l with
  | [] => best
  | x :: l' => min_from (if (fst x <? fst best)%float then x else best) l'
  end.

Definition py_min (l : list (float * nat)) : exc (float * nat) :=
  match l with
  | [] => Raise (ValueError "min() arg is an empty sequence")
  | x :: l' => Ok (min_from x l')
  end.

(** The [ratios] list: [(b[i] / column[i], i)] when [column[i] > 1e-10],
    else [(float('inf'), i)]. *)
Definition ratios_of (column b : list float) : list (float * nat) :=
  imap (λ i bi,
          if (eps <? column !!! i)%float then ((bi / (column !!! i))%float, i)
          else (infinity, i)) b.

(** [self.tableau[1:, entering_idx]] and [self.tableau[1:, -1]] *)
Definition column_of (self : LPSolver) (entering_idx : nat) : list float :=
  (λ row, row !!! entering_idx) <$> tail (tableau self).
Definition rhs_column (self : LPSolver) : list float :=
  last_of <$> tail (tableau self).

(** Row [i] of the constraint rows is a candidate of the ratio test for
    column [j]: [column[i] > 1e-10]. *)
Definition candidate (self : LPSolver) (j i : nat) : Prop :=
  (i < length (tail (tableau self)))%nat ∧
  (eps <? entry (tableau self) (i + 1) j)%float = true.

(** [b[i] / column[i]] as the code computes it, and the first component of
    the pair the loop appends for row [i]. *)
Definition quotient (self : LPSolver) (j i : nat) : float :=
  (rhs (tableau self) (i + 1) / entry (tableau self) (i + 1) j)%float.

Definition ratio_at (self : LPSolver) (j i : nat) : float :=
  if (eps <? entry (tableau self) (i + 1) j)%float then quotient self j i
  else infinity.

(** [get_leaving_variable]: [None] when [np.all(column <= 1e-10)], else
    the index of [min((r for r in ratios if r[0] >= 0), key=...)]. *)
Definition get_leaving_variable (self : LPSolver) (entering_idx : nat)
  : exc (option nat) :=
  let column := column_of self entering_idx in
  let b := rhs_column self in
  if forallb (λ x, (x <=? eps)%float) column then Ok None
  else
    match py_min (filter (λ r, (zero <=? fst r)%float = true) (ratios_of column b)) with
    | Raise e => Raise e
    | Ok (min_ratio, leaving_idx) => Ok (Some leaving_idx)
    end.

(** [pivot]: [tableau[pivot_row] / pivot_element], then
    [tableau[i] - tableau[i, entering_idx] * tableau[pivot_row]] for every
    other row, then the basis entry. *)
Definition row_sub (r : list float) (f : float) (p : list float) : list float :=
  zip_with (λ x y, (x - f * y)%float) r p.

Definition pivot_rows (entering_idx pivot_row : nat) (T : list (list float))
  : list (list float) :=
  foldl (λ T i,
           if (i =? pivot_row)%nat then T
           else <[i := row_sub (T !!! i) (entry T i entering_idx) (T !!! pivot_row)]> T)
        T (seq 0 (length T)).

Definition pivot_element (self : LPSolver) (entering_idx leaving_idx : nat) : float :=
  entry (tableau self) (leaving_idx + 1) entering_idx.

Definition pivot (self : LPSolver) (entering_idx leaving_idx : nat) : LPSolver :=
  let pivot_row := (leaving_idx + 1)%nat in
  let pivot_element := pivot_element self entering_idx leaving_idx in
  let T1 := <[pivot_row := (λ x, (x / pivot_element)%float) <$> (tableau self !!! pivot_row)]>
              (tableau self) in
  let T2 := pivot_rows entering_idx pivot_row T1 in
  set_basis (set_tableau self T2) (<[leaving_idx := entering_idx]> (basis self)).

(** [extract_solution] *)
Fixpoint extract_loop (T : list (list float)) (nstruct : nat) (i : nat)
         (bs : list nat) (solution : list float) : list float :=
  match bs with
  | [] => solution
  | var_idx :: rest =>
      extract_loop T nstruct (S i) rest
        (if (var_idx <? nstruct)%nat
         then <[var_idx := rhs T (i + 1)]> solution
         else solution)
  end.

Definition extract_solution (self : LPSolver) : list float * float :=
  let nstruct := (num_variables self - num_constraints self)%nat in
  let solution := extract_loop (tableau self) nstruct 0 (basis self)
                               (zeros (num_variables self)) in
  let objective_value := (- rhs (tableau self) 0)%float in
  (take nstruct solution, objective_value).

(** One pass through the body of the [while] loop of [solve], the loop,
    the state in which it starts, and [solve]. *)
Inductive iteration_outcome : Type :=
| Pivoted (self : LPSolver)
| Returned (r : SolveResult) (self : LPSolver)
| Raised (e : exception) (self : LPSolver).

Definition iterate_once (self : LPSolver) (iteration : Z) : iteration_outcome :=
  match get_entering_variable self with
  | None =>
      let '(sol, obj) := extract_solution self in
      let self' := mkSolver (tableau self) (num_variables self)
                            (num_constraints self) (basis self)
                            (Some obj) (Some sol) in
      Returned (mkResult "optimal" (Some sol) (Some obj) iteration) self'
  | Some entering_idx =>
      match get_leaving_variable self entering_idx with
      | Raise e => Raised e self
      | Ok None => Returned (mkResult "unbounded" None None iteration) self
      | Ok (Some leaving_idx) => Pivoted (pivot self entering_idx leaving_idx)
      end
  end.

Fixpoint simplex_loop (remaining : nat) (max_iterations iteration : Z)
         (self : LPSolver) : exc SolveResult * LPSolver :=
  match remaining with
  | O => (Ok (mkResult "iteration_limit" None None max_iterations), self)
  | S remaining' =>
      match iterate_once self iteration with
      | Returned r self' => (Ok r, self')
      | Raised e self' => (Raise e, self')
      | Pivoted self' =>
          simplex_loop remaining' max_iterations (iteration + 1)%Z self'
      end
  end.

Definition setup (self : LPSolver) (c : list float) (A : matrix) (b : list float)
  : LPSolver :=
  let self := mkSolver (tableau self) (num_variables self) (nrows A)
                       (basis self) (objective_value self) (solution self) in
  let '(c_std, A_std, b_std) := standard_form c A b in
  let self := mkSolver (tableau self) (ncols A_std) (num_constraints self)
                       (basis self) (objective_value self) (solution self) in
  let self := set_tableau self (create_initial_tableau c_std A_std b_std) in
  set_basis self (initialize_basis self).

Definition solve (self : LPSolver) (c : list float) (A : matrix) (b : list float)
           (max_iterations : Z) : exc SolveResult * LPSolver :=
  simplex_loop (Z.to_nat max_iterations) max_iterations 0%Z (setup self c A b).

Definition default_max_iterations : Z := 1000.


Definition scenario2 : exc SolveResult * LPSolver :=
  solve init_solver [1%float] (Matrix 1 1 [[1%float]]) [5%float]
        default_max_iterations.

(** [maximize x] subject to [x <= -1], [x <= 2]: the state in which the
    loop starts. *)
Definition negative_rhs_start : LPSolver :=
  setup init_solver [1%float]
        (Matrix 2 1 [[1%float]; [1%float]]) [(-1)%float; 2%float].



End F64.

(** * Properties *)

(** ** Comparisons *)

Lemma Qleb_le x y : Qleb x y = true ↔ x <= y.
Proof. apply Qle_bool_iff. Qed.

Lemma Qleb_nle x y : Qleb x y = false ↔ y < x.
Proof.
  unfold Qleb. split; intros H.
  - apply Qnot_le_lt. intros Hle. apply Qle_bool_iff in Hle. congruence.
  - destruct (Qle_bool x y) eqn:E; [|done].
    apply Qle_bool_iff in E. lra.
Qed.

Lemma Qltb_lt x y : Qltb x y = true ↔ x < y.
Proof.
  unfold Qltb. rewrite negb_true_iff. apply (Qleb_nle y x).
Qed.

Lemma Qltb_nlt x y : Qltb x y = false ↔ y <= x.
Proof.
  unfold Qltb. rewrite negb_false_iff. apply Qle_bool_iff.
Qed.

Lemma eps_pos : 0 < eps.
Proof. reflexivity. Qed.

(** Below the tolerance a coefficient is never close to zero, so the second
    test of the entering-variable loop does not reject anything. *)
Lemma isclose_below coeff : coeff < - eps → isclose coeff 0 eps = false.
Proof.
  intros H. unfold isclose. apply Qleb_nle.
  assert (Ha : Qabs (coeff - 0) == - coeff).
  { assert (Hc : coeff - 0 == coeff) by ring. rewrite Hc.
    apply Qabs_neg. pose proof eps_pos. lra. }
  rewrite Ha. change (Qabs 0) with 0. lra.
Qed.

Lemma entering_test coeff :
  Qltb coeff (- eps) && negb (isclose coeff 0 eps) = Qltb coeff (- eps).
Proof.
  destruct (Qltb coeff (- eps)) eqn:E; [|done].
  apply Qltb_lt in E. by rewrite isclose_below.
Qed.

(** ** Entering variable *)

Lemma first_index_Some p j0 l j :
  first_index p j0 l = Some j ↔
  ∃ k x, j = (j0 + k)%nat ∧ l !! k = Some x ∧ p x = true ∧
         ∀ k' y, (k' < k)%nat → l !! k' = Some y → p y = false.
Proof.
  revert j0. induction l as [|a l IH]; intros j0; simpl.
  - split; [done|]. intros (k & x & _ & Hk & _). by destruct k.
  - destruct (p a) eqn:Ea.
    + split.
      * intros [= <-]. exists 0%nat, a. repeat split; [lia|done|lia].
      * intros (k & x & -> & Hk & Hx & Hmin). destruct k as [|k]; [f_equal; lia|].
        specialize (Hmin 0%nat a). simpl in Hmin. rewrite Hmin in Ea; [done|lia|done].
    + rewrite IH. split.
      * intros (k & x & -> & Hk & Hx & Hmin). exists (S k), x.
        repeat split; [lia|done|done|].
        intros [|k'] y Hlt Hy; simpl in Hy; [congruence|].
        apply (Hmin k'); [lia|done].
      * intros (k & x & -> & Hk & Hx & Hmin). destruct k as [|k].
        { simpl in Hk. congruence. }
        exists k, x. repeat split; [lia|done|done|].
        intros k' y Hlt Hy. apply (Hmin (S k')); [lia|done].
Qed.

Lemma first_index_None p j0 l :
  first_index p j0 l = None ↔ Forall (λ x, p x = false) l.
Proof.
  revert j0. induction l as [|a l IH]; intros j0; simpl.
  - split; [constructor|done].
  - destruct (p a) eqn:Ea.
    + split; [done|]. intros H. inversion H; congruence.
    + rewrite IH. split; [by constructor|]. intros H. by inversion H.
Qed.

Lemma forallb_Forall_Q (p : Q → bool) l : forallb p l = true ↔ Forall (λ x, p x = true) l.
Proof.
  induction l as [|a l IH]; simpl.
  - split; [constructor|done].
  - rewrite andb_true_iff, IH. split.
    + intros [? ?]. by constructor.
    + intros H. by inversion H.
Qed.

Lemma entering_None self :
  get_entering_variable self = None ↔ Forall (λ x, - eps <= x) (obj_row self).
Proof.
  unfold get_entering_variable. cbv zeta.
  destruct (forallb _ (obj_row self)) eqn:E.
  - split; [intros _|done].
    apply forallb_Forall_Q in E. eapply Forall_impl; [exact E|].
    intros x Hx. by apply Qleb_le.
  - rewrite first_index_None. split; intros H.
    + eapply Forall_impl; [exact H|]. intros x Hx. simpl in Hx.
      rewrite entering_test in Hx. by apply Qltb_nlt.
    + assert (forallb (λ x, Qleb (- eps) x) (obj_row self) = true); [|congruence].
      apply forallb_Forall_Q. eapply Forall_impl; [exact H|].
      intros x Hx. by apply Qleb_le.
Qed.

Lemma entering_Some self j :
  get_entering_variable self = Some j ↔
  (∃ x, obj_row self !! j = Some x ∧ x < - eps) ∧
  (∀ k y, (k < j)%nat → obj_row self !! k = Some y → - eps <= y).
Proof.
  unfold get_entering_variable. cbv zeta.
  destruct (forallb _ (obj_row self)) eqn:E.
  - split; [done|]. intros [(x & Hx & Hlt) _].
    apply forallb_Forall_Q in E. rewrite Forall_lookup in E.
    specialize (E _ _ Hx). apply Qleb_le in E. lra.
  - rewrite first_index_Some. split.
    + intros (k & x & -> & Hk & Hx & Hmin). simpl. rewrite entering_test in Hx.
      split; [exists x; split; [done|by apply Qltb_lt]|].
      intros k' y Hlt Hy. specialize (Hmin k' y Hlt Hy). simpl in Hmin.
      rewrite entering_test in Hmin. by apply Qltb_nlt.
    + intros [(x & Hx & Hlt) Hmin]. exists j, x. repeat split; [done| |].
      * rewrite entering_test. by apply Qltb_lt.
      * intros k' y Hlt' Hy. rewrite entering_test. apply Qltb_nlt. eauto.
Qed.

(** ** The loop of [solve] *)

Lemma optimal_not_unbounded : "optimal" ≠ "unbounded".
Proof. discriminate. Qed.

Lemma iterate_once_Returned self it r self' :
  iterate_once self it = Returned r self' →
  (get_entering_variable self = None ∧
   r = mkResult "optimal" (Some (fst (extract_solution self)))
                (Some (snd (extract_solution self))) it ∧
   self' = mkSolver (tableau self) (num_variables self) (num_constraints self)
                    (basis self) (Some (snd (extract_solution self)))
                    (Some (fst (extract_solution self))))
  ∨ (∃ j, get_entering_variable self = Some j ∧
          get_leaving_variable self j = Ok None ∧
          r = mkResult "unbounded" None None it ∧ self' = self).
Proof.
  unfold iterate_once. destruct (get_entering_variable self) as [j|] eqn:Ee.
  - destruct (get_leaving_variable self j) as [[l|]|e] eqn:El; try done.
    intros [= <- <-]. right. exists j. repeat split; done.
  - destruct (extract_solution self) as [sol obj]. intros [= <- <-]. left.
    repeat split; done.
Qed.

(** The state in which a run that returned ["optimal"] stopped has no
    entering variable. *)
Lemma loop_optimal_entering n maxit it self r self' :
  simplex_loop n maxit it self = (Ok r, self') →
  status r = "optimal" →
  get_entering_variable self' = None.
Proof.
  revert it self. induction n as [|n IH]; intros it self; simpl.
  - intros [= <- <-]. simpl. discriminate.
  - destruct (iterate_once self it) as [s1|r1 s1|e s1] eqn:E; [by apply IH| |done].
    intros [= <- <-] Hst. apply iterate_once_Returned in E as [(He & -> & ->)|(j & _ & _ & -> & _)].
    + exact He.
    + done.
Qed.


Lemma loop_exhausted n maxit it self s' :
  run_pivots n it self = Some s' →
  simplex_loop n maxit it self = (Ok (mkResult "iteration_limit" None None maxit), s').
Proof.
  revert it self. induction n as [|n IH]; intros it self; simpl.
  - by intros [= ->].
  - destruct (iterate_once self it); [apply IH|done|done].
Qed.

Lemma loop_result n maxit it self r s' :
  simplex_loop n maxit it self = (Ok r, s') →
  ∃ k s, (k ≤ n)%nat ∧ run_pivots k it self = Some s ∧
    ((k = n ∧ r = mkResult "iteration_limit" None None maxit ∧ s' = s)
     ∨ ((k < n)%nat ∧ iterate_once s (it + Z.of_nat k) = Returned r s' ∧
        iterations r = (it + Z.of_nat k)%Z ∧
        (status r = "optimal" ∨ status r = "unbounded"))).
Proof.
  revert it self. induction n as [|n IH]; intros it self; simpl.
  - intros [= <- <-]. exists 0%nat, self. split; [lia|]. split; [done|]. by left.
  - destruct (iterate_once self it) as [s1|r1 s1|e s1] eqn:E; [| |done].
    + intros H. apply IH in H as (k & s & Hk & Hrun & Hcase).
      exists (S k), s. split; [lia|]. split; [simpl; by rewrite E|].
      destruct Hcase as [(-> & -> & ->)|(Hlt & Hit & Hn & Hst)]; [by left|right].
      replace (it + Z.of_nat (S k))%Z with (it + 1 + Z.of_nat k)%Z by lia.
      repeat split; [lia|done|done|done].
    + intros [= <- <-]. exists 0%nat, self. split; [lia|]. split; [done|]. right.
      rewrite Z.add_0_r. split; [lia|]. split; [done|].
      apply iterate_once_Returned in E as [(_ & -> & _)|(j & _ & _ & -> & _)];
        simpl; split; auto.
Qed.

(** C7. If all [max_iterations] passes of the loop pivot, [solve] returns
    status ["iteration_limit"] with [iterations = max_iterations] and neither
    a solution nor an objective value; with [max_iterations = 0] that is the
    result for every problem; and every result carries the iteration count:
    the number of pivots completed before an ["optimal"] or ["unbounded"]
    return, [max_iterations] at the limit. *)
Theorem iteration_limit_reported self c A b :
  wf_problem c A b →
  (∀ max_iterations s',
     run_pivots (Z.to_nat max_iterations) 0 (setup self c A b) = Some s' →
     solve self c A b max_iterations =
       (Ok (mkResult "iteration_limit" None None max_iterations), s'))
  ∧ solve self c A b 0 =
      (Ok (mkResult "iteration_limit" None None 0), setup self c A b)
  ∧ (∀ max_iterations r s',
       solve self c A b max_iterations = (Ok r, s') →
       ∃ k s, (k ≤ Z.to_nat max_iterations)%nat ∧
              run_pivots k 0 (setup self c A b) = Some s ∧
         ((status r = "iteration_limit" ∧ k = Z.to_nat max_iterations ∧
           iterations r = max_iterations ∧
           res_solution r = None ∧ res_objective_value r = None ∧ s' = s)
          ∨ ((status r = "optimal" ∨ status r = "unbounded") ∧
             iterations r = Z.of_nat k ∧
             iterate_once s (Z.of_nat k) = Returned r s'))).
Proof.
  intros _. split; [|split].
  - intros maxit s' H. by apply loop_exhausted.
  - reflexivity.
  - intros maxit r s' H. apply loop_result in H as (k & s & Hk & Hrun & Hcase).
    exists k, s. split; [done|]. split; [done|].
    destruct Hcase as [(-> & -> & ->)|(Hlt & Hit & Hn & Hst)].
    + left. repeat split; reflexivity.
    + right. rewrite Z.add_0_l in Hit, Hn. done.
Qed.

Lemma iteration_limit_reported_witness :
  solve init_solver [1] (Matrix 1 1 [[1]]) [5] 1 =
    (Ok (mkResult "iteration_limit" None None 1),
     pivot (setup init_solver [1] (Matrix 1 1 [[1]]) [5]) 0 0)
  ∧ solve init_solver [1] (Matrix 1 1 [[1]]) [5] 0 =
      (Ok (mkResult "iteration_limit" None None 0),
       setup init_solver [1] (Matrix 1 1 [[1]]) [5]).
Proof.
  assert (Hwf : wf_problem [1] (Matrix 1 1 [[1]]) [5]).
  { repeat split. by repeat constructor. }
  destruct (iteration_limit_reported init_solver [1] (Matrix 1 1 [[1]]) [5] Hwf)
    as (Hlimit & Hzero & _).
  split; [|exact Hzero]. apply Hlimit. vm_compute. reflexivity.
Defined.

(** ** Determinism *)

Lemma iterate_once_core s1 s2 it :
  same_core s1 s2 →
  match iterate_once s1 it, iterate_once s2 it with
  | Pivoted s1', Pivoted s2' => same_core s1' s2'
  | Returned r1 _, Returned r2 _ => r1 = r2
  | Raised e1 _, Raised e2 _ => e1 = e2
  | _, _ => False
  end.
Proof.
  destruct s1 as [T1 nv1 nc1 B1 o1 x1], s2 as [T2 nv2 nc2 B2 o2 x2].
  intros (HT & Hnv & Hnc & HB). simpl in *. subst.
  unfold iterate_once, get_entering_variable, get_leaving_variable, extract_solution,
    obj_row, column_of, rhs_column. simpl.
  destruct (if forallb _ _ then None else _); [|done].
  destruct (if forallb _ _ then Ok None else _) as [[l|]|e]; try done.
Qed.

Lemma loop_core n maxit it s1 s2 :
  same_core s1 s2 →
  fst (simplex_loop n maxit it s1) = fst (simplex_loop n maxit it s2).
Proof.
  revert it s1 s2. induction n as [|n IH]; intros it s1 s2 Hc; simpl; [done|].
  pose proof (iterate_once_core s1 s2 it Hc) as H.
  destruct (iterate_once s1 it), (iterate_once s2 it); try done; simpl.
  - by apply IH.
  - by subst.
  - by subst.
Qed.

Lemma setup_core s1 s2 c A b : same_core (setup s1 c A b) (setup s2 c A b).
Proof. done. Qed.

(** C9. [solve] is deterministic: the result depends on [(c, A, b,
    max_iterations)] only, not on the solver object it is called on; in
    particular a second call on the same object, after the first has
    overwritten its fields, returns the same status, iteration count,
    solution and objective value. *)
Theorem solve_deterministic :
  (∀ self1 self2 c A b max_iterations,
     fst (solve self1 c A b max_iterations) = fst (solve self2 c A b max_iterations))
  ∧ (∀ self c A b max_iterations,
       fst (solve (snd (solve self c A b max_iterations)) c A b max_iterations)
       = fst (solve self c A b max_iterations)).
Proof.
  assert (H : ∀ self1 self2 c A b max_iterations,
     fst (solve self1 c A b max_iterations) = fst (solve self2 c A b max_iterations)).
  { intros. unfold solve. apply loop_core, setup_core. }
  split; [exact H|]. intros. apply H.
Qed.

(** ** Scenario 2 *)

(** C1. For [maximize x] subject to [x <= 5], [solve] returns status
    ["optimal"], the solution [x = 5] and the iteration count 1, but the
    objective value [-5], not 5: [extract_solution] negates the entry
    [T[0, -1]], which after the pivot holds the objective value itself. *)
Theorem scenario_single_variable :
  fst scenario2
  = Ok (mkResult "optimal" (Some [5]) (Some (- (5))) 1)
  ∧ ¬ (- (5) == 5).
Proof.
  split; [vm_compute; reflexivity|]. intros H. discriminate H.
Qed.

(** ** Solution extraction *)

Lemma extract_loop_length T ns i bs sol :
  length (extract_loop T ns i bs sol) = length sol.
Proof.
  revert i sol. induction bs as [|v bs IH]; intros i sol; simpl; [done|].
  rewrite IH. destruct (v <? ns)%nat; [apply length_insert|done].
Qed.

(** Every position of the vector built by the loop of [extract_solution]
    holds the right-hand side of a row whose basic variable it is, or was
    never written. *)
Lemma extract_loop_spec T ns i0 bs sol v :
  (v < length sol)%nat →
  (∃ k, bs !! k = Some v ∧ (v < ns)%nat ∧
        extract_loop T ns i0 bs sol !!! v = rhs T (i0 + k + 1))
  ∨ ((∀ k, bs !! k = Some v → ¬ (v < ns)%nat) ∧
     extract_loop T ns i0 bs sol !!! v = sol !!! v).
Proof.
  revert i0 sol. induction bs as [|w bs IH]; intros i0 sol Hv; simpl.
  - right. split; [|done]. intros k Hk. by rewrite lookup_nil in Hk.
  - set (sol' := if (w <? ns)%nat then <[w := rhs T (i0 + 1)]> sol else sol).
    assert (Hlen : length sol' = length sol).
    { unfold sol'. destruct (w <? ns)%nat; [apply length_insert|done]. }
    destruct (IH (S i0) sol') as [(k & Hk & Hns & Hval)|[Hnone Hval]]; [lia| |].
    + left. exists (S k). split; [done|]. split; [done|].
      rewrite Hval. f_equal. lia.
    + destruct (decide (w = v ∧ (v < ns)%nat)) as [[-> Hns]|Hne].
      * left. exists 0%nat. split; [done|]. split; [done|].
        rewrite Hval. unfold sol'. apply Nat.ltb_lt in Hns as ->.
        rewrite list_lookup_total_insert_eq by done. f_equal. lia.
      * right. split.
        { intros [|k] Hk; simpl in Hk; [|by apply (Hnone k)].
          injection Hk as ->. tauto. }
        rewrite Hval. unfold sol'. destruct (w <? ns)%nat eqn:E; [|done].
        apply Nat.ltb_lt in E. apply list_lookup_total_insert_ne.
        intros ->. tauto.
Qed.

Lemma zeros_lookup n v : zeros n !!! v = 0.
Proof.
  unfold zeros. destruct (decide (v < n)%nat).
  - by apply lookup_total_replicate_2.
  - rewrite list_lookup_total_alt.
    rewrite (proj1 (lookup_replicate_None n 0 v)) by lia. done.
Qed.

Lemma extract_solution_length self :
  (num_structural self ≤ num_variables self)%nat →
  length (fst (extract_solution self)) = num_structural self.
Proof.
  intros H. unfold extract_solution, num_structural in *. simpl.
  rewrite length_take, extract_loop_length. unfold zeros.
  rewrite length_replicate. lia.
Qed.

Lemma extract_solution_value self v :
  (v < num_structural self)%nat →
  (num_structural self ≤ num_variables self)%nat →
  (∃ i, basis self !! i = Some v ∧
        fst (extract_solution self) !!! v = rhs (tableau self) (i + 1))
  ∨ ((∀ i, basis self !! i ≠ Some v) ∧ fst (extract_solution self) !!! v = 0).
Proof.
  intros Hv Hn. unfold extract_solution, num_structural in *. simpl.
  rewrite lookup_total_take_lt by done.
  destruct (extract_loop_spec (tableau self)
              (num_variables self - num_constraints self) 0 (basis self)
              (zeros (num_variables self)) v) as [(k & Hk & _ & Hval)|[Hnone Hval]].
  - unfold zeros. rewrite length_replicate. lia.
  - left. exists k. split; [done|]. by rewrite Hval.
  - right. split; [|by rewrite Hval, zeros_lookup].
    intros i Hi. by apply (Hnone i).
Qed.

(** The sizes the loop works with never change. *)
Lemma pivot_sizes self j r :
  num_variables (pivot self j r) = num_variables self ∧
  num_constraints (pivot self j r) = num_constraints self.
Proof. done. Qed.

Lemma run_pivots_sizes k it self s :
  run_pivots k it self = Some s →
  num_variables s = num_variables self ∧ num_constraints s = num_constraints self.
Proof.
  revert it self. induction k as [|k IH]; intros it self; simpl.
  - by intros [= ->].
  - unfold iterate_once at 1.
    destruct (get_entering_variable self) as [j|].
    + destruct (get_leaving_variable self j) as [[l|]|e]; try done.
      intros H. apply IH in H. by rewrite !(proj1 (pivot_sizes _ _ _)),
        !(proj2 (pivot_sizes _ _ _)) in H.
    + by destruct (extract_solution self).
Qed.

Lemma setup_sizes self c A b :
  num_variables (setup self c A b) = (ncols A + nrows A)%nat ∧
  num_constraints (setup self c A b) = nrows A.
Proof. done. Qed.

(** C5. When [solve] ends with status ["optimal"], the solution it returns
    is a vector over exactly the [n] structural variables ([n] the number of
    columns of [A]); variable [v] has the value [T[i+1, -1]] for a row [i]
    with [basis[i] = v] when there is one, and 0 otherwise; the objective
    value returned is [- T[0, -1]] ([T] and [basis] being those the solver
    holds at that point). *)
Theorem optimal_solution_extracted self c A b max_iterations r self' :
  wf_problem c A b →
  solve self c A b max_iterations = (Ok r, self') →
  status r = "optimal" →
  ∃ sol,
    res_solution r = Some sol ∧
    length sol = ncols A ∧
    (∀ v, (v < ncols A)%nat →
       (∃ i, basis self' !! i = Some v ∧ sol !!! v = rhs (tableau self') (i + 1))
       ∨ ((∀ i, basis self' !! i ≠ Some v) ∧ sol !!! v = 0)) ∧
    res_objective_value r = Some (- rhs (tableau self') 0).
Proof.
  intros _ Hs Hst. unfold solve in Hs.
  apply loop_result in Hs as (k & s & Hk & Hrun & Hcase).
  destruct Hcase as [(_ & -> & _)|(_ & Hit & _ & _)]; [done|].
  apply run_pivots_sizes in Hrun as [Hnv Hnc].
  rewrite (proj1 (setup_sizes _ _ _ _)) in Hnv.
  rewrite (proj2 (setup_sizes _ _ _ _)) in Hnc.
  apply iterate_once_Returned in Hit as [(_ & -> & ->)|(j & _ & _ & -> & _)]; [|done].
  assert (Hns : num_structural s = ncols A).
  { unfold num_structural. lia. }
  set (s' := mkSolver _ _ _ _ _ _).
  assert (He : extract_solution s' = extract_solution s) by done.
  exists (fst (extract_solution s)). split; [reflexivity|].
  split; [|split; [|reflexivity]].
  - rewrite extract_solution_length; [done|]. unfold num_structural. lia.
  - intros v Hv. apply (extract_solution_value s v).
    + by rewrite Hns.
    + unfold num_structural. lia.
Qed.

Lemma optimal_solution_extracted_witness :
  ∃ sol,
    res_solution (mkResult "optimal" (Some [5]) (Some (- (5))) 1) = Some sol ∧
    length sol = 1%nat ∧
    (∀ v, (v < 1)%nat →
       (∃ i, basis (snd scenario2) !! i = Some v ∧
             sol !!! v = rhs (tableau (snd scenario2)) (i + 1))
       ∨ ((∀ i, basis (snd scenario2) !! i ≠ Some v) ∧ sol !!! v = 0)) ∧
    res_objective_value (mkResult "optimal" (Some [5]) (Some (- (5))) 1)
    = Some (- rhs (tableau (snd scenario2)) 0).
Proof.
  apply (optimal_solution_extracted init_solver [1] (Matrix 1 1 [[1]]) [5]
           default_max_iterations).
  - repeat split. by repeat constructor.
  - vm_compute. reflexivity.
  - reflexivity.
Defined.

(** ** Leaving variable *)

Lemma ratio_ltb_lt r1 r2 : ratio_ltb r1 r2 = true ↔ ratio_lt r1 r2.
Proof.
  destruct r1 as [a|], r2 as [b|]; simpl; try done.
  apply Qltb_lt.
Qed.

Lemma ratio_lt_trans_l r1 r2 r3 : ¬ ratio_lt r2 r1 → ratio_lt r2 r3 → ratio_lt r1 r3.
Proof.
  destruct r1 as [a|], r2 as [b|], r3 as [c|]; simpl; try tauto. lra.
Qed.

Lemma ratio_lt_trans_r r1 r2 r3 : ratio_lt r1 r2 → ¬ ratio_lt r3 r2 → ratio_lt r1 r3.
Proof.
  destruct r1 as [a|], r2 as [b|], r3 as [c|]; simpl; try tauto. lra.
Qed.

Lemma ratio_lt_trans r1 r2 r3 : ratio_lt r1 r2 → ratio_lt r2 r3 → ratio_lt r1 r3.
Proof.
  destruct r1 as [a|], r2 as [b|], r3 as [c|]; simpl; try tauto. lra.
Qed.

Lemma ratio_lt_asym r1 r2 : ratio_lt r1 r2 → ¬ ratio_lt r2 r1.
Proof.
  destruct r1 as [a|], r2 as [b|]; simpl; try tauto. lra.
Qed.

Lemma ratio_nlt_trans r1 r2 r3 : ¬ ratio_lt r2 r1 → ¬ ratio_lt r3 r2 → ¬ ratio_lt r3 r1.
Proof.
  destruct r1 as [a|], r2 as [b|], r3 as [c|]; simpl; try tauto. lra.
Qed.

(** On a list whose indices increase, [min] returns the element that is
    preferred to every other. *)
Lemma min_from_spec best l :
  StronglySorted (λ x y : ratio * nat, (snd x < snd y)%nat) (best :: l) →
  min_from best l ∈ best :: l ∧ ∀ y, y ∈ best :: l → preferred (min_from best l) y.
Proof.
  revert best. induction l as [|x l IH]; intros best Hs; simpl.
  - split; [by left|]. intros y Hy. apply list_elem_of_singleton in Hy as ->.
    right. split; [|done]. intros H. by apply (ratio_lt_asym _ _ H).
  - apply StronglySorted_cons in Hs as [Hb Hs].
    apply Forall_cons in Hb as [Hbx Hbl].
    destruct (ratio_ltb x.1 best.1) eqn:E.
    + apply ratio_ltb_lt in E.
      destruct (IH x Hs) as [Hin Hmin]. split; [by right|].
      intros y Hy. apply elem_of_cons in Hy as [->|Hy]; [|by apply Hmin].
      left. destruct (Hmin x) as [Hlt|[Hnlt _]]; [by left| |].
      * by eapply ratio_lt_trans.
      * by eapply ratio_lt_trans_l.
    + assert (En : ¬ ratio_lt x.1 best.1).
      { intros H. apply ratio_ltb_lt in H. congruence. }
      assert (Hs' : StronglySorted (λ x y : ratio * nat, (x.2 < y.2)%nat) (best :: l)).
      { apply StronglySorted_cons. split; [done|].
        by apply StronglySorted_cons in Hs as [_ ?]. }
      destruct (IH best Hs') as [Hin Hmin]. split.
      { apply elem_of_cons in Hin as [->|Hin]; [by left|by do 2 right]. }
      intros y Hy. apply elem_of_cons in Hy as [->|Hy]; [apply Hmin; by left|].
      apply elem_of_cons in Hy as [->|Hy]; [|apply Hmin; by right].
      destruct (Hmin best) as [Hlt|[Hnlt Hle]]; [by left| |].
      * left. by eapply ratio_lt_trans_r.
      * right. split; [by eapply ratio_nlt_trans|]. simpl in *. lia.
Qed.

Lemma StronglySorted_lookup {A} (R : A → A → Prop) (l : list A) :
  (∀ i j x y, (i < j)%nat → l !! i = Some x → l !! j = Some y → R x y) →
  StronglySorted R l.
Proof.
  induction l as [|a l IH]; intros H; [constructor|].
  apply StronglySorted_cons. split.
  - apply Forall_lookup. intros j y Hy. apply (H 0%nat (S j) a y); [lia|done|done].
  - apply IH. intros i j x y Hij Hx Hy. apply (H (S i) (S j)); [lia|done|done].
Qed.

Lemma StronglySorted_filter {A} (R : A → A → Prop) (P : A → Prop)
      `{∀ x, Decision (P x)} (l : list A) :
  StronglySorted R l → StronglySorted R (filter P l).
Proof.
  induction l as [|a l IH]; intros Hs; [constructor|].
  apply StronglySorted_cons in Hs as [Ha Hs].
  rewrite filter_cons. destruct (decide (P a)); [|by apply IH].
  apply StronglySorted_cons. split; [|by apply IH].
  apply Forall_forall. intros y Hy. apply list_elem_of_filter in Hy as [_ Hy].
  rewrite Forall_forall in Ha. by apply Ha.
Qed.

Lemma ratios_of_lookup column b i x :
  ratios_of column b !! i = Some x ↔
  ∃ bi, b !! i = Some bi ∧
        x = if Qltb eps (column !!! i) then (Fin (bi / (column !!! i)), i) else (Inf, i).
Proof.
  unfold ratios_of. rewrite list_lookup_imap.
  destruct (b !! i) as [bi|]; simpl.
  - split; [intros [= <-]; by exists bi|]. by intros (? & [= <-] & ->).
  - split; [done|]. by intros (? & ? & _).
Qed.

Lemma ratios_of_snd column b i x : ratios_of column b !! i = Some x → snd x = i.
Proof.
  intros H. apply ratios_of_lookup in H as (bi & _ & ->).
  by destruct (Qltb eps (column !!! i)).
Qed.

Lemma ratios_of_sorted column b :
  StronglySorted (λ x y : ratio * nat, (snd x < snd y)%nat) (ratios_of column b).
Proof.
  apply StronglySorted_lookup. intros i j x y Hij Hx Hy.
  apply ratios_of_snd in Hx, Hy. lia.
Qed.

Lemma tail_lookup_total (T : list (list Q)) i : tail T !!! i = T !!! (i + 1)%nat.
Proof.
  replace (i + 1)%nat with (S i) by lia.
  destruct T as [|r T]; simpl; [|done]. by destruct i.
Qed.

Lemma column_of_lookup self j i :
  (i < length (tail (tableau self)))%nat →
  column_of self j !!! i = entry (tableau self) (i + 1) j.
Proof.
  intros Hi. unfold column_of, entry.
  rewrite (list_lookup_total_fmap (λ row : list Q, row !!! j)) by done.
  by rewrite tail_lookup_total.
Qed.

Lemma rhs_column_lookup self i :
  (i < length (tail (tableau self)))%nat →
  rhs_column self !!! i = rhs (tableau self) (i + 1).
Proof.
  intros Hi. unfold rhs_column, rhs.
  rewrite (list_lookup_total_fmap last_of) by done.
  by rewrite tail_lookup_total.
Qed.

Lemma rhs_column_length self : length (rhs_column self) = length (tail (tableau self)).
Proof. unfold rhs_column. by rewrite length_fmap. Qed.

Lemma column_of_length self j : length (column_of self j) = length (tail (tableau self)).
Proof. unfold column_of. by rewrite length_fmap. Qed.

(** The pairs among which [get_leaving_variable] takes the minimum. *)
Lemma leaving_pairs_elem self j x :
  x ∈ filter (λ r : ratio * nat, ratio_nonneg r.1 = true)
             (ratios_of (column_of self j) (rhs_column self)) ↔
  (snd x < length (tail (tableau self)))%nat ∧
  ((candidate self j (snd x) ∧ fst x = Fin (quotient self j (snd x)) ∧
    0 <= quotient self j (snd x))
   ∨ (¬ candidate self j (snd x) ∧ fst x = Inf)).
Proof.
  rewrite list_elem_of_filter, list_elem_of_lookup.
  setoid_rewrite ratios_of_lookup. split.
  - intros (Hnn & i & bi & Hbi & ->).
    assert (Hi : (i < length (tail (tableau self)))%nat).
    { apply lookup_lt_Some in Hbi. by rewrite rhs_column_length in Hbi. }
    assert (Hb : bi = rhs (tableau self) (i + 1)).
    { rewrite <- rhs_column_lookup by done.
      by rewrite (list_lookup_total_correct _ _ _ Hbi). }
    revert Hnn. rewrite column_of_lookup by done.
    destruct (Qltb eps _) eqn:E; simpl; intros Hnn.
    + apply Qltb_lt in E. apply Qleb_le in Hnn. split; [done|]. left.
      unfold candidate, quotient. subst bi. done.
    + apply Qltb_nlt in E. split; [done|]. right. split; [|done].
      unfold candidate. intros [_ Hc]. lra.
  - destruct x as [r i]. simpl. intros [Hi Hcase].
    assert (Hbi : rhs_column self !! i = Some (rhs (tableau self) (i + 1))).
    { rewrite <- rhs_column_lookup by done. apply list_lookup_lookup_total_lt.
      by rewrite rhs_column_length. }
    destruct Hcase as [([_ Hc] & -> & Hq)|[Hnc ->]].
    + split; [by apply Qleb_le|]. exists i, (rhs (tableau self) (i + 1)).
      split; [done|]. rewrite column_of_lookup by done.
      apply Qltb_lt in Hc. by rewrite Hc.
    + split; [done|]. exists i, (rhs (tableau self) (i + 1)).
      split; [done|]. rewrite column_of_lookup by done.
      destruct (Qltb eps _) eqn:E; [|done].
      apply Qltb_lt in E. destruct Hnc. by split.
Qed.

Lemma leaving_pairs_sorted self j :
  StronglySorted (λ x y : ratio * nat, (snd x < snd y)%nat)
    (filter (λ r : ratio * nat, ratio_nonneg r.1 = true)
            (ratios_of (column_of self j) (rhs_column self))).
Proof. apply StronglySorted_filter, ratios_of_sorted. Qed.

Lemma leaving_test self j :
  forallb (λ x, Qleb x eps) (column_of self j) = true ↔ ∀ i, ¬ candidate self j i.
Proof.
  rewrite forallb_Forall_Q, Forall_lookup. split.
  - intros H i [Hi Hc]. specialize (H i (column_of self j !!! i)).
    rewrite column_of_lookup in H by done. apply Qleb_le in H; [lra|].
    rewrite <- column_of_lookup by done. apply list_lookup_lookup_total_lt.
    by rewrite column_of_length.
  - intros H i x Hx. apply Qleb_le.
    assert (Hi : (i < length (tail (tableau self)))%nat).
    { apply lookup_lt_Some in Hx. by rewrite column_of_length in Hx. }
    apply list_lookup_total_correct in Hx. rewrite column_of_lookup in Hx by done.
    subst x. apply Qnot_lt_le. intros Hc. apply (H i). by split.
Qed.

Lemma not_all_not_ex_candidate self j :
  ¬ (∀ i, ¬ candidate self j i) → ∃ i, candidate self j i.
Proof.
  intros H.
  destruct (decide (Exists (λ i, Qltb eps (entry (tableau self) (i + 1) j) = true)
                           (seq 0 (length (tail (tableau self)))))) as [He|Hn].
  - apply Exists_exists in He as (i & Hi & Hc). exists i. split.
    + apply elem_of_seq in Hi. lia.
    + by apply Qltb_lt.
  - destruct H. intros i [Hi Hc]. apply Hn, Exists_exists. exists i. split.
    + apply elem_of_seq. lia.
    + by apply Qltb_lt.
Qed.

(** What [get_leaving_variable] returns: [None] when no row is a candidate;
    otherwise the index of the pair preferred to all the pairs that pass the
    filter [r[0] >= 0], and [ValueError] when none passes. *)
Lemma leaving_cases self j :
  ((∀ i, ¬ candidate self j i) ∧ get_leaving_variable self j = Ok None)
  ∨ ((∃ i, candidate self j i) ∧
     ((∃ x, get_leaving_variable self j = Ok (Some (snd x)) ∧
            x ∈ filter (λ r : ratio * nat, ratio_nonneg r.1 = true)
                       (ratios_of (column_of self j) (rhs_column self)) ∧
            ∀ y, y ∈ filter (λ r : ratio * nat, ratio_nonneg r.1 = true)
                            (ratios_of (column_of self j) (rhs_column self)) →
                 preferred x y)
      ∨ (filter (λ r : ratio * nat, ratio_nonneg r.1 = true)
                (ratios_of (column_of self j) (rhs_column self)) = [] ∧
         ∃ e, get_leaving_variable self j = Raise e))).
Proof.
  unfold get_leaving_variable. cbv zeta.
  destruct (forallb _ (column_of self j)) eqn:E.
  - left. split; [|done]. by apply leaving_test.
  - right. split.
    + apply not_all_not_ex_candidate. intros H. apply leaving_test in H. congruence.
    + pose proof (leaving_pairs_sorted self j) as Hs.
      destruct (filter _ _) as [|x l]; simpl.
      * right. split; [done|]. by eexists.
      * left. pose proof (min_from_spec x l Hs) as [Hin Hmin].
        exists (min_from x l). destruct (min_from x l) as [mr li]. done.
Qed.

Lemma leaving_None self j :
  get_leaving_variable self j = Ok None ↔ ∀ i, ¬ candidate self j i.
Proof.
  destruct (leaving_cases self j) as [[Hn He]|[[i Hi] Hc]].
  - by rewrite He.
  - split.
    + intros He. destruct Hc as [(x & Hx & _)|(_ & e & Hx)]; congruence.
    + intros Hn. by destruct (Hn i).
Qed.

(** With a candidate whose quotient is nonnegative in the tableau, the
    row returned is the candidate preferred among those. *)
Lemma leaving_min self j i0 :
  candidate self j i0 → 0 <= quotient self j i0 →
  ∃ r, get_leaving_variable self j = Ok (Some r) ∧
       candidate self j r ∧ 0 <= quotient self j r ∧
       ∀ k, candidate self j k → 0 <= quotient self j k →
            quotient self j r <= quotient self j k ∧
            (quotient self j k == quotient self j r → (r ≤ k)%nat).
Proof.
  intros Hc0 Hq0.
  assert (Hin : ∀ k, candidate self j k → 0 <= quotient self j k →
                     (Fin (quotient self j k), k) ∈
                     filter (λ r : ratio * nat, ratio_nonneg r.1 = true)
                            (ratios_of (column_of self j) (rhs_column self))).
  { intros k Hk Hq. apply leaving_pairs_elem. simpl. split; [apply Hk|]. by left. }
  destruct (leaving_cases self j) as [[Hn _]|[_ [(x & Hx & Hxin & Hmin)|(Hnil & _)]]].
  - by destruct (Hn i0).
  - exists (snd x). split; [done|].
    apply leaving_pairs_elem in Hxin as [Hlen Hx'].
    pose proof (Hmin _ (Hin i0 Hc0 Hq0)) as Hp0.
    destruct Hx' as [(Hc & Hfst & Hq)|[_ Hfst]].
    + split; [done|]. split; [done|]. intros k Hk Hqk.
      destruct (Hmin _ (Hin k Hk Hqk)) as [Hlt|[Hnlt Hle]];
        rewrite Hfst in *; simpl in *.
      * split; [lra|]. intros Heq. lra.
      * split; [lra|]. done.
    + destruct Hp0 as [Hlt|[Hnlt _]]; rewrite Hfst in *; simpl in *; tauto.
  - specialize (Hin i0 Hc0 Hq0). rewrite Hnil in Hin. by apply elem_of_nil in Hin.
Qed.

Lemma quotient_nonneg self j i :
  rhs_nonneg self → candidate self j i → 0 <= quotient self j i.
Proof.
  intros Hb [Hi Hc]. unfold quotient. apply Qle_shift_div_l.
  - pose proof eps_pos. lra.
  - assert (0 <= rhs (tableau self) (i + 1)) by (apply Hb; lia). lra.
Qed.


(** C2 as stated fails: with [x <= -1] and [x <= 2] both rows are
    candidates for column 0 with quotients [-1] and [2]; the filter
    [r[0] >= 0] drops the first and row 1 is returned, not the row with the
    least quotient. *)
Lemma leaving_variable_ignores_negative_quotient :
  ¬ min_ratio_over_candidates negative_rhs_start 0.
Proof.
  intros [_ H].
  assert (Hc0 : candidate negative_rhs_start 0 0) by (split; [simpl; lia|reflexivity]).
  destruct H as (r & Hr & _ & Hmin); [by exists 0%nat|].
  vm_compute in Hr. injection Hr as <-.
  destruct (Hmin 0%nat Hc0) as [Hle _]. vm_compute in Hle. by apply Hle.
Qed.

Lemma leaving_Some_candidate self j r :
  rhs_nonneg self →
  get_leaving_variable self j = Ok (Some r) →
  candidate self j r.
Proof.
  intros Hb Hr.
  assert (He : ∃ i, candidate self j i).
  { apply not_all_not_ex_candidate. intros Hn. apply leaving_None in Hn. congruence. }
  destruct He as [i0 Hc0].
  destruct (leaving_min self j i0 Hc0 (quotient_nonneg _ _ _ Hb Hc0))
    as (r' & Hr' & Hc & _).
  by assert (r' = r) as <- by congruence.
Qed.


(** With negative right-hand sides the filter [r[0] >= 0] can drop every
    candidate.  [min] then returns the first row that is not a candidate,
    whose placeholder ratio [inf] passed the filter, or raises when every row
    is a candidate. *)
Lemma leaving_variable_returns_non_candidate :
  get_leaving_variable infeasible_start 0 = Ok (Some 1%nat) ∧
  ¬ candidate infeasible_start 0 1 ∧
  pivot_element infeasible_start 0 1 == - (1).
Proof.
  split; [vm_compute; reflexivity|]. split; [|reflexivity].
  intros [_ Hc]. vm_compute in Hc. discriminate Hc.
Qed.

Lemma leaving_variable_raises :
  get_leaving_variable all_negative_start 0
  = Raise (ValueError "min() arg is an empty sequence").
Proof. vm_compute. reflexivity. Qed.


(** ** Standard form of a model *)

Lemma fill_terms_ok f ts a :
  Forall (λ t : LPVariable * Q, (index (fst t) < length a)%nat) ts →
  ∃ a', fill_terms f ts a = Ok a' ∧ length a' = length a.
Proof.
  revert a. induction ts as [|[var coef] ts IH]; intros a Hts; simpl.
  - by exists a.
  - apply Forall_cons in Hts as [Hv Hts]. simpl in Hv.
    unfold setitem. apply Nat.ltb_lt in Hv as Hv'. rewrite Hv'.
    destruct (IH (<[index var := f coef]> a)) as (a' & Ha & Hlen).
    + by rewrite length_insert.
    + exists a'. split; [done|]. by rewrite Hlen, length_insert.
Qed.

(** One constraint: the sense decides between the row as filled, the
    negated row, and the error. *)
Lemma constraint_row_cases n cst :
  expr_in_model n (lhs cst) →
  ∃ row, coefficient_row n cst = Ok row ∧
    ((sense cst = "<=" ∨ sense cst = "=") ∧
       constraint_row n cst = Ok (row, effective_rhs cst)
     ∨ sense cst = ">=" ∧
       constraint_row n cst = Ok (Qopp <$> row, - effective_rhs cst)
     ∨ ¬ recognized (sense cst) ∧
       constraint_row n cst = Raise (invalid_sense_error (sense cst))).
Proof.
  intros Hin. unfold coefficient_row, constraint_row.
  destruct (fill_terms_ok (λ coef, coef) (terms (lhs cst)) (zeros n)) as (row & Hrow & _).
  { unfold zeros. by rewrite length_replicate. }
  exists row. split; [done|]. rewrite Hrow.
  destruct (String.eqb (sense cst) "<=") eqn:E1.
  { apply String.eqb_eq in E1. left. by split; [left|]. }
  destruct (String.eqb (sense cst) ">=") eqn:E2.
  { apply String.eqb_eq in E2. right. left. by split. }
  destruct (String.eqb (sense cst) "=") eqn:E3.
  { apply String.eqb_eq in E3. left. by split; [right|]. }
  apply String.eqb_neq in E1, E2, E3. right. right. split; [|done].
  unfold recognized. tauto.
Qed.

Lemma constraint_row_without_index_check n cst row :
  coefficient_row n cst = Ok row →
  (sense cst = "<=" ∨ sense cst = "=" →
     constraint_row n cst = Ok (row, effective_rhs cst))
  ∧ (sense cst = ">=" →
     constraint_row n cst = Ok (Qopp <$> row, - effective_rhs cst)).
Proof.
  unfold coefficient_row, constraint_row. intros ->.
  split; [intros [->| ->]|intros ->]; done.
Qed.

Lemma constraints_loop_cases n cs :
  Forall (λ cst, expr_in_model n (lhs cst)) cs →
  (Forall (λ cst, recognized (sense cst)) cs ∧ ∃ A b, constraints_loop n cs = Ok (A, b))
  ∨ (∃ cst, cst ∈ cs ∧ ¬ recognized (sense cst) ∧
            constraints_loop n cs = Raise (invalid_sense_error (sense cst))).
Proof.
  induction cs as [|cst cs IH]; intros Hin; simpl.
  - left. split; [constructor|]. by exists [], [].
  - apply Forall_cons in Hin as [Hc Hin].
    destruct (constraint_row_cases n cst Hc)
      as (row & _ & [[Hs ->]|[[Hs ->]|[Hs ->]]]).
    + destruct (IH Hin) as [(Hall & A & b & ->)|(c' & Hc' & Hn & ->)].
      * left. split; [|by eexists _, _].
        constructor; [|done]. unfold recognized. tauto.
      * right. exists c'. split; [by right|]. done.
    + destruct (IH Hin) as [(Hall & A & b & ->)|(c' & Hc' & Hn & ->)].
      * left. split; [|by eexists _, _].
        constructor; [|done]. unfold recognized. tauto.
      * right. exists c'. split; [by right|]. done.
    + right. exists cst. split; [by left|]. done.
Qed.

Lemma constraints_loop_rows n cs A b :
  constraints_loop n cs = Ok (A, b) →
  ∀ i cst, cs !! i = Some cst →
    ∃ row bi, constraint_row n cst = Ok (row, bi) ∧
              A !! i = Some row ∧ b !! i = Some bi.
Proof.
  revert A b. induction cs as [|c0 cs IH]; intros A b; simpl.
  - intros _ i cst Hi. by rewrite lookup_nil in Hi.
  - destruct (constraint_row n c0) as [[row bi]|e] eqn:E0; [|done].
    destruct (constraints_loop n cs) as [[A' b']|e]; [|done].
    intros [= <- <-] [|i] cst Hi; simpl in Hi.
    + injection Hi as <-. by exists row, bi.
    + by apply (IH A' b').
Qed.

Lemma constraint_row_Ok n cst row bi :
  constraint_row n cst = Ok (row, bi) →
  ∃ row0, coefficient_row n cst = Ok row0 ∧
    ((sense cst = "<=" ∨ sense cst = "=") ∧ row = row0 ∧ bi = effective_rhs cst
     ∨ sense cst = ">=" ∧ row = Qopp <$> row0 ∧ bi = - effective_rhs cst).
Proof.
  unfold constraint_row, coefficient_row.
  destruct (fill_terms _ _ _) as [row0|e]; [|done].
  destruct (String.eqb (sense cst) "<=") eqn:E1.
  { apply String.eqb_eq in E1. intros [= <- <-]. exists row0. split; [done|].
    left. by split; [left|]. }
  destruct (String.eqb (sense cst) ">=") eqn:E2.
  { apply String.eqb_eq in E2. intros [= <- <-]. exists row0. split; [done|].
    right. by split. }
  destruct (String.eqb (sense cst) "=") eqn:E3; [|done].
  apply String.eqb_eq in E3. intros [= <- <-]. exists row0. split; [done|].
  left. by split; [right|].
Qed.

(** C8 (amended). For a model whose expressions use the model's own variables,
    [to_standard_form] raises the invalid-sense error if and only if some
    constraint has a sense other than ['<='], ['>='], ['=']; when it
    returns, the row of a ['>='] constraint is the negated coefficient row
    with the negated effective right-hand side, and the row of an ['=']
    constraint is the coefficient row and the effective right-hand side
    unchanged, exactly as for ['<=']. *)
Theorem standard_form_senses (self : LPModel) :
  vars_in_model self →
  ((∃ s, to_standard_form self = Raise (invalid_sense_error s))
   ↔ Exists (λ cst, ¬ recognized (sense cst)) (constraints self))
  ∧ (∀ c A b, to_standard_form self = Ok (c, A, b) →
       ∀ i cst, constraints self !! i = Some cst →
         ∃ row, coefficient_row (length (variables self)) cst = Ok row ∧
           (sense cst = ">=" →
              mdata A !! i = Some (Qopp <$> row) ∧ b !! i = Some (- effective_rhs cst))
           ∧ (sense cst = "=" ∨ sense cst = "<=" →
              mdata A !! i = Some row ∧ b !! i = Some (effective_rhs cst))).
Proof.
  intros [Hobj Hcs]. unfold to_standard_form.
  set (n := length (variables self)) in *.
  assert (Hc : ∃ c, match objective self with
                    | Some obj =>
                        fill_terms (λ coef, if String.eqb (msense self) "maximize"
                                            then coef else - coef) (terms obj) (zeros n)
                    | None => Ok (zeros n)
                    end = Ok c).
  { destruct (objective self) as [obj|]; [|by eexists].
    destruct (fill_terms_ok (λ coef, if String.eqb (msense self) "maximize"
                                     then coef else - coef) (terms obj) (zeros n))
      as (c & Hc & _); [|by exists c].
    unfold zeros. rewrite length_replicate. by apply Hobj. }
  destruct Hc as [c ->]. split.
  - destruct (constraints_loop_cases n (constraints self) Hcs)
      as [(Hall & A & b & ->)|(cst & Hin & Hn & ->)].
    + split; [by intros [s ?]|]. intros He. apply Exists_exists in He as (cst & Hin & Hn).
      rewrite Forall_forall in Hall. by destruct Hn; apply Hall.
    + split; [intros _|intros _; by exists (sense cst)].
      apply Exists_exists. by exists cst.
  - intros c' A b. destruct (constraints_loop n (constraints self)) as [[A' b']|e] eqn:E;
      [|done].
    intros [= <- <- <-] i cst Hi. simpl.
    destruct (constraints_loop_rows n _ _ _ E i cst Hi) as (row & bi & Hrow & HA & Hb).
    apply constraint_row_Ok in Hrow as (row0 & Hrow0 & Hcase).
    exists row0. split; [done|].
    destruct Hcase as [([Hs|Hs] & -> & ->)|(Hs & -> & ->)]; rewrite Hs;
      (split; [intros Hs'|intros [Hs'|Hs']]); try discriminate Hs'; done.
Qed.

Lemma example_model_in_model : vars_in_model example_model.
Proof.
  split.
  - intros obj [= <-]. repeat constructor.
  - repeat constructor.
Qed.

Lemma standard_form_senses_witness :
  ∃ row, coefficient_row 2 (mkConstraint (mkExpr [(var_x, 1)] 0) ">=" 1) = Ok row ∧
         mdata (Matrix 3 2 [[2; 3]; [- (1); - 0]; [1; 1]]) !! 1%nat = Some (Qopp <$> row) ∧
         [6 - 0; - (1 - 0); 3 - 0] !! 1%nat = Some (- (1 - 0)).
Proof.
  destruct (proj2 (standard_form_senses example_model example_model_in_model)
              [3; 4] (Matrix 3 2 [[2; 3]; [- (1); - 0]; [1; 1]])
              [6 - 0; - (1 - 0); 3 - 0] eq_refl 1%nat
              (mkConstraint (mkExpr [(var_x, 1)] 0) ">=" 1) eq_refl)
    as (row & Hrow & Hge & _).
  exists row. split; [exact Hrow|]. apply Hge. reflexivity.
Defined.

(** C8 as stated fails: the constraint of [stray_variable_model] has the
    sense ['<'], which is none of the three, and mentions a variable of
    index 0 in a model without variables; the assignment
    [A[i, var.index] = coef] raises [IndexError] before the sense is looked
    at, so the error raised is not the invalid-sense error. *)
Lemma standard_form_index_error_first :
  Exists (λ cst, ¬ recognized (sense cst)) (constraints stray_variable_model) ∧
  to_standard_form stray_variable_model = Raise (IndexError "index out of bounds") ∧
  ¬ ∃ s, to_standard_form stray_variable_model = Raise (invalid_sense_error s).
Proof.
  split; [|split].
  - apply Exists_cons_hd. simpl. intros [H|[H|H]]; discriminate H.
  - reflexivity.
  - intros [s H]. discriminate H.
Qed.

(** ** The pivot *)

Lemma row_sub_lookup r f p k :
  (k < length r)%nat → (k < length p)%nat →
  row_sub r f p !!! k = r !!! k - f * p !!! k.
Proof.
  intros Hr Hp. unfold row_sub.
  apply list_lookup_total_correct. rewrite lookup_zip_with.
  rewrite (list_lookup_lookup_total_lt r k Hr), (list_lookup_lookup_total_lt p k Hp).
  done.
Qed.

Lemma row_sub_length r f p : length (row_sub r f p) = min (length r) (length p).
Proof. unfold row_sub. apply length_zip_with. Qed.

(** The loop of [pivot] over the rows, started at row [a] with the rows
    before [a] already rewritten. *)
Lemma pivot_fold j pr (T0 : list (list Q)) n :
  ∀ a T,
    (a + n)%nat = length T0 → length T = length T0 →
    (∀ i, (i < a)%nat →
       T !!! i = if decide (i = pr) then T0 !!! i
                 else row_sub (T0 !!! i) (entry T0 i j) (T0 !!! pr)) →
    (∀ i, (a ≤ i)%nat → T !!! i = T0 !!! i) →
    T !!! pr = T0 !!! pr →
    let R := foldl (λ T i,
                      if (i =? pr)%nat then T
                      else <[i := row_sub (T !!! i) (entry T i j) (T !!! pr)]> T)
                   T (seq a n) in
    length R = length T0 ∧
    ∀ i, (i < length T0)%nat →
      R !!! i = if decide (i = pr) then T0 !!! i
                else row_sub (T0 !!! i) (entry T0 i j) (T0 !!! pr).
Proof.
  induction n as [|n IH]; intros a T Han Hlen Hlo Hhi Hpr; simpl.
  - split; [done|]. intros i Hi. apply Hlo. lia.
  - apply IH.
    + lia.
    + destruct (a =? pr)%nat; [done|by rewrite length_insert].
    + intros i Hi. destruct (decide (i = a)) as [->|Hne].
      * destruct (a =? pr)%nat eqn:E.
        { apply Nat.eqb_eq in E as ->. rewrite decide_True by done. apply Hhi. lia. }
        apply Nat.eqb_neq in E. rewrite decide_False by done.
        rewrite list_lookup_total_insert_eq by lia.
        unfold entry. by rewrite Hpr, (Hhi a) by lia.
      * destruct (a =? pr)%nat; [apply Hlo; lia|].
        rewrite list_lookup_total_insert_ne by done. apply Hlo. lia.
    + intros i Hi. destruct (a =? pr)%nat; [apply Hhi; lia|].
      rewrite list_lookup_total_insert_ne by lia. apply Hhi. lia.
    + destruct (a =? pr)%nat eqn:E; [done|]. apply Nat.eqb_neq in E.
      by rewrite list_lookup_total_insert_ne.
Qed.

Lemma pivot_rows_spec j pr (T1 : list (list Q)) :
  length (pivot_rows j pr T1) = length T1 ∧
  ∀ i, (i < length T1)%nat →
    pivot_rows j pr T1 !!! i =
      if decide (i = pr) then T1 !!! i
      else row_sub (T1 !!! i) (entry T1 i j) (T1 !!! pr).
Proof.
  unfold pivot_rows. apply (pivot_fold j pr T1 (length T1) 0%nat T1); try done.
  intros i Hi. lia.
Qed.

Lemma rectangular_lookup T w i : rectangular T w → (i < length T)%nat → length (T !!! i) = w.
Proof.
  intros Hr Hi. unfold rectangular in Hr. rewrite Forall_lookup in Hr.
  apply (Hr i). by apply list_lookup_lookup_total_lt.
Qed.

Lemma pivot_tableau_length self j r :
  length (tableau (pivot self j r)) = length (tableau self).
Proof.
  unfold pivot. simpl. rewrite (proj1 (pivot_rows_spec _ _ _)). apply length_insert.
Qed.

(** Every entry of the tableau after a pivot, in terms of the tableau
    before it. *)
Lemma pivot_entry self j r w i k :
  rectangular (tableau self) w →
  (r + 1 < length (tableau self))%nat →
  (i < length (tableau self))%nat → (k < w)%nat →
  entry (tableau (pivot self j r)) i k =
    if decide (i = (r + 1)%nat)
    then entry (tableau self) i k / pivot_element self j r
    else entry (tableau self) i k
         - entry (tableau self) i j
           * (entry (tableau self) (r + 1) k / pivot_element self j r).
Proof.
  intros Hrect Hr Hi Hk. unfold pivot. simpl.
  set (p := pivot_element self j r).
  set (T := tableau self) in *.
  set (T1 := <[(r + 1)%nat := (λ x, x / p) <$> T !!! (r + 1)%nat]> T).
  assert (Hlen1 : length T1 = length T) by apply length_insert.
  assert (Hpr : T1 !!! (r + 1)%nat = (λ x, x / p) <$> T !!! (r + 1)%nat).
  { unfold T1. by rewrite list_lookup_total_insert_eq. }
  assert (Hprk : (T1 !!! (r + 1)%nat) !!! k = entry T (r + 1) k / p).
  { rewrite Hpr. rewrite (list_lookup_total_fmap (λ x, x / p)); [done|].
    by rewrite (rectangular_lookup T w). }
  unfold entry at 1. rewrite (proj2 (pivot_rows_spec j (r + 1) T1)) by lia.
  destruct (decide (i = (r + 1)%nat)) as [->|Hne]; [done|].
  assert (Hrow : T1 !!! i = T !!! i).
  { unfold T1. by rewrite list_lookup_total_insert_ne. }
  rewrite row_sub_lookup.
  - unfold entry at 1. by rewrite Hprk, Hrow.
  - by rewrite Hrow, (rectangular_lookup T w).
  - by rewrite Hpr, length_fmap, (rectangular_lookup T w).
Qed.

Lemma pivot_rectangular self j r w :
  rectangular (tableau self) w → (r + 1 < length (tableau self))%nat →
  rectangular (tableau (pivot self j r)) w.
Proof.
  intros Hrect Hr. unfold rectangular. apply Forall_lookup. intros i row Hrow.
  assert (Hi : (i < length (tableau self))%nat).
  { apply lookup_lt_Some in Hrow. by rewrite pivot_tableau_length in Hrow. }
  apply list_lookup_total_correct in Hrow. subst row.
  unfold pivot. simpl.
  set (T := tableau self) in *.
  set (T1 := <[(r + 1)%nat := _]> T).
  assert (Hpr : length (T1 !!! (r + 1)%nat) = w).
  { unfold T1. rewrite list_lookup_total_insert_eq by done.
    by rewrite length_fmap, (rectangular_lookup T w). }
  rewrite (proj2 (pivot_rows_spec j (r + 1) T1)) by (unfold T1; by rewrite length_insert).
  destruct (decide (i = (r + 1)%nat)) as [->|Hne]; [done|].
  rewrite row_sub_length, Hpr. unfold T1.
  rewrite list_lookup_total_insert_ne by done.
  rewrite (rectangular_lookup T w) by done. lia.
Qed.

Lemma entry_out_of_range T w i k :
  rectangular T w → (i < length T)%nat → (w ≤ k)%nat → entry T i k = 0.
Proof.
  intros Hrect Hi Hk. unfold entry. rewrite list_lookup_total_alt.
  rewrite lookup_ge_None_2; [done|]. by rewrite (rectangular_lookup T w).
Qed.

(** A pivot on a nonzero element keeps the columns of the basic variables
    unit vectors, whether the objective row is counted ([lo = 0]) or not
    ([lo = 1]). *)
Lemma pivot_unit_columns lo self j r w :
  (lo ≤ 1)%nat →
  shaped self w →
  (r < length (basis self))%nat →
  ¬ pivot_element self j r == 0 →
  unit_columns lo self →
  unit_columns lo (pivot self j r).
Proof.
  intros Hlo [Hrect Hlen] Hr Hp Hinv i v Hv k Hk.
  rewrite pivot_tableau_length in Hk.
  assert (Hrl : (r + 1 < length (tableau self))%nat) by lia.
  assert (Hjw : (j < w)%nat).
  { destruct (decide (j < w)%nat) as [|Hn]; [done|]. destruct Hp.
    unfold pivot_element. by rewrite (entry_out_of_range _ w) by (done || lia). }
  change (basis (pivot self j r)) with (<[r := j]> (basis self)) in Hv.
  destruct (decide (i = r)) as [->|Hir].
  - rewrite list_lookup_insert_eq in Hv by done. injection Hv as <-.
    rewrite (pivot_entry self j r w) by (done || lia).
    destruct (decide (k = (r + 1)%nat)) as [->|Hne].
    + fold (pivot_element self j r). by field.
    + fold (pivot_element self j r). by field.
  - rewrite list_lookup_insert_ne in Hv by done.
    assert (Hi : (i < length (basis self))%nat) by by apply lookup_lt_Some in Hv.
    assert (Hvw : (v < w)%nat).
    { destruct (decide (v < w)%nat) as [|Hn]; [done|].
      pose proof (Hinv i v Hv (i + 1)%nat) as H1.
      rewrite decide_True in H1 by done.
      rewrite (entry_out_of_range _ w) in H1 by (done || lia).
      discriminate H1. lia. }
    pose proof (Hinv i v Hv (r + 1)%nat) as Hz.
    rewrite decide_False in Hz by lia. specialize (Hz ltac:(lia)).
    rewrite (pivot_entry self j r w) by (done || lia).
    destruct (decide (k = (r + 1)%nat)) as [->|Hne].
    + rewrite decide_False by lia. rewrite Hz. by field.
    + rewrite Hz. rewrite <- (Hinv i v Hv k) by lia. by field.
Qed.

(** C4. In exact arithmetic a pivot on a nonzero element preserves the
    basis invariant: if before the pivot the column of every [basis[i]],
    read on the rows [1..m], is the [i]-th standard basis vector, then so it
    is after the pivot has normalised the pivot row, reduced every other row
    and set [basis[leaving_idx] = entering_idx]. *)
Theorem pivot_preserves_basis_invariant self entering_idx leaving_idx w :
  shaped self w →
  (leaving_idx < length (basis self))%nat →
  ¬ pivot_element self entering_idx leaving_idx == 0 →
  basis_invariant self →
  basis_invariant (pivot self entering_idx leaving_idx).
Proof.
  intros Hs Hr Hp Hinv. by apply (pivot_unit_columns 1 self _ _ w).
Qed.

Lemma pivot_preserves_basis_invariant_witness :
  basis_invariant (pivot (setup init_solver [1] (Matrix 1 1 [[1]]) [5]) 0 0).
Proof.
  apply (pivot_preserves_basis_invariant _ 0 0 3).
  - split; [by repeat constructor|reflexivity].
  - simpl. lia.
  - intros H. discriminate H.
  - intros i v Hv k Hk. simpl in Hk. assert (k = 1%nat) as -> by lia.
    destruct i as [|i]; [|done]. injection Hv as <-. reflexivity.
Defined.

(** ** Scalar products *)

Lemma dot_nil_r u : dot u [] = 0.
Proof. unfold dot. by destruct u. Qed.

Lemma dot_cons a u b x : dot (a :: u) (b :: x) = a * b + dot u x.
Proof. done. Qed.

(** A row that is a combination of two rows, entry by entry. *)
Lemma dot_combination (a b : Q) (x u u1 u2 : list Q) :
  length u = length x → length u1 = length x → length u2 = length x →
  (∀ k, (k < length x)%nat → u !!! k == a * u1 !!! k + b * u2 !!! k) →
  dot u x == a * dot u1 x + b * dot u2 x.
Proof.
  revert u u1 u2. induction x as [|y x IH]; intros u u1 u2 Hu Hu1 Hu2 H.
  - rewrite !dot_nil_r. ring.
  - destruct u as [|z u]; [done|]. destruct u1 as [|z1 u1]; [done|].
    destruct u2 as [|z2 u2]; [done|]. simpl in *.
    rewrite !dot_cons.
    rewrite (IH u u1 u2) by (try lia; intros k Hk; apply (H (S k)); lia).
    pose proof (H 0%nat ltac:(lia)) as H0. simpl in H0. rewrite H0. ring.
Qed.

Lemma dot_zero (u x : list Q) :
  (∀ k, (k < length u)%nat → (k < length x)%nat → u !!! k * x !!! k == 0) →
  dot u x == 0.
Proof.
  revert x. induction u as [|a u IH]; intros x H; [done|].
  destruct x as [|y x]; [done|]. rewrite dot_cons.
  rewrite IH by (intros k Hk1 Hk2; apply (H (S k)); simpl; lia).
  pose proof (H 0%nat) as H0. simpl in H0. rewrite H0 by lia. ring.
Qed.

(** A product with a single nonzero term. *)
Lemma dot_single (u x : list Q) k0 :
  (k0 < length u)%nat → (k0 < length x)%nat →
  (∀ k, (k < length u)%nat → (k < length x)%nat → k ≠ k0 → u !!! k * x !!! k == 0) →
  dot u x == u !!! k0 * x !!! k0.
Proof.
  revert x k0. induction u as [|a u IH]; intros x k0 Hu Hx H; [simpl in Hu; lia|].
  destruct x as [|y x]; [simpl in Hx; lia|]. rewrite dot_cons.
  destruct k0 as [|k0]; simpl.
  - rewrite dot_zero; [ring|]. intros k Hk1 Hk2. apply (H (S k)); simpl; lia.
  - simpl in *. rewrite (IH x k0) by (try lia; intros k Hk1 Hk2 Hne; apply (H (S k)); lia).
    pose proof (H 0%nat) as H0. simpl in H0. rewrite H0 by lia. ring.
Qed.

Lemma dot_app (u1 u2 x1 x2 : list Q) :
  length u1 = length x1 →
  dot (u1 ++ u2) (x1 ++ x2) == dot u1 x1 + dot u2 x2.
Proof.
  revert x1. induction u1 as [|a u1 IH]; intros x1 Hlen.
  - destruct x1; [|done]. change (dot u2 x2 == 0 + dot u2 x2). ring.
  - destruct x1 as [|y x1]; [done|]. simpl in Hlen.
    change (dot (a :: u1 ++ u2) (y :: x1 ++ x2) == dot (a :: u1) (y :: x1) + dot u2 x2).
    rewrite !dot_cons. rewrite IH by lia. ring.
Qed.

Lemma dot_zeros n x : dot (zeros n) x == 0.
Proof.
  apply dot_zero. intros k _ _. rewrite zeros_lookup. ring.
Qed.

Lemma dot_opp (u x : list Q) :
  length u = length x → dot (Qopp <$> u) x == - dot u x.
Proof.
  intros Hlen.
  rewrite (dot_combination (- (1)) 0 x (Qopp <$> u) u u).
  - ring.
  - by rewrite length_fmap.
  - done.
  - done.
  - intros k Hk. rewrite (list_lookup_total_fmap Qopp) by lia. ring.
Qed.

(** ** The basic solution of a canonical tableau *)

Lemma basic_value_cases self v :
  (∃ i, basis self !! i = Some v ∧ basic_value self v = rhs (tableau self) (i + 1))
  ∨ ((∀ i, basis self !! i ≠ Some v) ∧ basic_value self v = 0).
Proof.
  unfold basic_value.
  destruct (list_find (λ w, w = v) (basis self)) as [[i w]|] eqn:E.
  - apply list_find_Some in E as (Hi & -> & _). left. by exists i.
  - apply list_find_None in E. right. split; [|done].
    intros i Hi. rewrite Forall_lookup in E. by apply (E i v).
Qed.

Lemma canonical_basis_lt c A self i v :
  canonical c A self → basis self !! i = Some v → (v < ncols A + nrows A)%nat.
Proof.
  intros (_ & _ & _ & _ & Hlt & _) Hv. rewrite Forall_lookup in Hlt. by apply (Hlt i).
Qed.

Lemma canonical_basis_unique c A self i i' v :
  canonical c A self →
  basis self !! i = Some v → basis self !! i' = Some v → i = i'.
Proof.
  intros ([_ Hlen] & _ & _ & _ & _ & Hunit & _) Hi Hi'.
  destruct (decide (i = i')) as [|Hne]; [done|exfalso].
  assert (Hlt : (i < length (basis self))%nat) by by apply lookup_lt_Some in Hi.
  pose proof (Hunit i v Hi (i + 1)%nat ltac:(lia)) as H1.
  pose proof (Hunit i' v Hi' (i + 1)%nat ltac:(lia)) as H2.
  rewrite decide_True in H1 by done. rewrite decide_False in H2 by lia.
  rewrite H1 in H2. discriminate H2.
Qed.

Lemma basic_value_basic c A self i v :
  canonical c A self → basis self !! i = Some v →
  basic_value self v = rhs (tableau self) (i + 1).
Proof.
  intros Hc Hi. destruct (basic_value_cases self v) as [(i' & Hi' & ->)|[Hn _]].
  - by rewrite (canonical_basis_unique c A self i i' v).
  - by destruct (Hn i).
Qed.

Lemma basic_solution_length self : length (basic_solution self) = num_variables self.
Proof. unfold basic_solution. by rewrite length_fmap, length_seq. Qed.

Lemma basic_solution_lookup self v :
  (v < num_variables self)%nat → basic_solution self !!! v = basic_value self v.
Proof.
  intros Hv. unfold basic_solution.
  rewrite (list_lookup_total_fmap (basic_value self)) by by rewrite length_seq.
  rewrite lookup_total_seq_lt by done. by rewrite Nat.add_0_l.
Qed.

Lemma but_last_length (row : list Q) : length (but_last row) = (length row - 1)%nat.
Proof. unfold but_last. rewrite length_take. lia. Qed.

Lemma but_last_lookup (row : list Q) k :
  (k < length row - 1)%nat → but_last row !!! k = row !!! k.
Proof. intros Hk. unfold but_last. by rewrite lookup_total_take_lt. Qed.

Lemma canonical_row_length c A self k :
  canonical c A self → (k < length (tableau self))%nat →
  length (tableau self !!! k) = (ncols A + nrows A + 1)%nat.
Proof. intros ([Hrect _] & _) Hk. by apply rectangular_lookup. Qed.

(** The extracted vector is the basic solution on the structural
    variables. *)
Lemma extract_solution_basic c A self :
  canonical c A self →
  fst (extract_solution self) = basic_value self <$> seq 0 (ncols A).
Proof.
  intros Hc. pose proof Hc as (_ & _ & Hnv & Hnc & _).
  assert (Hns : num_structural self = ncols A) by (unfold num_structural; lia).
  apply (list_eq_same_length _ _ (ncols A)).
  - by rewrite length_fmap, length_seq.
  - rewrite extract_solution_length; [done|]. unfold num_structural. lia.
  - intros v x y Hv Hx Hy.
    apply list_lookup_total_correct in Hx, Hy. subst x y.
    rewrite (list_lookup_total_fmap (basic_value self)) by by rewrite length_seq.
    rewrite lookup_total_seq_lt by done. rewrite Nat.add_0_l.
    destruct (extract_solution_value self v) as [(i & Hi & ->)|[Hn ->]].
    + by rewrite Hns.
    + unfold num_structural. lia.
    + by rewrite (basic_value_basic c A self i v).
    + destruct (basic_value_cases self v) as [(i & Hi & _)|[_ ->]]; [|done].
      by destruct (Hn i).
Qed.

(** The basic solution solves the constraint rows. *)
Lemma basic_solution_satisfies c A self :
  canonical c A self → satisfies self (basic_solution self).
Proof.
  intros Hc k Hk.
  pose proof Hc as ([Hrect Hlen] & Hm & Hnv & _ & _ & Hunit & _).
  assert (Hi : (k - 1 < length (basis self))%nat) by lia.
  destruct (lookup_lt_is_Some_2 _ _ Hi) as [v0 Hv0].
  pose proof (canonical_basis_lt c A self _ _ Hc Hv0) as Hv0lt.
  pose proof (canonical_row_length c A self k Hc ltac:(lia)) as Hrow.
  rewrite (dot_single _ _ v0).
  - rewrite but_last_lookup by lia. rewrite basic_solution_lookup by lia.
    rewrite (basic_value_basic c A self (k - 1) v0) by done.
    pose proof (Hunit _ _ Hv0 k ltac:(lia)) as H1.
    rewrite decide_True in H1 by lia. unfold entry in H1. rewrite H1.
    replace (k - 1 + 1)%nat with k by lia. ring.
  - rewrite but_last_length. lia.
  - rewrite basic_solution_length. lia.
  - intros v Hv1 Hv2 Hne.
    rewrite but_last_length in Hv1. rewrite basic_solution_length in Hv2.
    rewrite but_last_lookup by lia. rewrite basic_solution_lookup by lia.
    destruct (basic_value_cases self v) as [(i & Hiv & _)|[_ ->]]; [|ring].
    pose proof (Hunit _ _ Hiv k ltac:(lia)) as H1.
    rewrite decide_False in H1.
    + unfold entry in H1. rewrite H1. ring.
    + intros ->. replace (i + 1 - 1)%nat with i in Hv0 by lia. congruence.
Qed.

Lemma obj_row_basic_solution c A self :
  canonical c A self → dot (obj_row self) (basic_solution self) == 0.
Proof.
  intros Hc. pose proof Hc as ([Hrect Hlen] & Hm & Hnv & _ & _ & Hunit & _).
  pose proof (canonical_row_length c A self 0 Hc ltac:(lia)) as Hrow.
  apply dot_zero. intros v Hv1 Hv2. unfold obj_row in *.
  rewrite but_last_length in Hv1. rewrite basic_solution_length in Hv2.
  rewrite but_last_lookup by lia. rewrite basic_solution_lookup by lia.
  destruct (basic_value_cases self v) as [(i & Hiv & _)|[_ ->]]; [|ring].
  pose proof (Hunit _ _ Hiv 0%nat ltac:(lia)) as H1.
  rewrite decide_False in H1 by lia. unfold entry in H1. rewrite H1. ring.
Qed.

(** On a canonical tableau the entry [T[0, -1]] is the true objective
    value of the basic solution. *)
Lemma canonical_objective c A self :
  length c = ncols A → canonical c A self →
  objective_of c self == rhs (tableau self) 0.
Proof.
  intros Hlen Hc. pose proof Hc as (_ & _ & Hnv & _ & _ & _ & Hid).
  specialize (Hid (basic_solution self)).
  rewrite obj_row_basic_solution in Hid by done.
  rewrite <- Hid.
  - unfold objective_of. rewrite (extract_solution_basic c A) by done.
    unfold basic_solution. rewrite Hnv, seq_app, fmap_app.
    rewrite dot_app by by rewrite length_fmap, length_seq.
    rewrite dot_zeros. ring.
  - rewrite basic_solution_length, length_app. unfold zeros.
    rewrite length_replicate. lia.
  - by apply (basic_solution_satisfies c A).
Qed.

(** ** A pivot keeps the tableau canonical *)

Lemma rhs_entry T w k :
  rectangular T w → (k < length T)%nat → rhs T k = entry T k (w - 1).
Proof.
  intros Hrect Hk. unfold rhs, last_of, entry. by rewrite (rectangular_lookup T w).
Qed.

Lemma pivot_rhs self j r w k :
  rectangular (tableau self) w → (0 < w)%nat →
  (r + 1 < length (tableau self))%nat → (k < length (tableau self))%nat →
  rhs (tableau (pivot self j r)) k =
    if decide (k = (r + 1)%nat)
    then rhs (tableau self) k / pivot_element self j r
    else rhs (tableau self) k
         - entry (tableau self) k j * (rhs (tableau self) (r + 1) / pivot_element self j r).
Proof.
  intros Hrect Hw Hr Hk.
  rewrite (rhs_entry _ w) by (by apply pivot_rectangular || by rewrite pivot_tableau_length).
  rewrite (pivot_entry self j r w) by (done || lia).
  by rewrite !(rhs_entry (tableau self) w).
Qed.

Section pivot_rows_products.
Context (self : LPSolver) (j r w : nat) (x : list Q).
Hypothesis Hrect : rectangular (tableau self) w.
Hypothesis Hr : (r + 1 < length (tableau self))%nat.
Hypothesis Hx : length x = (w - 1)%nat.

Local Abbreviation T := (tableau self).
Local Abbreviation T' := (tableau (pivot self j r)).
Local Abbreviation p := (pivot_element self j r).

Lemma pivot_but_last_length k :
  (k < length T)%nat → length (but_last (T' !!! k)) = length x.
Proof.
  intros Hk. rewrite but_last_length, Hx. f_equal.
  apply rectangular_lookup; [by apply pivot_rectangular|].
  by rewrite pivot_tableau_length.
Qed.

Lemma but_last_length_x k :
  (k < length T)%nat → length (but_last (T !!! k)) = length x.
Proof.
  intros Hk. rewrite but_last_length, Hx. f_equal. by apply rectangular_lookup.
Qed.

Lemma pivot_but_last_lookup k v :
  (k < length T)%nat → (v < length x)%nat →
  but_last (T' !!! k) !!! v = entry T' k v.
Proof.
  intros Hk Hv. apply but_last_lookup.
  rewrite (rectangular_lookup T' w); [lia|by apply pivot_rectangular|].
  by rewrite pivot_tableau_length.
Qed.

Lemma but_last_lookup_x k v :
  (k < length T)%nat → (v < length x)%nat →
  but_last (T !!! k) !!! v = entry T k v.
Proof.
  intros Hk Hv. apply but_last_lookup. rewrite (rectangular_lookup T w); [lia|done..].
Qed.

(** The scalar product of the normalised pivot row. *)
Lemma pivot_row_product :
  ¬ p == 0 →
  dot (but_last (T' !!! (r + 1)%nat)) x == dot (but_last (T !!! (r + 1)%nat)) x / p.
Proof.
  intros Hp.
  rewrite (dot_combination (/ p) 0 x _ (but_last (T !!! (r + 1)%nat))
                           (but_last (T !!! (r + 1)%nat))).
  - by field.
  - by apply pivot_but_last_length.
  - by apply but_last_length_x.
  - by apply but_last_length_x.
  - intros v Hv. rewrite pivot_but_last_lookup, but_last_lookup_x by done.
    rewrite (pivot_entry self j r w) by (done || lia).
    rewrite decide_True by done. by field.
Qed.

(** The scalar product of every other row after the reduction. *)
Lemma reduced_row_product k :
  (k < length T)%nat → k ≠ (r + 1)%nat →
  dot (but_last (T' !!! k)) x ==
    dot (but_last (T !!! k)) x - entry T k j * dot (but_last (T' !!! (r + 1)%nat)) x.
Proof.
  intros Hk Hne.
  rewrite (dot_combination 1 (- entry T k j) x _ (but_last (T !!! k))
                           (but_last (T' !!! (r + 1)%nat))).
  - ring.
  - by apply pivot_but_last_length.
  - by apply but_last_length_x.
  - by apply pivot_but_last_length.
  - intros v Hv. rewrite !pivot_but_last_lookup, but_last_lookup_x by done.
    rewrite !(pivot_entry self j r w) by (done || lia).
    rewrite decide_False by done. rewrite decide_True by done. ring.
Qed.
End pivot_rows_products.

Lemma pivot_objective_row_identity c A self j r :
  length c = ncols A →
  canonical c A self →
  (r < nrows A)%nat →
  ¬ pivot_element self j r == 0 →
  objective_row_identity (c ++ zeros (nrows A)) (pivot self j r).
Proof.
  intros Hc ([Hrect Hlen] & Hm & _ & _ & _ & _ & Hid) Hr Hp x Hx Hsat'.
  set (w := (ncols A + nrows A + 1)%nat) in *.
  assert (Hxw : length x = (w - 1)%nat).
  { rewrite Hx, length_app. unfold zeros. rewrite length_replicate. lia. }
  assert (Hrl : (r + 1 < length (tableau self))%nat) by lia.
  assert (Hw : (0 < w)%nat) by lia.
  assert (Hq : dot (but_last (tableau (pivot self j r) !!! (r + 1)%nat)) x
               == rhs (tableau self) (r + 1) / pivot_element self j r).
  { rewrite (Hsat' (r + 1)%nat) by (rewrite pivot_tableau_length; lia).
    rewrite (pivot_rhs self j r w) by done. by rewrite decide_True. }
  assert (Hsat : satisfies self x).
  { intros k Hk. destruct (decide (k = (r + 1)%nat)) as [->|Hne].
    - pose proof (pivot_row_product self j r w x Hrect Hrl Hxw Hp) as Hrow.
      rewrite Hq in Hrow.
      assert (He : dot (but_last (tableau self !!! (r + 1)%nat)) x
                   == dot (but_last (tableau self !!! (r + 1)%nat)) x
                      / pivot_element self j r * pivot_element self j r) by by field.
      rewrite He, <- Hrow. by field.
    - pose proof (reduced_row_product self j r w x Hrect Hrl Hxw k ltac:(lia) Hne) as Hrow.
      rewrite Hq in Hrow.
      rewrite (Hsat' k) in Hrow by (rewrite pivot_tableau_length; lia).
      rewrite (pivot_rhs self j r w) in Hrow by (done || lia).
      rewrite decide_False in Hrow by done.
      assert (He : dot (but_last (tableau self !!! k)) x
                   == dot (but_last (tableau self !!! k)) x
                      - entry (tableau self) k j
                        * (rhs (tableau self) (r + 1) / pivot_element self j r)
                      + entry (tableau self) k j
                        * (rhs (tableau self) (r + 1) / pivot_element self j r)) by ring.
      rewrite He, <- Hrow. ring. }
  specialize (Hid x Hx Hsat). unfold obj_row in *.
  rewrite (reduced_row_product self j r w x Hrect Hrl Hxw 0%nat) by lia.
  rewrite Hq. rewrite (pivot_rhs self j r w) by (done || lia).
  rewrite decide_False by lia. rewrite <- Hid. ring.
Qed.

Lemma pivot_canonical c A self j r :
  length c = ncols A →
  canonical c A self →
  (r < nrows A)%nat → (j < ncols A + nrows A)%nat →
  ¬ pivot_element self j r == 0 →
  canonical c A (pivot self j r).
Proof.
  intros Hc Hcan Hr Hj Hp.
  pose proof (pivot_objective_row_identity c A self j r Hc Hcan Hr Hp) as Hid.
  destruct Hcan as ([Hrect Hlen] & Hm & Hnv & Hnc & Hlt & Hunit & _).
  assert (Hb : length (basis (pivot self j r)) = length (basis self))
    by apply length_insert.
  split; [split|].
  - apply pivot_rectangular; [done|lia].
  - rewrite pivot_tableau_length, Hb. done.
  - split; [by rewrite Hb|]. split; [done|]. split; [done|]. split.
    + by apply Forall_insert.
    + split; [|done].
      apply (pivot_unit_columns 0 self j r (ncols A + nrows A + 1)); try done; lia.
Qed.

(** ** The initial tableau is canonical *)

Lemma setup_tableau self c A b :
  tableau (setup self c A b) =
    ((Qopp <$> (c ++ zeros (nrows A))) ++ [0])
    :: zip_with (λ row bi, row ++ [bi]) (zip_with app (mdata A) (eye (nrows A))) b.
Proof. done. Qed.

Lemma setup_basis self c A b : basis (setup self c A b) = seq (ncols A) (nrows A).
Proof.
  unfold setup, initialize_basis. simpl. f_equal; lia.
Qed.

Lemma but_last_snoc (l : list Q) a : but_last (l ++ [a]) = l.
Proof.
  unfold but_last. rewrite length_app. simpl.
  replace (length l + 1 - 1)%nat with (length l) by lia.
  by rewrite take_app_length.
Qed.

Lemma last_of_snoc (l : list Q) a : last_of (l ++ [a]) = a.
Proof.
  unfold last_of. rewrite length_app. simpl.
  replace (length l + 1 - 1)%nat with (length l + 0)%nat by lia.
  by rewrite lookup_total_app_r, Nat.add_0_r, Nat.sub_diag by lia.
Qed.

Lemma eye_length m : length (eye m) = m.
Proof. unfold eye. by rewrite length_fmap, length_seq. Qed.

Lemma eye_lookup m i :
  (i < m)%nat → eye m !! i = Some ((λ k, if (k =? i)%nat then 1 else 0) <$> seq 0 m).
Proof.
  intros Hi. unfold eye. rewrite list_lookup_fmap, lookup_seq_lt by done. done.
Qed.

(** Row [i + 1] of the initial tableau: the constraint row, the row of the
    identity, the right-hand side. *)
Lemma setup_row self c A b i :
  wf_problem c A b → (i < nrows A)%nat →
  ∃ Ai, mdata A !! i = Some Ai ∧ length Ai = ncols A ∧
    tableau (setup self c A b) !!! S i =
      (Ai ++ ((λ k, if (k =? i)%nat then 1 else 0) <$> seq 0 (nrows A))) ++ [b !!! i].
Proof.
  intros ([Hrows Hcols] & Hc & Hb) Hi.
  destruct (lookup_lt_is_Some_2 (mdata A) i) as [Ai HAi]; [lia|].
  destruct (lookup_lt_is_Some_2 b i) as [bi Hbi]; [lia|].
  exists Ai. split; [done|]. split.
  { rewrite Forall_lookup in Hcols. by apply (Hcols i). }
  rewrite setup_tableau. simpl. apply list_lookup_total_correct.
  rewrite !lookup_zip_with, HAi, eye_lookup, Hbi by done. simpl.
  by rewrite (list_lookup_total_correct _ _ _ Hbi).
Qed.

Lemma setup_length self c A b :
  wf_problem c A b → length (tableau (setup self c A b)) = S (nrows A).
Proof.
  intros ([Hrows Hcols] & Hc & Hb). rewrite setup_tableau. simpl.
  rewrite !length_zip_with, eye_length. lia.
Qed.

Lemma setup_rectangular self c A b :
  wf_problem c A b →
  rectangular (tableau (setup self c A b)) (ncols A + nrows A + 1).
Proof.
  intros Hwf. pose proof Hwf as ([Hrows Hcols] & Hc & Hb).
  unfold rectangular. apply Forall_lookup. intros k row Hrow.
  assert (Hk : (k < S (nrows A))%nat).
  { apply lookup_lt_Some in Hrow. by rewrite setup_length in Hrow. }
  apply list_lookup_total_correct in Hrow. subst row.
  destruct k as [|i].
  - rewrite setup_tableau. simpl.
    rewrite length_app, length_fmap, length_app. unfold zeros.
    rewrite length_replicate. simpl. lia.
  - destruct (setup_row self c A b i Hwf ltac:(lia)) as (Ai & _ & HAi & ->).
    rewrite !length_app, length_fmap, length_seq. simpl. lia.
Qed.

Lemma setup_unit_columns self c A b :
  wf_problem c A b → unit_columns 0 (setup self c A b).
Proof.
  intros Hwf i v Hv k Hk. pose proof Hwf as ([Hrows Hcols] & Hc & Hb).
  rewrite setup_length in Hk by done.
  rewrite setup_basis in Hv. apply lookup_seq in Hv as [-> Hi].
  destruct k as [|k].
  - rewrite decide_False by lia. unfold entry. rewrite setup_tableau. simpl.
    rewrite lookup_total_app_l.
    2:{ rewrite length_fmap, length_app. unfold zeros. rewrite length_replicate. lia. }
    rewrite (list_lookup_total_fmap Qopp).
    2:{ rewrite length_app. unfold zeros. rewrite length_replicate. lia. }
    rewrite lookup_total_app_r by lia.
    rewrite zeros_lookup. reflexivity.
  - destruct (setup_row self c A b k Hwf ltac:(lia)) as (Ak & _ & HAk & Hrow).
    unfold entry. rewrite Hrow.
    rewrite lookup_total_app_l by (rewrite length_app, length_fmap, length_seq; lia).
    rewrite lookup_total_app_r by lia.
    rewrite (list_lookup_total_fmap (λ k0 : nat, if (k0 =? k)%nat then 1 else 0))
      by (rewrite length_seq; lia).
    rewrite lookup_total_seq_lt by lia.
    replace (0 + (ncols A + i - length Ak))%nat with i by lia.
    destruct (decide (S k = (i + 1)%nat)) as [He|Hne].
    + assert (i = k) as -> by lia. by rewrite Nat.eqb_refl.
    + destruct (Nat.eqb_spec i k) as [->|_]; [lia|reflexivity].
Qed.

Lemma setup_objective_row_identity self c A b :
  wf_problem c A b →
  objective_row_identity (c ++ zeros (nrows A)) (setup self c A b).
Proof.
  intros Hwf x Hx _. unfold obj_row, rhs. rewrite setup_tableau. simpl.
  rewrite but_last_snoc, last_of_snoc. rewrite dot_opp by done. ring.
Qed.

Lemma setup_canonical self c A b :
  wf_problem c A b → canonical c A (setup self c A b).
Proof.
  intros Hwf. split; [split|].
  - by apply setup_rectangular.
  - rewrite setup_length, setup_basis, length_seq by done. done.
  - split; [by rewrite setup_basis, length_seq|]. split; [done|]. split; [done|].
    split; [|split].
    + rewrite setup_basis. apply Forall_forall. intros v Hv.
      apply elem_of_seq in Hv. lia.
    + by apply setup_unit_columns.
    + by apply setup_objective_row_identity.
Qed.

(** ** Objective monotonicity *)

Lemma iterate_once_Pivoted self it self' :
  iterate_once self it = Pivoted self' →
  ∃ j r, get_entering_variable self = Some j ∧
         get_leaving_variable self j = Ok (Some r) ∧
         self' = pivot self j r.
Proof.
  unfold iterate_once. destruct (get_entering_variable self) as [j|].
  - destruct (get_leaving_variable self j) as [[r|]|e] eqn:E; try done.
    intros [= <-]. by exists j, r.
  - by destruct (extract_solution self).
Qed.

(** What a pass that pivots from a canonical tableau with nonnegative
    right-hand sides works with. *)
Lemma feasible_pivot_facts c A self j r :
  canonical c A self → rhs_nonneg self →
  get_entering_variable self = Some j →
  get_leaving_variable self j = Ok (Some r) →
  (j < ncols A + nrows A)%nat ∧ (r < nrows A)%nat ∧
  0 < pivot_element self j r ∧
  entry (tableau self) 0 j < 0 ∧
  0 <= rhs (tableau self) (r + 1).
Proof.
  intros Hcan Hb Hj Hr. pose proof Hcan as ([Hrect Hlen] & Hm & _).
  pose proof (canonical_row_length c A self 0 Hcan ltac:(lia)) as Hrow0.
  apply entering_Some in Hj as [(x & Hx & Hlt) _].
  assert (Hjlt : (j < ncols A + nrows A)%nat).
  { apply lookup_lt_Some in Hx. unfold obj_row in Hx.
    rewrite but_last_length in Hx. lia. }
  apply list_lookup_total_correct in Hx. unfold obj_row in Hx.
  rewrite but_last_lookup in Hx by lia.
  destruct (leaving_Some_candidate self j r Hb Hr) as [Hrm Hc].
  assert (Htail : length (tail (tableau self)) = nrows A).
  { destruct (tableau self); simpl in *; lia. }
  pose proof eps_pos. split; [done|]. split; [lia|]. split.
  { unfold pivot_element. lra. }
  split.
  { unfold entry. rewrite Hx. lra. }
  apply Hb. lia.
Qed.

Lemma feasible_run_canonical c A b self :
  wf_problem c A b → feasible_run c A b self → canonical c A self.
Proof.
  intros Hwf Hrun. induction Hrun as [self0|s it s' Hrun IH Hb Hit].
  - by apply setup_canonical.
  - apply iterate_once_Pivoted in Hit as (j & r & Hj & Hr & ->).
    destruct (feasible_pivot_facts c A s j r IH Hb Hj Hr) as (Hjlt & Hrlt & Hp & _).
    apply pivot_canonical; try done.
    + apply Hwf.
    + lra.
Qed.

(** Along a run that stays feasible the basis invariant holds in every
    state. *)
Lemma feasible_run_basis_invariant c A b self :
  wf_problem c A b → feasible_run c A b self → basis_invariant self.
Proof.
  intros Hwf Hrun.
  destruct (feasible_run_canonical c A b self Hwf Hrun) as (_ & _ & _ & _ & _ & Hu & _).
  intros i v Hv k Hk. apply (Hu i v Hv k). lia.
Qed.

(** The column [get_entering_variable] returns on a tableau of the loop. *)
Lemma entering_column c A self j :
  canonical c A self → get_entering_variable self = Some j →
  (j < ncols A + nrows A)%nat ∧ entry (tableau self) 0 j < - eps.
Proof.
  intros Hcan Hj. pose proof Hcan as ([Hrect Hlen] & Hm & _).
  pose proof (canonical_row_length c A self 0 Hcan ltac:(lia)) as Hrow0.
  apply entering_Some in Hj as [(x & Hx & Hlt) _].
  assert (Hjlt : (j < ncols A + nrows A)%nat).
  { apply lookup_lt_Some in Hx. unfold obj_row in Hx.
    rewrite but_last_length in Hx. lia. }
  split; [done|].
  apply list_lookup_total_correct in Hx. unfold obj_row in Hx.
  rewrite but_last_lookup in Hx by lia. unfold entry. by rewrite Hx.
Qed.

Lemma pivoting_run_canonical c A b self :
  wf_problem c A b → pivoting_run c A b self → canonical c A self.
Proof.
  intros Hwf Hrun. induction Hrun as [self0|s j r Hrun IH Hj Hr Hp].
  - by apply setup_canonical.
  - destruct (entering_column c A s j IH Hj) as [Hjlt _].
    apply pivot_canonical; try done. apply Hwf.
Qed.

(** What a pivot on a candidate row adds to the objective: the reduced
    cost of the entering column, negated, times the quotient of the row. *)
Lemma candidate_pivot_objective c A self j r :
  length c = ncols A → canonical c A self →
  get_entering_variable self = Some j → candidate self j r →
  objective_of c (pivot self j r)
  == objective_of c self + - entry (tableau self) 0 j * quotient self j r.
Proof.
  intros Hc Hcan Hj [Hr Hp]. pose proof eps_pos as Heps.
  destruct (entering_column c A self j Hcan Hj) as [Hjlt _].
  pose proof Hcan as ([Hrect Hlen] & Hm & _).
  assert (Htail : length (tail (tableau self)) = nrows A).
  { destruct (tableau self); simpl in *; lia. }
  assert (Hcan' : canonical c A (pivot self j r)).
  { apply pivot_canonical; try done; [lia|]. unfold pivot_element. lra. }
  rewrite (canonical_objective c A self Hc Hcan).
  rewrite (canonical_objective c A _ Hc Hcan').
  rewrite (pivot_rhs self j r (ncols A + nrows A + 1)) by (done || lia).
  rewrite decide_False by lia.
  unfold quotient, pivot_element. ring.
Qed.

Lemma candidate_quotient_nonneg self j r :
  candidate self j r → 0 <= rhs (tableau self) (r + 1) → 0 <= quotient self j r.
Proof.
  intros [_ Hp] Hb. pose proof eps_pos. unfold quotient.
  apply Qle_shift_div_l; lra.
Qed.




(** The same happens at once when [b] has a negative entry: for
    [maximize x] subject to [x <= -1], [-x <= 1] the first pass pivots on
    row 2, whose entry in the entering column is [-1], and takes the basic
    solution from [x = 0] to [x = -1]. *)
Lemma objective_decreases_from_negative_rhs :
  ¬ objective_monotone [1] (Matrix 2 1 [[1]; [- (1)]]) [- (1); 1].
Proof.
  intros H.
  specialize (H init_solver 0%nat infeasible_start (pivot infeasible_start 0 1)
                eq_refl eq_refl).
  vm_compute in H. by apply H.
Qed.

(** The value [solve] returns as the objective is the negation of the true
    objective value of the solution it returns. *)
Lemma returned_objective_negated c A b self :
  wf_problem c A b → feasible_run c A b self →
  snd (extract_solution self) == - objective_of c self.
Proof.
  intros Hwf Hrun.
  rewrite (canonical_objective c A self); [done|apply Hwf|].
  by apply (feasible_run_canonical c A b).
Qed.

(** ** Indices stay in range

    The model reads arrays with a default value where Python would raise
    [IndexError].  On a well-shaped problem that never happens: every pass of
    the loop of [solve] pivots on a row and a column of the tableau, and the
    tableau keeps its shape. *)

Lemma leaving_Some_lt self j r :
  get_leaving_variable self j = Ok (Some r) → (r < length (tail (tableau self)))%nat.
Proof.
  intros Hr. destruct (leaving_cases self j) as [[_ Hn]|[_ [(x & Hx & Hin & _)|(_ & e & He)]]];
    [congruence| |congruence].
  apply leaving_pairs_elem in Hin as [Hlt _]. congruence.
Qed.

Lemma iterate_once_in_range self it self' w :
  shaped self w →
  iterate_once self it = Pivoted self' →
  shaped self' w ∧
  ∃ j r, self' = pivot self j r ∧ (j < w - 1)%nat ∧ (r < length (basis self))%nat.
Proof.
  intros [Hrect Hlen] Hit.
  apply iterate_once_Pivoted in Hit as (j & r & Hj & Hr & ->).
  apply entering_Some in Hj as [(x & Hx & _) _].
  apply lookup_lt_Some in Hx. unfold obj_row in Hx. rewrite but_last_length in Hx.
  rewrite (rectangular_lookup _ w) in Hx by (done || lia).
  apply leaving_Some_lt in Hr.
  assert (Htail : length (tail (tableau self)) = length (basis self)).
  { destruct (tableau self); simpl in *; lia. }
  split.
  - split; [apply pivot_rectangular; [done|lia]|].
    rewrite pivot_tableau_length. unfold pivot. simpl. by rewrite length_insert.
  - exists j, r. split; [done|]. split; lia.
Qed.

Lemma run_pivots_shaped k it self s w :
  shaped self w → run_pivots k it self = Some s →
  shaped s w ∧ length (basis s) = length (basis self).
Proof.
  revert it self. induction k as [|k IH]; intros it self Hs; simpl.
  - by intros [= <-].
  - destruct (iterate_once self it) as [s1| |] eqn:E; [|done..].
    destruct (iterate_once_in_range self it s1 w Hs E) as (Hs1 & j & r & -> & _).
    intros Hrun. destruct (IH _ _ Hs1 Hrun) as [Hs' Hb]. split; [done|].
    rewrite Hb. apply length_insert.
Qed.

(** X2. On a well-shaped problem every pass of the loop of [solve] that
    pivots does so on a column [j < n + m] (never the right-hand-side
    column) and a row [r < m] of a tableau that still has [m + 1] rows of
    [n + m + 1] entries: no array is read or written out of range. *)
Lemma solve_in_range self c A b k s it s' :
  wf_problem c A b →
  run_pivots k 0 (setup self c A b) = Some s →
  iterate_once s it = Pivoted s' →
  ∃ j r, s' = pivot s j r ∧ (j < ncols A + nrows A)%nat ∧ (r < nrows A)%nat ∧
         length (tableau s) = S (nrows A) ∧
         rectangular (tableau s) (ncols A + nrows A + 1).
Proof.
  intros Hwf Hrun Hit.
  assert (Hs0 : shaped (setup self c A b) (ncols A + nrows A + 1)).
  { by destruct (setup_canonical self c A b Hwf) as [? _]. }
  destruct (run_pivots_shaped _ _ _ _ _ Hs0 Hrun) as [Hs Hb].
  rewrite setup_basis, length_seq in Hb.
  destruct (iterate_once_in_range s it s' _ Hs Hit) as (_ & j & r & -> & Hj & Hr).
  exists j, r. destruct Hs as [Hrect Hlen].
  split; [done|]. split; [lia|]. split; [lia|]. split; [lia|done].
Qed.

Lemma solve_in_range_witness :
  ∃ j r, pivot (setup init_solver [1] (Matrix 1 1 [[1]]) [5]) 0 0
         = pivot (setup init_solver [1] (Matrix 1 1 [[1]]) [5]) j r ∧
         (j < 1 + 1)%nat ∧ (r < 1)%nat ∧
         length (tableau (setup init_solver [1] (Matrix 1 1 [[1]]) [5])) = 2%nat ∧
         rectangular (tableau (setup init_solver [1] (Matrix 1 1 [[1]]) [5])) (1 + 1 + 1).
Proof.
  apply (solve_in_range init_solver [1] (Matrix 1 1 [[1]]) [5] 0 _ 0%Z).
  - repeat split. by repeat constructor.
  - reflexivity.
  - vm_compute. reflexivity.
Defined.

(** * Further properties of the solver *)

(** ** The constraint rows keep their solutions *)

Lemma pivot_satisfies_iff self j r w x :
  rectangular (tableau self) w → (0 < w)%nat →
  (r + 1 < length (tableau self))%nat →
  length x = (w - 1)%nat →
  ¬ pivot_element self j r == 0 →
  (satisfies (pivot self j r) x ↔ satisfies self x).
Proof.
  intros Hrect Hw Hrl Hxw Hp.
  pose proof (pivot_row_product self j r w x Hrect Hrl Hxw Hp) as Hprow.
  split.
  - intros Hsat'.
    assert (Hq : dot (but_last (tableau (pivot self j r) !!! (r + 1)%nat)) x
                 == rhs (tableau self) (r + 1) / pivot_element self j r).
    { rewrite (Hsat' (r + 1)%nat) by (rewrite pivot_tableau_length; lia).
      rewrite (pivot_rhs self j r w) by done. by rewrite decide_True. }
    intros k Hk. destruct (decide (k = (r + 1)%nat)) as [->|Hne].
    + rewrite Hq in Hprow.
      assert (He : dot (but_last (tableau self !!! (r + 1)%nat)) x
                   == dot (but_last (tableau self !!! (r + 1)%nat)) x
                      / pivot_element self j r * pivot_element self j r) by by field.
      rewrite He, <- Hprow. by field.
    + pose proof (reduced_row_product self j r w x Hrect Hrl Hxw k ltac:(lia) Hne) as Hrow.
      rewrite Hq in Hrow.
      rewrite (Hsat' k) in Hrow by (rewrite pivot_tableau_length; lia).
      rewrite (pivot_rhs self j r w) in Hrow by (done || lia).
      rewrite decide_False in Hrow by done.
      assert (He : dot (but_last (tableau self !!! k)) x
                   == dot (but_last (tableau self !!! k)) x
                      - entry (tableau self) k j
                        * (rhs (tableau self) (r + 1) / pivot_element self j r)
                      + entry (tableau self) k j
                        * (rhs (tableau self) (r + 1) / pivot_element self j r)) by ring.
      rewrite He, <- Hrow. ring.
  - intros Hsat k Hk. rewrite pivot_tableau_length in Hk.
    rewrite (pivot_rhs self j r w) by (done || lia).
    destruct (decide (k = (r + 1)%nat)) as [->|Hne].
    + rewrite Hprow. by rewrite (Hsat (r + 1)%nat) by lia.
    + rewrite (reduced_row_product self j r w x Hrect Hrl Hxw k) by (lia || done).
      rewrite Hprow. by rewrite (Hsat k), (Hsat (r + 1)%nat) by lia.
Qed.

(** X4. A pivot on a nonzero element does not change the set of vectors that
    solve the equations of the constraint rows. *)
Theorem pivot_preserves_solutions self j r w x :
  rectangular (tableau self) w → (0 < w)%nat →
  (r + 1 < length (tableau self))%nat →
  length x = (w - 1)%nat →
  ¬ pivot_element self j r == 0 →
  (satisfies (pivot self j r) x ↔ satisfies self x).
Proof.
  intros Hrect Hw Hrl Hxw Hp. split; intros Hsat.
  - by apply (pivot_satisfies_iff self j r w x).
  - by apply (pivot_satisfies_iff self j r w x).
Qed.

Lemma pivot_preserves_solutions_witness :
  satisfies (pivot two_rows_start 0 1) [3; 0; 1; 0]
  ↔ satisfies two_rows_start [3; 0; 1; 0].
Proof.
  apply (pivot_preserves_solutions _ 0 1 5).
  - by repeat constructor.
  - lia.
  - simpl. lia.
  - reflexivity.
  - intros H. vm_compute in H. discriminate H.
Defined.

Lemma run_pivots_snoc k it self s' :
  run_pivots (S k) it self = Some s' →
  ∃ s, run_pivots k it self = Some s ∧
       iterate_once s (it + Z.of_nat k) = Pivoted s'.
Proof.
  revert it self. induction k as [|k IH]; intros it self.
  - simpl. destruct (iterate_once self it) as [s1| |] eqn:E; [|done..].
    intros [= <-]. exists self. by rewrite Z.add_0_r.
  - intros H. change (run_pivots (S (S k)) it self)
      with (match iterate_once self it with
            | Pivoted s1 => run_pivots (S k) (it + 1)%Z s1
            | _ => None
            end) in H.
    destruct (iterate_once self it) as [s1| |] eqn:E; [|done..].
    destruct (IH _ _ H) as (s & Hs & Hit). exists s. simpl. rewrite E.
    split; [done|].
    by replace (it + Z.of_nat (S k))%Z with (it + 1 + Z.of_nat k)%Z by lia.
Qed.

Lemma stays_feasible_run self c A b k s :
  stays_feasible self c A b →
  run_pivots k 0 (setup self c A b) = Some s →
  feasible_run c A b s.
Proof.
  intros Hf. revert s. induction k as [|k IH]; intros s Hrun.
  - injection Hrun as <-. apply run_start.
  - apply run_pivots_snoc in Hrun as (s0 & Hs0 & Hit).
    eapply run_step; [by apply IH|by apply (Hf k)|done].
Qed.

Lemma feasible_run_satisfies c A b self x :
  wf_problem c A b → feasible_run c A b self →
  length x = (ncols A + nrows A)%nat →
  (satisfies self x ↔ satisfies (setup init_solver c A b) x).
Proof.
  intros Hwf Hrun Hx. induction Hrun as [self0|s it s' Hrun IH Hb Hit].
  - unfold satisfies. by rewrite !setup_tableau.
  - pose proof (feasible_run_canonical c A b s Hwf Hrun) as Hcan.
    apply iterate_once_Pivoted in Hit as (j & r & Hj & Hr & ->).
    destruct (feasible_pivot_facts c A s j r Hcan Hb Hj Hr) as (_ & Hrlt & Hp & _).
    destruct Hcan as ([Hrect Hlen] & Hm & _).
    rewrite <- IH.
    apply (pivot_satisfies_iff s j r (ncols A + nrows A + 1)); try done; try lia.
    lra.
Qed.

(** The unit row [e_i] picks the [i]-th entry. *)
Lemma dot_unit_row m i (x : list Q) :
  (i < m)%nat → length x = m →
  dot ((λ k, if (k =? i)%nat then 1 else 0) <$> seq 0 m) x == x !!! i.
Proof.
  intros Hi Hx.
  assert (Hl : ∀ k, (k < m)%nat →
            ((λ k, if (k =? i)%nat then 1 else 0) <$> seq 0 m) !!! k
            = if (k =? i)%nat then 1 else 0).
  { intros k Hk.
    rewrite (list_lookup_total_fmap (λ k : nat, if (k =? i)%nat then 1 else 0))
      by by rewrite length_seq.
    by rewrite lookup_total_seq_lt. }
  rewrite (dot_single _ _ i).
  - rewrite Hl by done. rewrite Nat.eqb_refl. ring.
  - by rewrite length_fmap, length_seq.
  - lia.
  - intros k Hk1 _ Hne. rewrite length_fmap, length_seq in Hk1.
    rewrite Hl by done. destruct (Nat.eqb_spec k i); [done|ring].
Qed.

(** The rows of the initial tableau say [A x + s = b]. *)
Lemma setup_satisfies self c A b xs sl :
  wf_problem c A b → length xs = ncols A → length sl = nrows A →
  (satisfies (setup self c A b) (xs ++ sl) ↔
   ∀ i row, mdata A !! i = Some row → dot row xs + sl !!! i == b !!! i).
Proof.
  intros Hwf Hxs Hsl. pose proof Hwf as ([Hrows Hcols] & Hc & Hb).
  assert (Hrow : ∀ i row, mdata A !! i = Some row →
            dot (but_last (tableau (setup self c A b) !!! S i)) (xs ++ sl)
            == dot row xs + sl !!! i
            ∧ rhs (tableau (setup self c A b)) (S i) = b !!! i).
  { intros i row Hi.
    assert (Him : (i < nrows A)%nat) by (apply lookup_lt_Some in Hi; lia).
    destruct (setup_row self c A b i Hwf Him) as (Ai & HAi & Hlen & Hr).
    assert (Ai = row) as -> by congruence.
    unfold rhs. rewrite Hr, but_last_snoc, last_of_snoc. split; [|done].
    rewrite dot_app by lia. by rewrite dot_unit_row. }
  split.
  - intros Hsat i row Hi.
    assert (Him : (i < nrows A)%nat) by (apply lookup_lt_Some in Hi; lia).
    destruct (Hrow i row Hi) as [Hd Hr]. rewrite <- Hd, <- Hr.
    apply Hsat. rewrite setup_length by done. lia.
  - intros H k Hk. rewrite setup_length in Hk by done.
    destruct k as [|i]; [lia|].
    destruct (lookup_lt_is_Some_2 (mdata A) i) as [row Hi]; [lia|].
    destruct (Hrow i row Hi) as [Hd Hr]. rewrite Hd, Hr. by apply H.
Qed.

(** ** What an optimal result is worth *)

Lemma sumQ_app l1 l2 : sumQ (l1 ++ l2) == sumQ l1 + sumQ l2.
Proof.
  induction l1 as [|a l1 IH]; simpl.
  - change (sumQ l2 == 0 + sumQ l2). ring.
  - change (a + sumQ (l1 ++ l2) == a + sumQ l1 + sumQ l2). rewrite IH. ring.
Qed.

Lemma sumQ_nonneg l : Forall (λ v, 0 <= v) l → 0 <= sumQ l.
Proof.
  induction 1 as [|a l Ha _ IH]; [done|].
  change (0 <= a + sumQ l). lra.
Qed.

(** A row whose entries are all at least [-eps] cannot pull the product with
    a nonnegative vector below [-eps] times the sum of that vector. *)
Lemma dot_lower_bound (u x : list Q) :
  Forall (λ a, - eps <= a) u → Forall (λ v, 0 <= v) x →
  - (eps * sumQ x) <= dot u x.
Proof.
  intros Hu. revert x. induction Hu as [|a u Ha _ IH]; intros x Hx.
  - pose proof (sumQ_nonneg x Hx). pose proof eps_pos.
    change (dot [] x) with 0.
    assert (0 <= eps * sumQ x) by (apply Qmult_le_0_compat; lra). lra.
  - destruct Hx as [|v x Hv Hx].
    + rewrite dot_nil_r. change (sumQ []) with 0. lra.
    + rewrite dot_cons. change (sumQ (v :: x)) with (v + sumQ x).
      specialize (IH x Hx).
      assert (0 <= (a + eps) * v) by (apply Qmult_le_0_compat; lra). lra.
Qed.

Lemma run_pivots_S k it self :
  run_pivots (S k) it self =
    match iterate_once self it with
    | Pivoted s1 => run_pivots k (it + 1)%Z s1
    | _ => None
    end.
Proof. done. Qed.

(** The state in which a call that returned ["optimal"] left the loop. *)
Lemma solve_optimal_state self c A b maxit r s' :
  solve self c A b maxit = (Ok r, s') → status r = "optimal" →
  ∃ k s, run_pivots k 0 (setup self c A b) = Some s ∧
         get_entering_variable s = None ∧
         res_solution r = Some (fst (extract_solution s)) ∧
         res_objective_value r = Some (snd (extract_solution s)).
Proof.
  intros Hs Hst. apply loop_result in Hs as (k & s & _ & Hrun & Hcase).
  destruct Hcase as [(_ & -> & _)|(_ & Hit & _ & _)]; [done|].
  exists k, s. split; [done|].
  by apply iterate_once_Returned in Hit as [(He & -> & _)|(j & _ & _ & -> & _)].
Qed.

Lemma basic_value_nonneg self v : rhs_nonneg self → 
  length (tail (tableau self)) = length (basis self) → 0 <= basic_value self v.
Proof.
  intros Hb Hlen. destruct (basic_value_cases self v) as [(i & Hi & ->)|[_ ->]]; [|done].
  apply lookup_lt_Some in Hi. apply Hb. lia.
Qed.

Lemma canonical_tail_length c A self :
  canonical c A self → length (tail (tableau self)) = length (basis self).
Proof.
  intros ([_ Hlen] & _). destruct (tableau self); simpl in *; lia.
Qed.

(** The basic solution of a canonical tableau with nonnegative right-hand
    sides is a feasible point of the problem. *)
Lemma canonical_feasible_point c A b self :
  wf_problem c A b → feasible_run c A b self → rhs_nonneg self →
  feasible_point A b (fst (extract_solution self)).
Proof.
  intros Hwf Hrun Hb.
  pose proof (feasible_run_canonical c A b self Hwf Hrun) as Hcan.
  pose proof (canonical_tail_length c A self Hcan) as Htail.
  pose proof Hcan as (_ & Hm & Hnv & _).
  rewrite (extract_solution_basic c A self Hcan).
  split; [by rewrite length_fmap, length_seq|]. split.
  - apply Forall_fmap, Forall_forall. intros v _. by apply basic_value_nonneg.
  - intros i row Hi.
    assert (Him : (i < nrows A)%nat).
    { apply lookup_lt_Some in Hi. destruct Hwf as ([Hrows _] & _). lia. }
    pose proof (basic_solution_satisfies c A self Hcan) as Hsat.
    apply (feasible_run_satisfies c A b self _ Hwf Hrun) in Hsat.
    2:{ rewrite basic_solution_length. lia. }
    unfold basic_solution in Hsat. rewrite Hnv, seq_app, fmap_app in Hsat.
    assert (Hl1 : length (basic_value self <$> seq 0 (ncols A)) = ncols A)
      by by rewrite length_fmap, length_seq.
    assert (Hl2 : length (basic_value self <$> seq (0 + ncols A) (nrows A)) = nrows A)
      by by rewrite length_fmap, length_seq.
    pose proof (proj1 (setup_satisfies init_solver c A b _ _ Hwf Hl1 Hl2) Hsat
                  i row Hi) as Hrow.
    clear Hsat. rename Hrow into Hsat.
    rewrite (list_lookup_total_fmap (basic_value self)) in Hsat
      by by rewrite length_seq.
    pose proof (basic_value_nonneg self (seq (0 + ncols A) (nrows A) !!! i) Hb Htail).
    lra.
Qed.

(** X8. When [solve] returns ["optimal"] for a well-shaped problem after a
    run through tableaux with nonnegative right-hand sides, the solution it
    returns is feasible: it has one entry per structural variable, every
    entry is nonnegative and [A x <= b] holds row by row. *)
Theorem optimal_solution_feasible self c A b max_iterations r self' :
  wf_problem c A b →
  stays_feasible self c A b →
  solve self c A b max_iterations = (Ok r, self') →
  status r = "optimal" →
  ∃ sol, res_solution r = Some sol ∧ feasible_point A b sol.
Proof.
  intros Hwf Hf Hs Hst.
  destruct (solve_optimal_state _ _ _ _ _ _ _ Hs Hst) as (k & s & Hrun & _ & Hsol & _).
  exists (fst (extract_solution s)). split; [done|].
  apply (canonical_feasible_point c); [done| |by apply (Hf k)].
  by apply (stays_feasible_run self c A b k).
Qed.

(** X9. Under the same conditions the solution is optimal up to the
    tolerance: no feasible point [x'] has an objective value above that of
    the returned solution by more than [eps] times the sum of the entries of
    [x'] and of its slacks [b - A x']. *)
Theorem optimal_solution_within_tolerance self c A b max_iterations r self' :
  wf_problem c A b →
  stays_feasible self c A b →
  solve self c A b max_iterations = (Ok r, self') →
  status r = "optimal" →
  ∃ sol, res_solution r = Some sol ∧
    ∀ x', feasible_point A b x' →
      dot c x' <= dot c sol + eps * (sumQ x' + sumQ (slack_of A b x')).
Proof.
  intros Hwf Hf Hs Hst.
  destruct (solve_optimal_state _ _ _ _ _ _ _ Hs Hst) as (k & s & Hrun & He & Hsol & _).
  exists (fst (extract_solution s)). split; [done|].
  intros x' (Hlen & Hpos & Hle).
  pose proof (stays_feasible_run self c A b k s Hf Hrun) as Hfr.
  pose proof (feasible_run_canonical c A b s Hwf Hfr) as Hcan.
  pose proof Hwf as ([Hrows Hcols] & Hc & Hb).
  assert (Hsl : length (slack_of A b x') = nrows A).
  { unfold slack_of. rewrite length_zip_with. lia. }
  assert (Hslv : ∀ i row, mdata A !! i = Some row →
            slack_of A b x' !!! i = b !!! i - dot row x').
  { intros i row Hi. unfold slack_of. apply list_lookup_total_correct.
    rewrite lookup_zip_with, Hi. simpl.
    destruct (lookup_lt_is_Some_2 b i) as [bi Hbi].
    { apply lookup_lt_Some in Hi. lia. }
    rewrite Hbi. simpl. by rewrite (list_lookup_total_correct _ _ _ Hbi). }
  assert (Hslpos : Forall (λ v, 0 <= v) (slack_of A b x')).
  { apply Forall_lookup. intros i v Hv.
    assert (Hi : (i < nrows A)%nat) by (apply lookup_lt_Some in Hv; lia).
    destruct (lookup_lt_is_Some_2 (mdata A) i) as [row Hrow]; [lia|].
    apply list_lookup_total_correct in Hv. rewrite (Hslv i row Hrow) in Hv.
    subst v. specialize (Hle i row Hrow). lra. }
  assert (Hsat : satisfies s (x' ++ slack_of A b x')).
  { apply (feasible_run_satisfies c A b s _ Hwf Hfr).
    - rewrite length_app. lia.
    - apply (setup_satisfies init_solver c A b); [done..|].
      intros i row Hi. rewrite (Hslv i row Hi). ring. }
  assert (Hobj : objective_of c s == rhs (tableau s) 0)
    by by apply (canonical_objective c A).
  unfold objective_of in Hobj.
  destruct Hcan as (Hshape & Hm & Hnv & Hnc & Hlt & Hunit & Hid).
  specialize (Hid (x' ++ slack_of A b x')).
  rewrite dot_app, dot_zeros in Hid by lia.
  assert (Hrow : - (eps * sumQ (x' ++ slack_of A b x'))
                 <= dot (obj_row s) (x' ++ slack_of A b x')).
  { apply dot_lower_bound; [by apply entering_None|by apply Forall_app]. }
  rewrite sumQ_app in Hrow.
  rewrite Hobj, <- Hid; [lra| |done].
  rewrite !length_app. unfold zeros. rewrite length_replicate. lia.
Qed.

(** X10. Under the same conditions the value returned under the key
    ["objective_value"] is the negation of [c · x] for the returned
    solution [x]. *)
Theorem optimal_objective_value_negated self c A b max_iterations r self' :
  wf_problem c A b →
  stays_feasible self c A b →
  solve self c A b max_iterations = (Ok r, self') →
  status r = "optimal" →
  ∃ sol obj, res_solution r = Some sol ∧ res_objective_value r = Some obj ∧
             obj == - dot c sol.
Proof.
  intros Hwf Hf Hs Hst.
  destruct (solve_optimal_state _ _ _ _ _ _ _ Hs Hst)
    as (k & s & Hrun & _ & Hsol & Hobj).
  exists (fst (extract_solution s)), (snd (extract_solution s)).
  split; [done|]. split; [done|].
  apply (returned_objective_negated c A b); [done|].
  by apply (stays_feasible_run self c A b k).
Qed.

Lemma scenario2_stays_feasible :
  stays_feasible init_solver [1] (Matrix 1 1 [[1]]) [5].
Proof.
  intros k s Hrun.
  assert (Hnn : ∀ s0, length (tail (tableau s0)) = 1%nat →
                      0 <= rhs (tableau s0) 1 → rhs_nonneg s0).
  { intros s0 Hlen H1 i Hi. rewrite Hlen in Hi. by assert (i = 1%nat) as -> by lia. }
  destruct k as [|[|k]].
  - injection Hrun as <-. apply Hnn; [done|]. vm_compute. discriminate.
  - vm_compute in Hrun. injection Hrun as <-. apply Hnn; [done|].
    vm_compute. discriminate.
  - rewrite run_pivots_S in Hrun.
    replace (iterate_once (setup init_solver [1] (Matrix 1 1 [[1]]) [5]) 0)
      with (Pivoted (pivot (setup init_solver [1] (Matrix 1 1 [[1]]) [5]) 0 0))
      in Hrun by (vm_compute; reflexivity).
    rewrite run_pivots_S in Hrun.
    destruct (iterate_once (pivot (setup init_solver [1] (Matrix 1 1 [[1]]) [5]) 0 0)
                           (0 + 1)) eqn:E; [|done..].
    vm_compute in E. discriminate E.
Qed.

Lemma scenario2_wf : wf_problem [1] (Matrix 1 1 [[1]]) [5].
Proof. repeat split. by repeat constructor. Qed.

Lemma optimal_solution_feasible_witness :
  ∃ sol, res_solution (mkResult "optimal" (Some [5]) (Some (- (5))) 1) = Some sol ∧
         feasible_point (Matrix 1 1 [[1]]) [5] sol.
Proof.
  apply (optimal_solution_feasible init_solver [1] (Matrix 1 1 [[1]]) [5]
           default_max_iterations _ (snd scenario2)).
  - exact scenario2_wf.
  - exact scenario2_stays_feasible.
  - vm_compute. reflexivity.
  - reflexivity.
Defined.

Lemma optimal_solution_within_tolerance_witness :
  ∃ sol, res_solution (mkResult "optimal" (Some [5]) (Some (- (5))) 1) = Some sol ∧
    ∀ x', feasible_point (Matrix 1 1 [[1]]) [5] x' →
      dot [1] x' <= dot [1] sol
                    + eps * (sumQ x' + sumQ (slack_of (Matrix 1 1 [[1]]) [5] x')).
Proof.
  apply (optimal_solution_within_tolerance init_solver [1] (Matrix 1 1 [[1]]) [5]
           default_max_iterations _ (snd scenario2)).
  - exact scenario2_wf.
  - exact scenario2_stays_feasible.
  - vm_compute. reflexivity.
  - reflexivity.
Defined.

Lemma optimal_objective_value_negated_witness :
  ∃ sol obj,
    res_solution (mkResult "optimal" (Some [5]) (Some (- (5))) 1) = Some sol ∧
    res_objective_value (mkResult "optimal" (Some [5]) (Some (- (5))) 1) = Some obj ∧
    obj == - dot [1] sol.
Proof.
  apply (optimal_objective_value_negated init_solver [1] (Matrix 1 1 [[1]]) [5]
           default_max_iterations _ (snd scenario2)).
  - exact scenario2_wf.
  - exact scenario2_stays_feasible.
  - vm_compute. reflexivity.
  - reflexivity.
Defined.

(** ** When the ratio test raises *)

Lemma quotient_sign self j i :
  0 < entry (tableau self) (i + 1) j →
  (0 <= quotient self j i ↔ 0 <= rhs (tableau self) (i + 1)).
Proof.
  intros Hpos. unfold quotient. split; intros H.
  - assert (He : rhs (tableau self) (i + 1)
                 == rhs (tableau self) (i + 1) / entry (tableau self) (i + 1) j
                    * entry (tableau self) (i + 1) j) by (field; lra).
    rewrite He. apply Qmult_le_0_compat; lra.
  - apply Qle_shift_div_l; lra.
Qed.

Lemma leaving_raise_cases self j e :
  get_leaving_variable self j = Raise e ↔
  e = ValueError "min() arg is an empty sequence" ∧
  (0 < length (tail (tableau self)))%nat ∧
  ∀ i, (i < length (tail (tableau self)))%nat →
       eps < entry (tableau self) (i + 1) j ∧ rhs (tableau self) (i + 1) < 0.
Proof.
  pose proof eps_pos as Heps. split.
  - intros Hr.
    assert (He : filter (λ r : ratio * nat, ratio_nonneg r.1 = true)
                   (ratios_of (column_of self j) (rhs_column self)) = []
                 ∧ e = ValueError "min() arg is an empty sequence"
                 ∧ ∃ i, candidate self j i).
    { destruct (leaving_cases self j) as [[_ Hn]|[Hex [(x & Hx & _)|(Hnil & _)]]];
        [congruence..|].
      split; [done|]. split; [|done].
      unfold get_leaving_variable in Hr. cbv zeta in Hr.
      destruct (forallb _ _); [done|]. rewrite Hnil in Hr. simpl in Hr. congruence. }
    destruct He as (Hnil & -> & i0 & Hi0 & _). split; [done|]. split; [lia|].
    intros i Hi.
    assert (Hc : eps < entry (tableau self) (i + 1) j).
    { apply Qnot_le_lt. intros Hle.
      assert (Hin : (Inf, i) ∈ filter (λ r : ratio * nat, ratio_nonneg r.1 = true)
                      (ratios_of (column_of self j) (rhs_column self))).
      { apply leaving_pairs_elem. simpl. split; [done|]. right. split; [|done].
        intros [_ Hc]. lra. }
      rewrite Hnil in Hin. by apply elem_of_nil in Hin. }
    split; [done|]. apply Qnot_le_lt. intros Hle.
    assert (Hin : (Fin (quotient self j i), i)
                  ∈ filter (λ r : ratio * nat, ratio_nonneg r.1 = true)
                      (ratios_of (column_of self j) (rhs_column self))).
    { apply leaving_pairs_elem. simpl. split; [done|]. left.
      split; [by split|]. split; [done|]. apply quotient_sign; [lra|done]. }
    rewrite Hnil in Hin. by apply elem_of_nil in Hin.
  - intros (-> & Hm & Hall).
    assert (Hnil : filter (λ r : ratio * nat, ratio_nonneg r.1 = true)
                     (ratios_of (column_of self j) (rhs_column self)) = []).
    { apply elem_of_nil_inv. intros x Hx.
      apply leaving_pairs_elem in Hx as [Hlt Hcase].
      destruct (Hall _ Hlt) as [Hc Hneg].
      destruct Hcase as [(_ & _ & Hq)|[Hnc _]].
      - apply quotient_sign in Hq; lra.
      - apply Hnc. by split. }
    destruct (leaving_cases self j) as [[Hn _]|[_ [(x & _ & Hx & _)|(_ & e & He)]]].
    + destruct (Hn 0%nat). split; [done|]. by apply Hall.
    + rewrite Hnil in Hx. by apply elem_of_nil in Hx.
    + rewrite He. f_equal.
      unfold get_leaving_variable in He. cbv zeta in He.
      destruct (forallb _ _); [done|]. rewrite Hnil in He. simpl in He. congruence.
Qed.


Lemma leaving_no_raise self j e :
  rhs_nonneg self → get_leaving_variable self j ≠ Raise e.
Proof.
  intros Hb Hr. apply leaving_raise_cases in Hr as (_ & Hm & Hall).
  destruct (Hall 0%nat Hm) as [_ Hneg].
  assert (0 <= rhs (tableau self) (0 + 1)) by (apply Hb; simpl; lia). lra.
Qed.

Lemma loop_returns n maxit it self :
  (∀ k s, run_pivots k it self = Some s → rhs_nonneg s) →
  ∃ r s', simplex_loop n maxit it self = (Ok r, s').
Proof.
  revert it self. induction n as [|n IH]; intros it self Hf; simpl.
  - by eexists _, _.
  - destruct (iterate_once self it) as [s1|r1 s1|e s1] eqn:E.
    + apply IH. intros k s Hk. apply (Hf (S k)). by rewrite run_pivots_S, E.
    + by eexists _, _.
    + exfalso. unfold iterate_once in E.
      destruct (get_entering_variable self) as [j|].
      * destruct (get_leaving_variable self j) as [[l|]|e'] eqn:El; try done.
        by apply (leaving_no_raise self j e' (Hf 0%nat self eq_refl)).
      * by destruct (extract_solution self).
Qed.

(** X6. A call of [solve] on a well-shaped problem that only goes through
    tableaux with nonnegative right-hand sides does not raise: it returns a
    result dictionary. *)
Theorem solve_returns_when_feasible self c A b max_iterations :
  wf_problem c A b →
  stays_feasible self c A b →
  ∃ r self', solve self c A b max_iterations = (Ok r, self').
Proof.
  intros _ Hf. apply loop_returns. exact Hf.
Qed.

Lemma solve_returns_when_feasible_witness :
  ∃ r self', solve init_solver [1] (Matrix 1 1 [[1]]) [5] default_max_iterations
             = (Ok r, self').
Proof.
  apply solve_returns_when_feasible.
  - exact scenario2_wf.
  - exact scenario2_stays_feasible.
Defined.


(** ** What one pivot does *)

(** X3. A pivot on a nonzero element turns the entering column into a unit
    vector: 1 in the pivot row and 0 in every other row, the objective row
    included. *)
Theorem pivot_entering_column_unit self j r w :
  rectangular (tableau self) w →
  (r + 1 < length (tableau self))%nat → (j < w)%nat →
  ¬ pivot_element self j r == 0 →
  ∀ k, (k < length (tableau self))%nat →
    entry (tableau (pivot self j r)) k j == if decide (k = (r + 1)%nat) then 1 else 0.
Proof.
  intros Hrect Hr Hj Hp k Hk.
  rewrite (pivot_entry self j r w) by done.
  destruct (decide (k = (r + 1)%nat)) as [->|Hne].
  - fold (pivot_element self j r). by field.
  - fold (pivot_element self j r). by field.
Qed.

Lemma pivot_entering_column_unit_witness :
  entry (tableau (pivot negative_rhs_start 0 1)) 0 0
  == if decide (0%nat = (1 + 1)%nat) then 1 else 0.
Proof.
  apply (pivot_entering_column_unit negative_rhs_start 0 1 4).
  - by repeat constructor.
  - simpl. lia.
  - lia.
  - intros H. discriminate H.
  - simpl. lia.
Defined.

(** X7. In exact arithmetic, after a pivot on a candidate row with the
    least quotient among the candidate rows, in a tableau with nonnegative
    right-hand sides, a right-hand side can be negative only in a row whose
    entry in the entering column lies in [(0, eps]], the rows the ratio test
    passes over, and then by at most [eps] times the quotient of the pivot
    row. *)
Theorem pivot_rhs_lower_bound self j r w :
  rectangular (tableau self) w → (0 < w)%nat →
  rhs_nonneg self →
  candidate self j r →
  (∀ k, candidate self j k → quotient self j r <= quotient self j k) →
  ∀ i, (1 ≤ i < length (tableau self))%nat →
    - (eps * quotient self j r) <= rhs (tableau (pivot self j r)) i
    ∧ (¬ (0 < entry (tableau self) i j ∧ entry (tableau self) i j <= eps) →
       0 <= rhs (tableau (pivot self j r)) i).
Proof.
  intros Hrect Hw Hb Hc Hmin i Hi. pose proof eps_pos as Heps.
  pose proof (quotient_nonneg self j r Hb Hc) as Hq.
  assert (Htail : length (tail (tableau self)) = (length (tableau self) - 1)%nat).
  { destruct (tableau self); simpl; lia. }
  destruct Hc as [Hrlt Hp].
  rewrite (pivot_rhs self j r w) by (done || lia).
  change (rhs (tableau self) (r + 1) / pivot_element self j r)
    with (quotient self j r).
  assert (Hprod : 0 <= eps * quotient self j r) by (apply Qmult_le_0_compat; lra).
  destruct (decide (i = (r + 1)%nat)) as [->|Hne].
  { change (rhs (tableau self) (r + 1) / pivot_element self j r)
      with (quotient self j r). split; [lra|intros _; done]. }
  assert (Hbi : 0 <= rhs (tableau self) i) by (apply Hb; lia).
  set (a := entry (tableau self) i j) in *.
  destruct (Qlt_le_dec 0 a) as [Hpos|Hneg].
  - destruct (Qlt_le_dec eps a) as [Hcand|Hsmall].
    + assert (Hk : candidate self j (i - 1)).
      { split; [lia|]. by replace (i - 1 + 1)%nat with i by lia. }
      pose proof (Hmin (i - 1)%nat Hk) as Hle.
      unfold quotient at 2 in Hle. replace (i - 1 + 1)%nat with i in Hle by lia.
      fold a in Hle.
      assert (Ha : a * quotient self j r <= rhs (tableau self) i).
      { assert (He : rhs (tableau self) i == rhs (tableau self) i / a * a)
          by (field; lra).
        rewrite He, (Qmult_comm a). apply Qmult_le_compat_r; lra. }
      split; [lra|intros _; lra].
    + assert (Ha : a * quotient self j r <= eps * quotient self j r).
      { apply Qmult_le_compat_r; done. }
      split; [lra|]. intros Hn. destruct Hn. by split.
  - assert (Ha : 0 <= - a * quotient self j r)
      by (apply Qmult_le_0_compat; lra).
    split; [lra|intros _; lra].
Qed.

Lemma pivot_rhs_lower_bound_witness :
  - (eps * quotient two_rows_start 0 1) <= rhs (tableau (pivot two_rows_start 0 1)) 1
  ∧ (¬ (0 < entry (tableau two_rows_start) 1 0
        ∧ entry (tableau two_rows_start) 1 0 <= eps) →
     0 <= rhs (tableau (pivot two_rows_start 0 1)) 1).
Proof.
  apply (pivot_rhs_lower_bound _ 0 1 5).
  - by repeat constructor.
  - lia.
  - intros i Hi. simpl in Hi.
    assert (i = 1 ∨ i = 2)%nat as [-> | ->] by lia; vm_compute; discriminate.
  - split; [simpl; lia|]. vm_compute. reflexivity.
  - intros k [Hk _]. simpl in Hk.
    assert (k = 0 ∨ k = 1)%nat as [-> | ->] by lia; vm_compute; discriminate.
  - simpl. lia.
Defined.

(** X11. In exact arithmetic, in every state the loop of [solve] reaches
    by pivots on nonzero elements, a pivot on the entering column and a
    candidate row with a nonnegative right-hand side raises the true
    objective value [c · x] by at least [eps] times the quotient of that
    row. *)
Theorem pivot_objective_gain c A b self j r :
  wf_problem c A b →
  pivoting_run c A b self →
  get_entering_variable self = Some j →
  candidate self j r →
  0 <= rhs (tableau self) (r + 1) →
  objective_of c self + eps * quotient self j r <= objective_of c (pivot self j r).
Proof.
  intros Hwf Hrun Hj Hc Hb.
  pose proof (pivoting_run_canonical c A b self Hwf Hrun) as Hcan.
  assert (Hlen : length c = ncols A) by apply Hwf.
  rewrite (candidate_pivot_objective c A self j r Hlen Hcan Hj Hc).
  destruct (entering_column c A self j Hcan Hj) as [_ Ha].
  pose proof (candidate_quotient_nonneg self j r Hc Hb) as Hq.
  assert (Hprod : 0 <= (- entry (tableau self) 0 j - eps) * quotient self j r).
  { apply Qmult_le_0_compat; [lra|done]. }
  lra.
Qed.

Lemma pivot_objective_gain_witness :
  objective_of [1] (setup init_solver [1] (Matrix 1 1 [[1]]) [5])
  + eps * quotient (setup init_solver [1] (Matrix 1 1 [[1]]) [5]) 0 0
  <= objective_of [1] (pivot (setup init_solver [1] (Matrix 1 1 [[1]]) [5]) 0 0).
Proof.
  apply (pivot_objective_gain [1] (Matrix 1 1 [[1]]) [5]).
  - exact scenario2_wf.
  - apply pivoting_start.
  - vm_compute. reflexivity.
  - split; [simpl; lia|]. vm_compute. reflexivity.
  - vm_compute. discriminate.
Defined.

(** X12. On a run through tableaux with nonnegative right-hand sides the
    basis has one entry per constraint, no variable occurs in it twice, and
    every entry is the index of a structural or slack variable, never of
    the right-hand-side column. *)
Theorem feasible_run_basis_distinct c A b self :
  wf_problem c A b →
  feasible_run c A b self →
  length (basis self) = nrows A ∧ NoDup (basis self) ∧
  Forall (λ v, (v < ncols A + nrows A)%nat) (basis self).
Proof.
  intros Hwf Hrun.
  pose proof (feasible_run_canonical c A b self Hwf Hrun) as Hcan.
  split; [apply Hcan|]. split; [|apply Hcan].
  apply NoDup_alt. intros i i' v Hi Hi'.
  by apply (canonical_basis_unique c A self i i' v).
Qed.

Lemma feasible_run_basis_distinct_witness :
  length (basis (pivot two_rows_start 0 1)) = 2%nat ∧
  NoDup (basis (pivot two_rows_start 0 1)) ∧
  Forall (λ v, (v < 2 + 2)%nat) (basis (pivot two_rows_start 0 1)).
Proof.
  apply (feasible_run_basis_distinct [1; 1] (Matrix 2 2 [[1; 1]; [2; 1]]) [4; 6]).
  - repeat split. by repeat constructor.
  - apply (run_step _ _ _ two_rows_start 0).
    + apply run_start.
    + intros i Hi. simpl in Hi.
      assert (i = 1 ∨ i = 2)%nat as [-> | ->] by lia; vm_compute; discriminate.
    + vm_compute. reflexivity.
Defined.

(** ** The initial tableau *)

(** X1. For a well-shaped problem the state in which the loop of [solve]
    starts holds the tableau [[-c | 0 | 0], [A | I | b]] of [m + 1] rows and
    [n + m + 1] columns, built by [standard_form] and
    [create_initial_tableau], and the basis [[n, ..., n + m - 1]] of the
    slack variables. *)
Theorem initial_tableau_layout self c A b :
  wf_problem c A b →
  length (tableau (setup self c A b)) = S (nrows A) ∧
  rectangular (tableau (setup self c A b)) (ncols A + nrows A + 1) ∧
  (∀ v, (v < ncols A)%nat → entry (tableau (setup self c A b)) 0 v = - c !!! v) ∧
  (∀ k, (k < nrows A)%nat →
     entry (tableau (setup self c A b)) 0 (ncols A + k) == 0) ∧
  rhs (tableau (setup self c A b)) 0 = 0 ∧
  (∀ i row, mdata A !! i = Some row →
     (∀ v, (v < ncols A)%nat →
        entry (tableau (setup self c A b)) (i + 1) v = row !!! v) ∧
     (∀ k, (k < nrows A)%nat →
        entry (tableau (setup self c A b)) (i + 1) (ncols A + k)
        = if decide (k = i) then 1 else 0) ∧
     rhs (tableau (setup self c A b)) (i + 1) = b !!! i) ∧
  basis (setup self c A b) = seq (ncols A) (nrows A) ∧
  num_variables (setup self c A b) = (ncols A + nrows A)%nat ∧
  num_constraints (setup self c A b) = nrows A.
Proof.
  intros Hwf. pose proof Hwf as ([Hrows Hcols] & Hc & Hb).
  split; [by apply setup_length|]. split; [by apply setup_rectangular|].
  assert (Hrow0 : tableau (setup self c A b) !!! 0%nat
                  = (Qopp <$> (c ++ zeros (nrows A))) ++ [0]) by done.
  assert (Hlen0 : length (Qopp <$> (c ++ zeros (nrows A))) = (ncols A + nrows A)%nat).
  { rewrite length_fmap, length_app. unfold zeros. rewrite length_replicate. lia. }
  assert (Hlenc : length (c ++ zeros (nrows A)) = (ncols A + nrows A)%nat).
  { by rewrite length_fmap in Hlen0. }
  split; [|split; [|split; [|split; [|split; [|done]]]]].
  - intros v Hv. unfold entry. rewrite Hrow0.
    rewrite lookup_total_app_l by lia.
    rewrite (list_lookup_total_fmap Qopp) by lia.
    by rewrite lookup_total_app_l by lia.
  - intros k Hk. unfold entry. rewrite Hrow0.
    rewrite lookup_total_app_l by lia.
    rewrite (list_lookup_total_fmap Qopp) by lia.
    rewrite lookup_total_app_r by lia. rewrite zeros_lookup. reflexivity.
  - unfold rhs. rewrite Hrow0. apply last_of_snoc.
  - intros i row Hi.
    assert (Him : (i < nrows A)%nat) by (apply lookup_lt_Some in Hi; lia).
    destruct (setup_row self c A b i Hwf Him) as (Ai & HAi & Hlen & Hr).
    assert (Ai = row) as -> by congruence.
    replace (i + 1)%nat with (S i) by lia. unfold entry, rhs. rewrite Hr.
    split; [|split].
    + intros v Hv. rewrite lookup_total_app_l
        by (rewrite length_app, length_fmap, length_seq; lia).
      by rewrite lookup_total_app_l by lia.
    + intros k Hk. rewrite lookup_total_app_l
        by (rewrite length_app, length_fmap, length_seq; lia).
      rewrite lookup_total_app_r by lia.
      rewrite (list_lookup_total_fmap (λ k0 : nat, if (k0 =? i)%nat then 1 else 0))
        by (rewrite length_seq; lia).
      rewrite lookup_total_seq_lt by lia.
      replace (0 + (ncols A + k - length row))%nat with k by lia.
      destruct (Nat.eqb_spec k i); [by rewrite decide_True|by rewrite decide_False].
    + apply last_of_snoc.
  - apply setup_basis.
Qed.

Lemma initial_tableau_layout_witness :
  basis (setup init_solver [1] (Matrix 1 1 [[1]]) [5]) = seq 1 1 ∧
  rhs (tableau (setup init_solver [1] (Matrix 1 1 [[1]]) [5])) 0 = 0.
Proof.
  destruct (initial_tableau_layout init_solver [1] (Matrix 1 1 [[1]]) [5])
    as (_ & _ & _ & _ & Hrhs & _ & Hbasis & _).
  - repeat split. by repeat constructor.
  - split; [exact Hbasis|exact Hrhs].
Defined.

(** ** Edge cases of [solve] *)

Lemma extract_loop_untouched T ns i bs sol :
  Forall (λ v, (ns ≤ v)%nat) bs → extract_loop T ns i bs sol = sol.
Proof.
  intros Hbs. revert i sol. induction Hbs as [|v bs Hv _ IH]; intros i sol; simpl.
  - done.
  - apply Nat.ltb_ge in Hv as ->. apply IH.
Qed.

Lemma setup_obj_row self c A b :
  obj_row (setup self c A b) = Qopp <$> (c ++ zeros (nrows A)).
Proof. unfold obj_row. rewrite setup_tableau. simpl. apply but_last_snoc. Qed.

Lemma setup_extract_solution self c A b :
  extract_solution (setup self c A b) = (zeros (ncols A), - 0).
Proof.
  unfold extract_solution. rewrite setup_basis.
  rewrite (proj1 (setup_sizes self c A b)), (proj2 (setup_sizes self c A b)).
  replace (ncols A + nrows A - nrows A)%nat with (ncols A) by lia.
  rewrite extract_loop_untouched.
  2:{ apply Forall_forall. intros v Hv. apply elem_of_seq in Hv. lia. }
  f_equal.
  - unfold zeros. rewrite take_replicate. f_equal. lia.
  - unfold rhs. rewrite setup_tableau. simpl. by rewrite last_of_snoc.
Qed.

(** X13. When no objective coefficient exceeds [eps], [solve] (allowed at
    least one pass) returns ["optimal"] at once: the origin, objective value
    0 and 0 iterations, whatever the constraints are. *)
Theorem solve_flat_objective self c A b max_iterations :
  wf_problem c A b →
  Forall (λ cj, cj <= eps) c →
  (0 < max_iterations)%Z →
  fst (solve self c A b max_iterations)
  = Ok (mkResult "optimal" (Some (zeros (ncols A))) (Some 0) 0).
Proof.
  intros _ Hc Hmax. unfold solve.
  destruct (Z.to_nat max_iterations) as [|n] eqn:En; [lia|]. simpl.
  assert (He : get_entering_variable (setup self c A b) = None).
  { apply entering_None. rewrite setup_obj_row. apply Forall_fmap, Forall_app. split.
    - eapply Forall_impl; [exact Hc|]. intros cj Hcj.
      change (- eps <= - cj). cbv beta in Hcj. lra.
    - apply Forall_forall. intros z Hz. apply elem_of_replicate in Hz as [-> _].
      change (- eps <= - 0). pose proof eps_pos. lra. }
  unfold iterate_once. rewrite He, setup_extract_solution. done.
Qed.

Lemma solve_flat_objective_witness :
  fst (solve init_solver [0] (Matrix 1 1 [[1]]) [5] 1)
  = Ok (mkResult "optimal" (Some (zeros 1)) (Some 0) 0).
Proof.
  apply solve_flat_objective.
  - repeat split. by repeat constructor.
  - repeat constructor. discriminate.
  - lia.
Defined.

(** X14. For a problem without constraints ([A] has no rows) and with an
    objective coefficient above [eps], [solve] returns ["unbounded"] after 0
    iterations. *)
Theorem solve_no_constraints self c A b max_iterations :
  wf_problem c A b →
  nrows A = 0%nat →
  Exists (λ cj, eps < cj) c →
  (0 < max_iterations)%Z →
  fst (solve self c A b max_iterations) = Ok (mkResult "unbounded" None None 0).
Proof.
  intros Hwf Hm Hc Hmax. unfold solve.
  destruct (Z.to_nat max_iterations) as [|n] eqn:En; [lia|]. simpl.
  destruct (get_entering_variable (setup self c A b)) as [j|] eqn:He.
  - assert (Hl : get_leaving_variable (setup self c A b) j = Ok None).
    { apply leaving_None. intros i [Hi _].
      pose proof (setup_length self c A b Hwf) as Hlen.
      destruct (tableau (setup self c A b)); simpl in *; lia. }
    unfold iterate_once. by rewrite He, Hl.
  - apply entering_None in He. rewrite setup_obj_row in He.
    apply Exists_exists in Hc as (cj & Hin & Hcj).
    rewrite Forall_forall in He. specialize (He (- cj)).
    assert (- eps <= - cj); [|lra].
    apply He. apply list_elem_of_fmap. exists cj. split; [done|].
    apply elem_of_app. by left.
Qed.

Lemma solve_no_constraints_witness :
  fst (solve init_solver [1] (Matrix 0 1 []) [] 1000)
  = Ok (mkResult "unbounded" None None 0).
Proof.
  apply solve_no_constraints.
  - repeat split. constructor.
  - reflexivity.
  - constructor. reflexivity.
  - lia.
Defined.

(** * Further properties of the model *)

(** ** Shapes of the standard form *)

Lemma fill_terms_length f ts a a' :
  fill_terms f ts a = Ok a' → length a' = length a.
Proof.
  revert a. induction ts as [|[var coef] ts IH]; intros a; simpl.
  - by intros [= ->].
  - unfold setitem. destruct (index var <? length a)%nat; [|done].
    intros H. apply IH in H. by rewrite H, length_insert.
Qed.

Lemma constraint_row_length n cst row bi :
  constraint_row n cst = Ok (row, bi) → length row = n.
Proof.
  intros H. apply constraint_row_Ok in H as (row0 & Hrow0 & Hcase).
  unfold coefficient_row in Hrow0. apply fill_terms_length in Hrow0.
  unfold zeros in Hrow0. rewrite length_replicate in Hrow0.
  destruct Hcase as [(_ & -> & _)|(_ & -> & _)]; [done|by rewrite length_fmap].
Qed.

Lemma constraints_loop_shape n cs A b :
  constraints_loop n cs = Ok (A, b) →
  length A = length cs ∧ length b = length cs ∧
  Forall (λ row : list Q, length row = n) A.
Proof.
  revert A b. induction cs as [|c0 cs IH]; intros A b; simpl.
  - by intros [= <- <-].
  - destruct (constraint_row n c0) as [[row bi]|e] eqn:E0; [|done].
    destruct (constraints_loop n cs) as [[A' b']|e]; [|done].
    intros [= <- <-]. destruct (IH A' b' eq_refl) as (HA & Hb & Hrows).
    simpl. split; [lia|]. split; [lia|].
    constructor; [by apply (constraint_row_length n c0 row bi)|done].
Qed.

(** X15. Whenever [to_standard_form] returns, it returns a well-shaped
    problem: [c] has one entry per variable of the model, [A] one row per
    constraint and one column per variable, [b] one entry per constraint. *)
Theorem standard_form_shape self c A b :
  to_standard_form self = Ok (c, A, b) →
  wf_problem c A b ∧
  ncols A = length (variables self) ∧ nrows A = length (constraints self).
Proof.
  unfold to_standard_form.
  destruct (match objective self with Some _ => _ | None => _ end) as [c0|e] eqn:Ec;
    [|done].
  destruct (constraints_loop _ _) as [[A0 b0]|e] eqn:EA; [|done].
  intros [= <- <- <-]. apply constraints_loop_shape in EA as (HA & Hb & Hrows).
  assert (Hc : length c0 = length (variables self)).
  { destruct (objective self) as [obj|].
    - apply fill_terms_length in Ec. unfold zeros in Ec.
      by rewrite length_replicate in Ec.
    - injection Ec as <-. unfold zeros. by rewrite length_replicate. }
  by repeat split.
Qed.

Lemma standard_form_shape_witness :
  wf_problem [3; 4] (Matrix 3 2 [[2; 3]; [- (1); - 0]; [1; 1]])
             [6 - 0; - (1 - 0); 3 - 0]
  ∧ 2%nat = length (variables example_model)
  ∧ 3%nat = length (constraints example_model).
Proof.
  apply (standard_form_shape example_model). reflexivity.
Defined.

(** ** What the coefficient arrays mean *)

Lemma dot_insert (a x : list Q) i v :
  (i < length a)%nat →
  dot (<[i := v]> a) x == dot a x + (v - a !!! i) * x !!! i.
Proof.
  revert x i. induction a as [|a0 a IH]; intros x i Hi; [simpl in Hi; lia|].
  destruct x as [|x0 x].
  - rewrite !dot_nil_r. change ([] !!! i) with 0. ring.
  - destruct i as [|i]; simpl.
    + rewrite !dot_cons. ring.
    + rewrite !dot_cons. simpl in Hi. rewrite IH by lia. ring.
Qed.

(** The array the loop [a[var.index] = f(coef)] fills, on terms with
    distinct indices that the array does not hold yet. *)
Lemma fill_terms_dot f ts a0 a x :
  NoDup ((λ t : LPVariable * Q, index (fst t)) <$> ts) →
  Forall (λ t : LPVariable * Q, a0 !!! index (fst t) = 0) ts →
  fill_terms f ts a0 = Ok a →
  dot a x == dot a0 x + foldr (λ t acc, f (snd t) * x !!! index (fst t) + acc) 0 ts.
Proof.
  revert a0. induction ts as [|[var coef] ts IH]; intros a0 Hnd Hz; simpl.
  - intros [= ->]. ring.
  - apply NoDup_cons in Hnd as [Hnin Hnd]. apply Forall_cons in Hz as [Hz0 Hz].
    simpl in *. unfold setitem.
    destruct (index var <? length a0)%nat eqn:El; [|done].
    apply Nat.ltb_lt in El. intros H.
    assert (Hz' : Forall (λ t : LPVariable * Q,
                            <[index var := f coef]> a0 !!! index (fst t) = 0) ts).
    { apply Forall_forall. intros t Ht. rewrite Forall_forall in Hz.
      rewrite list_lookup_total_insert_ne; [by apply Hz|].
      intros Heq. apply Hnin. apply list_elem_of_fmap. by exists t. }
    rewrite (IH (<[index var := f coef]> a0) Hnd Hz' H).
    rewrite dot_insert by done. rewrite Hz0. ring.
Qed.

Lemma eval_terms_opp x ts :
  foldr (λ (t : LPVariable * Q) acc, - snd t * x !!! index (fst t) + acc) 0 ts
  == - eval_terms x ts.
Proof.
  unfold eval_terms. induction ts as [|t ts IH]; simpl; [reflexivity|].
  rewrite IH. ring.
Qed.

Lemma zeros_all_zero n ts :
  Forall (λ t : LPVariable * Q, zeros n !!! index (fst t) = 0) ts.
Proof. apply Forall_forall. intros t _. apply zeros_lookup. Qed.

(** X16. The objective vector [to_standard_form] returns stands for the
    terms of the objective, negated unless the sense of the model is
    ["maximize"]: [c · x] is the sum of [coef * x[var.index]], or its
    negation.  The constant of the objective expression is dropped. *)
Theorem standard_form_objective self c A b obj x :
  to_standard_form self = Ok (c, A, b) →
  objective self = Some obj →
  distinct_indices obj →
  dot c x == if String.eqb (msense self) "maximize"
             then eval_terms x (terms obj) else - eval_terms x (terms obj).
Proof.
  unfold to_standard_form. intros H Hobj Hnd. rewrite Hobj in H.
  destruct (fill_terms _ (terms obj) _) as [c0|e] eqn:Ec; [|done].
  destruct (constraints_loop _ _) as [[A0 b0]|e]; [|done].
  injection H as <- <- <-.
  apply (fill_terms_dot _ _ _ _ x Hnd (zeros_all_zero _ _)) in Ec.
  rewrite Ec, dot_zeros.
  destruct (String.eqb (msense self) "maximize").
  - unfold eval_terms. ring.
  - rewrite eval_terms_opp. ring.
Qed.

Lemma standard_form_objective_witness :
  dot [3; 4] [1; 2]
  == if String.eqb (msense example_model) "maximize"
     then eval_terms [1; 2] [(var_x, 3); (var_y, 4)]
     else - eval_terms [1; 2] [(var_x, 3); (var_y, 4)].
Proof.
  apply (standard_form_objective example_model [3; 4]
           (Matrix 3 2 [[2; 3]; [- (1); - 0]; [1; 1]]) [6 - 0; - (1 - 0); 3 - 0]
           (mkExpr [(var_x, 3); (var_y, 4)] 0)).
  - reflexivity.
  - reflexivity.
  - unfold distinct_indices. simpl. apply NoDup_cons. split.
    + intros H. apply list_elem_of_singleton in H. discriminate H.
    + apply NoDup_singleton.
Defined.

Lemma dot_opp_row (u x : list Q) : dot (Qopp <$> u) x == - dot u x.
Proof.
  revert x. induction u as [|a u IH]; intros x; [reflexivity|].
  destruct x as [|y x]; [reflexivity|].
  change (dot (- a :: (Qopp <$> u)) (y :: x) == - dot (a :: u) (y :: x)).
  rewrite !dot_cons, IH. ring.
Qed.

(** X17. The row [to_standard_form] builds for a constraint means what the
    constraint says when its sense is ['<='] or ['>=']: a point satisfies
    [A[i] · x <= b[i]] exactly when the left-hand side, constant included,
    is at most (for ['>=']: at least) the right-hand side.  For ['='] the
    row is the one of ['<=']: it only says that the left-hand side is at
    most the right-hand side. *)
Theorem standard_form_row_meaning self c A b i cst x :
  to_standard_form self = Ok (c, A, b) →
  constraints self !! i = Some cst →
  distinct_indices (lhs cst) →
  ∃ row, mdata A !! i = Some row ∧
    (sense cst = "<=" ∨ sense cst = "=" →
       (dot row x <= b !!! i ↔
        eval_terms x (terms (lhs cst)) + constant (lhs cst) <= crhs cst))
    ∧ (sense cst = ">=" →
       (dot row x <= b !!! i ↔
        crhs cst <= eval_terms x (terms (lhs cst)) + constant (lhs cst))).
Proof.
  unfold to_standard_form. intros H Hi Hnd.
  destruct (match objective self with Some _ => _ | None => _ end) as [c0|e]; [|done].
  destruct (constraints_loop _ _) as [[A0 b0]|e] eqn:EA; [|done].
  injection H as <- <- <-. simpl.
  destruct (constraints_loop_rows _ _ _ _ EA i cst Hi) as (row & bi & Hrow & HA & Hb).
  exists row. split; [done|].
  rewrite (list_lookup_total_correct _ _ _ Hb).
  apply constraint_row_Ok in Hrow as (row0 & Hrow0 & Hcase).
  unfold coefficient_row in Hrow0.
  apply (fill_terms_dot _ _ _ _ x Hnd (zeros_all_zero _ _)) in Hrow0.
  rewrite dot_zeros in Hrow0. fold (eval_terms x (terms (lhs cst))) in Hrow0.
  unfold effective_rhs in Hcase.
  destruct Hcase as [(Hs & -> & ->)|(Hs & -> & ->)].
  - split.
    + intros _. rewrite Hrow0. split; intros; lra.
    + intros Hs'. destruct Hs as [Hs|Hs]; rewrite Hs in Hs'; discriminate Hs'.
  - split.
    + intros [Hs'|Hs']; rewrite Hs in Hs'; discriminate Hs'.
    + intros _. rewrite dot_opp_row, Hrow0. split; intros; lra.
Qed.

Lemma standard_form_row_meaning_witness :
  ∃ row, mdata (Matrix 3 2 [[2; 3]; [- (1); - 0]; [1; 1]]) !! 1%nat = Some row ∧
    (sense (mkConstraint (mkExpr [(var_x, 1)] 0) ">=" 1) = "<="
     ∨ sense (mkConstraint (mkExpr [(var_x, 1)] 0) ">=" 1) = "=" →
       (dot row [1; 2] <= [6 - 0; - (1 - 0); 3 - 0] !!! 1%nat ↔
        eval_terms [1; 2] (terms (lhs (mkConstraint (mkExpr [(var_x, 1)] 0) ">=" 1)))
        + constant (lhs (mkConstraint (mkExpr [(var_x, 1)] 0) ">=" 1))
        <= crhs (mkConstraint (mkExpr [(var_x, 1)] 0) ">=" 1)))
    ∧ (sense (mkConstraint (mkExpr [(var_x, 1)] 0) ">=" 1) = ">=" →
       (dot row [1; 2] <= [6 - 0; - (1 - 0); 3 - 0] !!! 1%nat ↔
        crhs (mkConstraint (mkExpr [(var_x, 1)] 0) ">=" 1)
        <= eval_terms [1; 2] (terms (lhs (mkConstraint (mkExpr [(var_x, 1)] 0) ">=" 1)))
           + constant (lhs (mkConstraint (mkExpr [(var_x, 1)] 0) ">=" 1)))).
Proof.
  apply (standard_form_row_meaning example_model [3; 4]).
  - reflexivity.
  - reflexivity.
  - apply NoDup_singleton.
Defined.

(** ** Variables and their indices *)

Lemma add_variable_indexed self vname lb ub :
  indexed self → indexed (snd (add_variable self vname lb ub)).
Proof.
  intros Hi i v. unfold add_variable. simpl. intros Hv.
  apply lookup_app_Some in Hv as [Hv|[Hlen Hv]]; [by apply Hi|].
  apply list_lookup_singleton_Some in Hv as [Hz <-]. simpl. lia.
Qed.

Lemma add_variables_from_spec self i0 count prefix lb ub :
  indexed self →
  variables (snd (add_variables_from self i0 count prefix lb ub))
  = variables self ++ fst (add_variables_from self i0 count prefix lb ub)
  ∧ length (fst (add_variables_from self i0 count prefix lb ub)) = count
  ∧ indexed (snd (add_variables_from self i0 count prefix lb ub))
  ∧ (∀ i v, fst (add_variables_from self i0 count prefix lb ub) !! i = Some v →
       v = mkVar (prefix +:+ pretty (i0 + i + 1)%nat) lb ub
                 (length (variables self) + i))
  ∧ constraints (snd (add_variables_from self i0 count prefix lb ub))
    = constraints self
  ∧ objective (snd (add_variables_from self i0 count prefix lb ub)) = objective self
  ∧ msense (snd (add_variables_from self i0 count prefix lb ub)) = msense self.
Proof.
  revert self i0. induction count as [|count IH]; intros self i0 Hi.
  - simpl. rewrite app_nil_r. repeat split; done.
  - simpl.
    destruct (add_variable self (Some (prefix +:+ pretty (i0 + 1)%nat)) lb ub)
      as [var self1] eqn:E1.
    pose proof (add_variable_indexed self (Some (prefix +:+ pretty (i0 + 1)%nat)) lb ub Hi)
      as Hi1. rewrite E1 in Hi1. simpl in Hi1.
    unfold add_variable in E1. injection E1 as <- <-.
    specialize (IH _ (S i0) Hi1).
    destruct (add_variables_from _ (S i0) count prefix lb ub) as [vars self2].
    simpl in *. destruct IH as (Hv & Hlen & Hi2 & Hvars & Hc & Ho & Hs).
    split; [by rewrite Hv, <- app_assoc|]. split; [by rewrite Hlen|].
    split; [done|]. split; [|done].
    intros [|i] v Hl; simpl in Hl.
    + injection Hl as <-. by rewrite !Nat.add_0_r.
    + rewrite (Hvars i v Hl). rewrite length_app. simpl.
      f_equal; [do 2 f_equal; lia|lia].
Qed.

(** X18. [add_variables] appends [count] variables named [prefix] followed
    by 1, 2, ..., with consecutive indices that continue the positions of
    the variables already there; the names are pairwise distinct, every
    variable of the model keeps its position as its index, and constraints,
    objective and sense are untouched. *)
Theorem add_variables_spec self count prefix lb ub :
  indexed self →
  variables (snd (add_variables self count prefix lb ub))
  = variables self ++ fst (add_variables self count prefix lb ub)
  ∧ length (fst (add_variables self count prefix lb ub)) = count
  ∧ indexed (snd (add_variables self count prefix lb ub))
  ∧ (∀ i v, fst (add_variables self count prefix lb ub) !! i = Some v →
       v = mkVar (prefix +:+ pretty (i + 1)%nat) lb ub (length (variables self) + i))
  ∧ NoDup (var_name <$> fst (add_variables self count prefix lb ub))
  ∧ constraints (snd (add_variables self count prefix lb ub)) = constraints self
  ∧ objective (snd (add_variables self count prefix lb ub)) = objective self
  ∧ msense (snd (add_variables self count prefix lb ub)) = msense self.
Proof.
  intros Hi. unfold add_variables.
  destruct (add_variables_from_spec self 0 count prefix lb ub Hi)
    as (Hv & Hlen & Hi2 & Hvars & Hc & Ho & Hs).
  split; [done|]. split; [done|]. split; [done|]. split; [exact Hvars|].
  split; [|done].
  apply NoDup_alt. intros i i' s Hl Hl'.
  rewrite list_lookup_fmap in Hl, Hl'.
  destruct (fst (add_variables_from self 0 count prefix lb ub) !! i) as [v|] eqn:E;
    [|done].
  destruct (fst (add_variables_from self 0 count prefix lb ub) !! i') as [v'|] eqn:E';
    [|done].
  apply Hvars in E, E'. subst v v'. simpl in *.
  injection Hl as <-. injection Hl' as Heq.
  apply (inj (String.append prefix)) in Heq. apply (inj pretty) in Heq. lia.
Qed.

Lemma add_variables_spec_witness :
  fst (add_variables (new_model "LP Model") 2 "x" 0 Inf)
  = [mkVar "x1" 0 Inf 0; mkVar "x2" 0 Inf 1]
  ∧ indexed (snd (add_variables (new_model "LP Model") 2 "x" 0 Inf)).
Proof.
  destruct (add_variables_spec (new_model "LP Model") 2 "x" 0 Inf)
    as (_ & _ & Hi & _).
  - intros i v Hv. simpl in Hv. by rewrite lookup_nil in Hv.
  - split; [reflexivity|exact Hi].
Defined.

Lemma indexed_in_range self v :
  indexed self → v ∈ variables self → (index v < length (variables self))%nat.
Proof.
  intros Hi Hv. apply list_elem_of_lookup in Hv as [i Hl].
  rewrite (Hi i v Hl). by apply lookup_lt_Some in Hl.
Qed.

Lemma over_variables_in_model self e :
  indexed self → over_variables self e → expr_in_model (length (variables self)) e.
Proof.
  intros Hi He. unfold expr_in_model. eapply Forall_impl; [exact He|].
  intros t Ht. by apply indexed_in_range.
Qed.

(** X19. When the position of every variable of the model is its index
    (as [add_variable] makes it) and objective and constraints only mention
    variables of the model, [to_standard_form] never raises [IndexError]: it
    returns, or raises the [ValueError] of an unsupported sense. *)
Theorem standard_form_no_index_error self :
  indexed self →
  (∀ obj, objective self = Some obj → over_variables self obj) →
  Forall (λ cst, over_variables self (lhs cst)) (constraints self) →
  (∃ c A b, to_standard_form self = Ok (c, A, b))
  ∨ (∃ cst, cst ∈ constraints self ∧ ¬ recognized (sense cst) ∧
            to_standard_form self = Raise (invalid_sense_error (sense cst))).
Proof.
  intros Hi Hobj Hcs. unfold to_standard_form.
  set (n := length (variables self)).
  assert (Hc : ∃ c, match objective self with
                    | Some obj =>
                        fill_terms (λ coef, if String.eqb (msense self) "maximize"
                                            then coef else - coef) (terms obj) (zeros n)
                    | None => Ok (zeros n)
                    end = Ok c).
  { destruct (objective self) as [obj|] eqn:Eo; [|by eexists].
    destruct (fill_terms_ok (λ coef, if String.eqb (msense self) "maximize"
                                     then coef else - coef) (terms obj) (zeros n))
      as (c & Hc & _); [|by exists c].
    unfold zeros. rewrite length_replicate.
    by apply (over_variables_in_model self obj Hi), Hobj. }
  destruct Hc as [c ->].
  assert (Hin : Forall (λ cst, expr_in_model n (lhs cst)) (constraints self)).
  { eapply Forall_impl; [exact Hcs|]. intros cst. by apply over_variables_in_model. }
  destruct (constraints_loop_cases n (constraints self) Hin)
    as [(_ & A & b & ->)|(cst & Hcst & Hn & ->)].
  - left. by eexists _, _, _.
  - right. by exists cst.
Qed.

Lemma standard_form_no_index_error_witness :
  (∃ c A b, to_standard_form example_model = Ok (c, A, b))
  ∨ (∃ cst, cst ∈ constraints example_model ∧ ¬ recognized (sense cst) ∧
            to_standard_form example_model = Raise (invalid_sense_error (sense cst))).
Proof.
  apply standard_form_no_index_error.
  - intros [|[|i]] v Hv; simpl in Hv; [by injection Hv as <-..|done].
  - intros obj [= <-]. unfold over_variables. simpl.
    repeat constructor.
  - unfold over_variables. simpl. repeat constructor.
Defined.

(** ** Solving a model *)

Lemma solve_optimal_length self c A b maxit r s' :
  solve self c A b maxit = (Ok r, s') → status r = "optimal" →
  ∃ sol, res_solution r = Some sol ∧ length sol = ncols A.
Proof.
  intros Hs Hst.
  destruct (solve_optimal_state _ _ _ _ _ _ _ Hs Hst) as (k & s & Hrun & _ & Hsol & _).
  exists (fst (extract_solution s)). split; [done|].
  apply run_pivots_sizes in Hrun as [Hnv Hnc].
  rewrite (proj1 (setup_sizes _ _ _ _)) in Hnv.
  rewrite (proj2 (setup_sizes _ _ _ _)) in Hnc.
  rewrite extract_solution_length; unfold num_structural; lia.
Qed.

Lemma collect_values_lookup vars i0 sol (acc : gmap string Q) :
  NoDup (var_name <$> vars) →
  (i0 + length vars ≤ length sol)%nat →
  (∀ i v, vars !! i = Some v →
     collect_values vars i0 sol acc !! var_name v = Some (sol !!! (i0 + i)%nat))
  ∧ (∀ s, s ∉ var_name <$> vars → collect_values vars i0 sol acc !! s = acc !! s).
Proof.
  revert i0 acc. induction vars as [|var vars IH]; intros i0 acc Hnd Hlen.
  - split; [intros i v Hv; by rewrite lookup_nil in Hv|done].
  - rewrite fmap_cons in Hnd. apply NoDup_cons in Hnd as [Hnin Hnd].
    simpl in Hlen. simpl.
    assert (Hlt : (i0 <? length sol)%nat = true) by (apply Nat.ltb_lt; lia).
    rewrite Hlt.
    destruct (IH (S i0) (<[var_name var := sol !!! i0]> acc) Hnd ltac:(lia))
      as [Hin Hout].
    split.
    + intros [|i] v Hv; simpl in Hv.
      * injection Hv as <-. rewrite Hout by done.
        rewrite lookup_insert_eq. by rewrite Nat.add_0_r.
      * rewrite (Hin i v Hv). f_equal. f_equal. lia.
    + intros s Hs. rewrite ?fmap_cons in Hs. apply not_elem_of_cons in Hs as [Hne Hs].
      rewrite Hout by done. by rewrite lookup_insert_ne.
Qed.

(** X20. [LPModel.solve] attaches ["variable_values"] exactly to an optimal
    result.  When the variables of the model have pairwise distinct names,
    the dictionary has one entry per variable and maps the name of the
    variable at position [i] to entry [i] of the solution, which has as many
    entries as the model has variables. *)
Theorem model_solve_variable_values self mr :
  model_solve self = Ok mr →
  (status (solver_result mr) ≠ "optimal" → variable_values mr = None)
  ∧ (status (solver_result mr) = "optimal" →
     NoDup (var_name <$> variables self) →
     ∃ sol vals,
       res_solution (solver_result mr) = Some sol ∧
       variable_values mr = Some vals ∧
       length sol = length (variables self) ∧
       (∀ i v, variables self !! i = Some v → vals !! var_name v = Some (sol !!! i)) ∧
       (∀ s, is_Some (vals !! s) → s ∈ var_name <$> variables self)).
Proof.
  unfold model_solve.
  destruct (to_standard_form self) as [[[c A] b]|e] eqn:Esf; [|done].
  destruct (solve init_solver c A b default_max_iterations) as [res s'] eqn:Es.
  simpl. destruct res as [result|e]; [|done].
  destruct (String.eqb (status result) "optimal") eqn:Est.
  - apply String.eqb_eq in Est.
    destruct (solve_optimal_length _ _ _ _ _ _ _ Es Est) as (sol & Hsol & Hlen).
    rewrite Hsol. intros [= <-]. simpl. split; [done|]. intros _ Hnd.
    assert (Hn : ncols A = length (variables self)).
    { unfold to_standard_form in Esf.
      destruct (match objective self with Some _ => _ | None => _ end); [|done].
      destruct (constraints_loop _ _) as [[A0 b0]|]; [|done].
      by injection Esf as <- <- <-. }
    exists sol, (collect_values (variables self) 0 sol ∅).
    split; [done|]. split; [done|]. split; [lia|].
    destruct (collect_values_lookup (variables self) 0 sol ∅ Hnd ltac:(lia))
      as [Hin Hout].
    split; [exact Hin|].
    intros s Hs. destruct (decide (s ∈ var_name <$> variables self)) as [|Hn']; [done|].
    rewrite (Hout s Hn'), lookup_empty in Hs. by destruct Hs.
  - apply String.eqb_neq in Est. intros [= <-]. simpl. split; [done|].
    intros Hst. done.
Qed.

Lemma single_model_solved :
  model_solve single_model
  = Ok (mkModelResult (mkResult "optimal" (Some [5]) (Some (- (5))) 1)
                      (Some (collect_values [var_x] 0 [5] ∅))).
Proof.
  unfold model_solve.
  change (to_standard_form single_model) with (Ok ([1], Matrix 1 1 [[1]], [5])).
  cbv iota beta.
  replace (fst (solve init_solver [1] (Matrix 1 1 [[1]]) [5] default_max_iterations))
    with (Ok (mkResult "optimal" (Some [5]) (Some (- (5))) 1))
    by (vm_compute; reflexivity).
  reflexivity.
Qed.

Lemma model_solve_variable_values_witness :
  ∃ sol vals,
    res_solution (mkResult "optimal" (Some [5]) (Some (- (5))) 1) = Some sol ∧
    Some (collect_values [var_x] 0 [5] (∅ : gmap string Q)) = Some vals ∧
    length sol = length (variables single_model) ∧
    (∀ i v, variables single_model !! i = Some v →
            vals !! var_name v = Some (sol !!! i)) ∧
    (∀ s, is_Some (vals !! s) → s ∈ var_name <$> variables single_model).
Proof.
  apply (proj2 (model_solve_variable_values single_model _ single_model_solved)).
  - reflexivity.
  - apply NoDup_singleton.
Defined.

Lemma solve_objective_negated self c A b maxit r s' :
  wf_problem c A b → stays_feasible self c A b →
  solve self c A b maxit = (Ok r, s') → status r = "optimal" →
  ∃ sol obj, res_solution r = Some sol ∧ res_objective_value r = Some obj ∧
             obj == - dot c sol.
Proof.
  intros Hwf Hf Hs Hst.
  destruct (solve_optimal_state _ _ _ _ _ _ _ Hs Hst)
    as (k & s & Hrun & _ & Hsol & Hobj).
  exists (fst (extract_solution s)), (snd (extract_solution s)).
  split; [done|]. split; [done|].
  apply (returned_objective_negated c A b); [done|].
  by apply (stays_feasible_run self c A b k).
Qed.

Lemma standard_form_parts self c A b :
  to_standard_form self = Ok (c, A, b) →
  match objective self with
  | Some obj =>
      fill_terms (λ coef, if String.eqb (msense self) "maximize" then coef else - coef)
                 (terms obj) (zeros (length (variables self)))
  | None => Ok (zeros (length (variables self)))
  end = Ok c
  ∧ constraints_loop (length (variables self)) (constraints self) = Ok (mdata A, b)
  ∧ ncols A = length (variables self) ∧ nrows A = length (constraints self).
Proof.
  unfold to_standard_form.
  destruct (match objective self with Some _ => _ | None => _ end) as [c0|e]; [|done].
  destruct (constraints_loop _ _) as [[A0 b0]|e]; [|done].
  by intros [= <- <- <-].
Qed.

Lemma objective_dot self c A b obj x :
  to_standard_form self = Ok (c, A, b) → objective self = Some obj →
  distinct_indices obj →
  dot c x == if String.eqb (msense self) "maximize"
             then eval_terms x (terms obj) else - eval_terms x (terms obj).
Proof.
  intros H Hobj Hnd. apply standard_form_parts in H as (Hc & _).
  rewrite Hobj in Hc.
  apply (fill_terms_dot _ _ _ _ x Hnd (zeros_all_zero _ _)) in Hc.
  rewrite Hc, dot_zeros.
  destruct (String.eqb (msense self) "maximize").
  - unfold eval_terms. ring.
  - rewrite eval_terms_opp. ring.
Qed.

(** X21. The value [LPModel.solve] returns under ["objective_value"] for an
    optimal result, after a run through tableaux with nonnegative right-hand
    sides: for a model whose sense is ["maximize"] it is the negation of the
    value of the objective terms at the returned solution, for every other
    sense it is that value itself; the constant of the objective is left out
    either way. *)
Theorem model_solve_objective_value self c A b mr obj :
  to_standard_form self = Ok (c, A, b) →
  stays_feasible init_solver c A b →
  objective self = Some obj →
  distinct_indices obj →
  model_solve self = Ok mr →
  status (solver_result mr) = "optimal" →
  ∃ sol v,
    res_solution (solver_result mr) = Some sol ∧
    res_objective_value (solver_result mr) = Some v ∧
    v == if String.eqb (msense self) "maximize"
         then - eval_terms sol (terms obj) else eval_terms sol (terms obj).
Proof.
  intros Hsf Hf Hobj Hnd Hms Hst.
  assert (Hwf : wf_problem c A b).
  { pose proof (standard_form_parts self c A b Hsf) as (Hc & HA & Hn & Hm).
    apply constraints_loop_shape in HA as (HA & Hb & Hrows).
    split; [split; [lia|by rewrite Hn]|]. split; [|lia].
    destruct (objective self) as [o|].
    - apply fill_terms_length in Hc. unfold zeros in Hc.
      rewrite length_replicate in Hc. lia.
    - injection Hc as <-. unfold zeros. rewrite length_replicate. lia. }
  unfold model_solve in Hms. rewrite Hsf in Hms.
  destruct (solve init_solver c A b default_max_iterations) as [res s'] eqn:Es.
  simpl in Hms. destruct res as [result|e]; [|done].
  assert (Hres : solver_result mr = result).
  { destruct (String.eqb (status result) "optimal");
      [destruct (res_solution result)|]; by injection Hms as <-. }
  rewrite Hres in *.
  destruct (solve_objective_negated _ _ _ _ _ _ _ Hwf Hf Es Hst)
    as (sol & v & Hsol & Hv & Hneg).
  exists sol, v. split; [done|]. split; [done|].
  rewrite Hneg, (objective_dot self c A b obj sol Hsf Hobj Hnd).
  destruct (String.eqb (msense self) "maximize"); [reflexivity|ring].
Qed.

Lemma model_solve_objective_value_witness :
  ∃ sol v,
    res_solution (mkResult "optimal" (Some [5]) (Some (- (5))) 1) = Some sol ∧
    res_objective_value (mkResult "optimal" (Some [5]) (Some (- (5))) 1) = Some v ∧
    v == if String.eqb (msense single_model) "maximize"
         then - eval_terms sol [(var_x, 1)] else eval_terms sol [(var_x, 1)].
Proof.
  apply (model_solve_objective_value single_model [1] (Matrix 1 1 [[1]]) [5]
           (mkModelResult (mkResult "optimal" (Some [5]) (Some (- (5))) 1)
                          (Some (collect_values [var_x] 0 [5] ∅)))
           (mkExpr [(var_x, 1)] 0)).
  - reflexivity.
  - exact scenario2_stays_feasible.
  - reflexivity.
  - apply NoDup_singleton.
  - exact single_model_solved.
  - reflexivity.
Defined.

Lemma lower_maximize : lower "MAXIMIZE" = "maximize".
Proof. reflexivity. Qed.

(** X22. After [set_objective], [to_standard_form] maximizes exactly when
    the sense given is ["maximize"] in any mix of upper and lower case; with
    every other sense string the objective vector is the negated one.  A
    single variable given as the objective counts with coefficient 1. *)
Theorem set_objective_standard_form self arg sense_arg c A b x :
  to_standard_form (set_objective self arg sense_arg) = Ok (c, A, b) →
  distinct_indices (match arg with
                    | ObjVariable var => mkExpr [(var, 1)] 0
                    | ObjExpression e => e
                    end) →
  dot c x ==
  if String.eqb (lower sense_arg) "maximize"
  then eval_terms x (terms (match arg with
                            | ObjVariable var => mkExpr [(var, 1)] 0
                            | ObjExpression e => e
                            end))
  else - eval_terms x (terms (match arg with
                              | ObjVariable var => mkExpr [(var, 1)] 0
                              | ObjExpression e => e
                              end)).
Proof.
  intros Hsf Hnd.
  by apply (objective_dot (set_objective self arg sense_arg) c A b _ x Hsf).
Qed.

Lemma set_objective_standard_form_witness :
  dot [1] [7] ==
  if String.eqb (lower "MAXIMIZE") "maximize"
  then eval_terms [7] (terms (mkExpr [(var_x, 1)] 0))
  else - eval_terms [7] (terms (mkExpr [(var_x, 1)] 0)).
Proof.
  apply (set_objective_standard_form single_model (ObjVariable var_x) "MAXIMIZE"
           [1] (Matrix 1 1 [[1]]) [5]).
  - reflexivity.
  - apply NoDup_singleton.
Defined.

(** ** Expressions as Python objects *)

Lemma terms_value_cons (x : list Q) (kv : VarObj * Q) (d : list (VarObj * Q)) :
  terms_value x (kv :: d) = snd kv * x !!! index (obj (fst kv)) + terms_value x d.
Proof. reflexivity. Qed.

Lemma terms_value_app (x : list Q) (d1 d2 : list (VarObj * Q)) :
  terms_value x (d1 ++ d2) == terms_value x d1 + terms_value x d2.
Proof.
induction d1 as [|kv d1 IH].
- change (terms_value x d2 == 0 + terms_value x d2). lra.
- rewrite <- app_comm_cons, !terms_value_cons, IH. lra.
Qed.

(** The value of an expression is the value of what [to_standard_form]
    reads of it. *)
Lemma value_at_erase (x : list Q) (e : PyExpression) :
  value_at x e = eval_terms x (terms (erase e)) + pconstant e.
Proof.
unfold value_at. f_equal. destruct e as [d c]. simpl.
induction d as [|kv d IH]; first done.
rewrite terms_value_cons, IH. reflexivity.
Qed.

Lemma terms_value_delete (x : list Q) (d : list (VarObj * Q)) (j : nat)
      (k : VarObj) (v : Q) :
  d !! j = Some (k, v) →
  terms_value x (delete j d) == terms_value x d - v * x !!! index (obj k).
Proof.
revert j. induction d as [|kv d IH]; intros j Hj; first done.
destruct j as [|j].
- simpl in Hj. injection Hj as ->. simpl delete. rewrite terms_value_cons. simpl. lra.
- simpl in Hj. simpl delete. rewrite !terms_value_cons, (IH _ Hj). lra.
Qed.

Lemma terms_value_alter (x : list Q) (d : list (VarObj * Q)) (j : nat)
      (k : VarObj) (v w : Q) :
  d !! j = Some (k, v) →
  terms_value x (alter (λ kv, (fst kv, w)) j d) ==
  terms_value x d + (w - v) * x !!! index (obj k).
Proof.
revert j. induction d as [|kv d IH]; intros j Hj; first done.
destruct j as [|j].
- simpl in Hj. injection Hj as ->. simpl alter. rewrite !terms_value_cons. simpl. lra.
- simpl in Hj. simpl alter. rewrite !terms_value_cons, (IH _ Hj). lra.
Qed.

(** What a lookup found. *)
Lemma dict_find_Found (d : list (VarObj * Q)) (k : VarObj) (n i : nat) (v : Q) :
  dict_find d k n = Found i v →
  ∃ j k', i = (n + j)%nat ∧ d !! j = Some (k', v) ∧ oid k' = oid k ∧
          var_name (obj k') = var_name (obj k) ∧
          Forall (λ kv : VarObj * Q, var_name (obj (fst kv)) ≠ var_name (obj k))
                 (take j d).
Proof.
revert n. induction d as [|[k' v'] d IH]; intros n H; first done.
simpl in H.
destruct (String.eqb (var_name (obj k')) (var_name (obj k))) eqn:Hn.
- destruct (oid k' =? oid k)%nat eqn:Ho; last done.
  injection H as <- <-. exists 0%nat, k'.
  apply String.eqb_eq in Hn. apply Nat.eqb_eq in Ho.
  repeat split; by rewrite ?Nat.add_0_r.
- destruct (IH _ H) as (j & k'' & -> & Hj & Ho & Hnm & Hbefore).
  exists (S j), k''. repeat split; try done; first lia.
  simpl. constructor; last done.
  simpl. by apply String.eqb_neq in Hn.
Qed.

Lemma dict_find_Missing (d : list (VarObj * Q)) (k : VarObj) (n : nat) :
  dict_find d k n = Missing ↔
  var_name (obj k) ∉ (λ kv : VarObj * Q, var_name (obj (fst kv))) <$> d.
Proof.
revert n. induction d as [|[k' v'] d IH]; intros n; simpl.
- split; first (intros _; apply not_elem_of_nil). done.
- rewrite not_elem_of_cons.
  destruct (String.eqb (var_name (obj k')) (var_name (obj k))) eqn:Hn.
  + apply String.eqb_eq in Hn. simpl.
    split; first by destruct (oid k' =? oid k)%nat.
    intros [H _]. by destruct H.
  + apply String.eqb_neq in Hn. rewrite IH. simpl.
    split; [intros H; split; [congruence|done] | by intros [_ H]].
Qed.

Lemma dict_find_Clash (d : list (VarObj * Q)) (k : VarObj) (n : nat) :
  dict_find d k n = Clash →
  ∃ kv, kv ∈ d ∧ var_name (obj (fst kv)) = var_name (obj k) ∧ oid (fst kv) ≠ oid k.
Proof.
revert n. induction d as [|[k' v'] d IH]; intros n H; first done.
simpl in H.
destruct (String.eqb (var_name (obj k')) (var_name (obj k))) eqn:Hn.
- destruct (oid k' =? oid k)%nat eqn:Ho; first done.
  exists (k', v'). apply String.eqb_eq in Hn. apply Nat.eqb_neq in Ho.
  split; first (apply elem_of_cons; auto). done.
- destruct (IH _ H) as (kv & Hin & H1 & H2).
  exists kv. split; last done. apply elem_of_cons; auto.
Qed.

(** X23. [add_term] on an expression whose keys of the identity of [var]
    have the fields of [var]: when it returns, the value of the expression
    at any point has grown by [coefficient * x[var.index]], up to a
    coefficient below the tolerance 1e-10 (the term it deletes); it raises
    nothing but [RecursionError], and that only when a key is another object
    of the name of [var]. *)
Theorem add_term_value (self : PyExpression) (var : VarObj) (coefficient : Q)
        (x : list Q) :
  Forall (λ kv : VarObj * Q, oid (fst kv) = oid var → obj (fst kv) = obj var)
         (pterms self) →
  match add_term self var coefficient with
  | Returns r =>
      pconstant r = pconstant self ∧
      ∃ δ, Qabs δ < eps ∧
           value_at x r ==
           value_at x self + (coefficient - δ) * x !!! index (obj var)
  | Throws e =>
      e = RecursionError ∧
      ∃ kv, kv ∈ pterms self ∧ var_name (obj (fst kv)) = var_name (obj var) ∧
            oid (fst kv) ≠ oid var
  end.
Proof.
intros Hco. unfold add_term.
destruct (dict_find (pterms self) var 0) as [i v| |] eqn:Hf.
- destruct (dict_find_Found _ _ _ _ _ Hf) as (j & k' & -> & Hj & Ho & _ & _).
  change (0 + j)%nat with j.
  assert (Hk : obj k' = obj var).
  { rewrite Forall_forall in Hco.
    apply (Hco (k', v)); last done. by eapply list_elem_of_lookup_2. }
  destruct (Qltb (Qabs (v + coefficient)) eps) eqn:Hlt; cbv beta iota.
  + split; first done. exists (v + coefficient). split.
    * by apply Qltb_lt in Hlt.
    * unfold value_at. simpl. rewrite (terms_value_delete _ _ _ _ _ Hj), Hk. lra.
  + split; first done. exists 0. split; first done.
    unfold value_at. simpl. rewrite (terms_value_alter _ _ _ _ _ _ Hj), Hk. lra.
- split; first done. exists 0. split; first done.
  unfold value_at. simpl. rewrite terms_value_app.
  change (terms_value x [(var, coefficient)])
    with (coefficient * x !!! index (obj var) + 0). lra.
- split; first done. by apply (dict_find_Clash _ _ 0).
Qed.

Lemma add_term_value_witness :
  match add_term (mkPyExpr [(mkObj 0 var_x, 2)] 0) (mkObj 0 var_x) (- (2)) with
  | Returns r =>
      pconstant r = 0 ∧
      ∃ δ, Qabs δ < eps ∧
           value_at [7] r ==
           value_at [7] (mkPyExpr [(mkObj 0 var_x, 2)] 0) + (- (2) - δ) * 7
  | Throws e =>
      e = RecursionError ∧
      ∃ kv, kv ∈ [(mkObj 0 var_x, 2)] ∧ var_name (obj (fst kv)) = "x" ∧
            oid (fst kv) ≠ 0%nat
  end.
Proof.
apply (add_term_value (mkPyExpr [(mkObj 0 var_x, 2)] 0) (mkObj 0 var_x) (- (2)) [7]).
repeat constructor.
Defined.

Lemma terms_value_copy (x : list Q) (d : list (VarObj * Q)) (g : nat → nat) :
  terms_value x (imap (λ i (kv : VarObj * Q), (mkObj (g i) (obj (fst kv)), snd kv)) d)
  = terms_value x d.
Proof.
revert g. induction d as [|kv d IH]; intros g; first done.
simpl imap. rewrite !terms_value_cons. simpl fst. simpl snd. f_equal.
apply (IH (g ∘ S)).
Qed.

Lemma deepcopy_value (x : list Q) (fresh : nat) (e : PyExpression) :
  value_at x (deepcopy fresh e) = value_at x e.
Proof.
unfold value_at, deepcopy. simpl pterms. simpl pconstant.
by rewrite (terms_value_copy x (pterms e) (λ i, fresh + i)%nat).
Qed.

Lemma names_copy (d : list (VarObj * Q)) (g : nat → nat) :
  (λ kv : VarObj * Q, var_name (obj (fst kv))) <$>
    imap (λ i (kv : VarObj * Q), (mkObj (g i) (obj (fst kv)), snd kv)) d
  = (λ kv : VarObj * Q, var_name (obj (fst kv))) <$> d.
Proof.
revert g. induction d as [|kv d IH]; intros g; first done.
simpl imap. rewrite !fmap_cons. f_equal. apply (IH (g ∘ S)).
Qed.

Lemma deepcopy_names (fresh : nat) (e : PyExpression) :
  key_names (deepcopy fresh e) = key_names e.
Proof.
unfold key_names, deepcopy. simpl pterms.
apply (names_copy (pterms e) (λ i, fresh + i)%nat).
Qed.

Lemma deepcopy_fresh (fresh : nat) (e : PyExpression) :
  Forall (λ kv : VarObj * Q, (fresh ≤ oid (fst kv))%nat) (pterms (deepcopy fresh e)).
Proof.
unfold deepcopy. simpl pterms. apply Forall_forall. intros kv Hin.
apply list_elem_of_lookup in Hin as [i Hi].
rewrite list_lookup_imap in Hi.
destruct (pterms e !! i) as [kv'|]; last done.
simpl in Hi. injection Hi as <-. simpl. lia.
Qed.

Lemma terms_value_scaled (x : list Q) (d : list (VarObj * Q)) (f : Q → Q) (s : Q) :
  (∀ q, f q == s * q) →
  terms_value x ((λ kv : VarObj * Q, (fst kv, f (snd kv))) <$> d) == s * terms_value x d.
Proof.
intros Hf. induction d as [|kv d IH].
- change (0 == s * 0). lra.
- rewrite fmap_cons, !terms_value_cons, IH. simpl fst. simpl snd. rewrite Hf. lra.
Qed.

Lemma scale_value (x : list Q) (e : PyExpression) (factor : Q) :
  value_at x (scale e factor) == factor * value_at x e.
Proof.
unfold value_at, scale. simpl pterms. simpl pconstant.
rewrite (terms_value_scaled x (pterms e) (λ q, q * factor) factor); first lra.
intros q. lra.
Qed.

Lemma scale_names (e : PyExpression) (factor : Q) :
  key_names (scale e factor) = key_names e.
Proof.
unfold key_names, scale. simpl pterms. rewrite <- list_fmap_compose.
by apply list_fmap_ext.
Qed.

(** X24. Multiplying an expression by a number always returns, and dividing
    it by a number raises nothing but [ZeroDivisionError], exactly for the
    divisor 0; the result has the variables of the expression and, at any
    point, its value multiplied or divided by the number.  The negation of
    an expression is worth the negated value. *)
Theorem expr_mul_div_value (self : PyExpression) (fresh : nat) (q : Q) (x : list Q) :
  (∃ r, expr_mul self fresh (Num q) = Returns r ∧
        key_names r = key_names self ∧
        value_at x r == q * value_at x self) ∧
  match expr_truediv self fresh (Num q) with
  | Returns r =>
      ¬ q == 0 ∧ key_names r = key_names self ∧
      value_at x r == value_at x self / q
  | Throws e => e = ZeroDivisionError ∧ q == 0
  end ∧
  key_names (expr_neg self fresh) = key_names self ∧
  value_at x (expr_neg self fresh) == - value_at x self.
Proof.
split; [|split; [|split]].
- eexists. split; first reflexivity. split.
  + by rewrite scale_names, deepcopy_names.
  + by rewrite scale_value, deepcopy_value.
- unfold expr_truediv. destruct (Qeq_bool q 0) eqn:Hq.
  + split; first done. by apply Qeq_bool_eq.
  + assert (Hq' : ¬ q == 0) by by apply Qeq_bool_neq.
    split; first done. split.
    * by rewrite scale_names, deepcopy_names.
    * rewrite scale_value, deepcopy_value. by field.
- unfold expr_neg. by rewrite scale_names, deepcopy_names.
- unfold expr_neg. rewrite scale_value, deepcopy_value. lra.
Qed.



(** A key that is a copy and a variable created before the copy are two
    objects. *)
Lemma dict_find_copy (d : list (VarObj * Q)) (var : VarObj) (fresh : nat) :
  (oid var < fresh)%nat →
  Forall (λ kv : VarObj * Q,
            var_name (obj (fst kv)) = var_name (obj var) → (fresh ≤ oid (fst kv))%nat) d →
  dict_find d var 0 =
  if decide (var_name (obj var) ∈ (λ kv : VarObj * Q, var_name (obj (fst kv))) <$> d)
  then Clash else Missing.
Proof.
intros Hlt Hd.
destruct (decide _) as [Hin|Hnin]; last by apply dict_find_Missing.
destruct (dict_find d var 0) as [i v| |] eqn:Hf; last done.
- destruct (dict_find_Found _ _ _ _ _ Hf) as (j & k' & _ & Hj & Ho & Hn & _).
  rewrite Forall_forall in Hd.
  assert (fresh ≤ oid (fst (k', v)))%nat; last (simpl in *; lia).
  apply Hd; last done. by eapply list_elem_of_lookup_2.
- by apply dict_find_Missing in Hf.
Qed.

(** The loop over the terms of an operand none of whose names is a key. *)
Lemma add_terms_disjoint (result : PyExpression) (f : Q → Q) (ts : list (VarObj * Q)) :
  NoDup ((λ kv : VarObj * Q, var_name (obj (fst kv))) <$> ts) →
  (∀ n, n ∈ key_names result →
        n ∉ (λ kv : VarObj * Q, var_name (obj (fst kv))) <$> ts) →
  add_terms result f ts =
  Returns (mkPyExpr (pterms result ++ ((λ kv : VarObj * Q, (fst kv, f (snd kv))) <$> ts))
                    (pconstant result)).
Proof.
revert result. induction ts as [|[var coef] ts IH]; intros result Hnd Hdis.
- simpl. rewrite app_nil_r. by destruct result.
- rewrite fmap_cons in Hnd. apply NoDup_cons in Hnd as [Hvar Hnd].
  simpl add_terms. unfold add_term.
  assert (Hm : dict_find (pterms result) var 0 = Missing).
  { apply dict_find_Missing. intros Hin. apply (Hdis _ Hin).
    rewrite fmap_cons. apply elem_of_cons. by left. }
  rewrite Hm. rewrite IH; [|done|].
  + simpl. by rewrite <- app_assoc.
  + intros n Hin Hin'. unfold key_names in Hin. simpl in Hin.
    rewrite fmap_app in Hin. apply elem_of_app in Hin as [Hin|Hin].
    * apply (Hdis n Hin). rewrite fmap_cons. apply elem_of_cons. by right.
    * apply list_elem_of_singleton in Hin. simpl in Hin. by subst n.
Qed.

(** The loop over the terms of an operand one of whose names is a key. *)
Lemma add_terms_shared (result : PyExpression) (f : Q → Q) (ts : list (VarObj * Q))
      (fresh : nat) :
  NoDup ((λ kv : VarObj * Q, var_name (obj (fst kv))) <$> ts) →
  Forall (λ kv : VarObj * Q, (oid (fst kv) < fresh)%nat) ts →
  Forall (λ kv : VarObj * Q,
            var_name (obj (fst kv)) ∈ (λ kv : VarObj * Q, var_name (obj (fst kv))) <$> ts →
            (fresh ≤ oid (fst kv))%nat) (pterms result) →
  (∃ n, n ∈ key_names result ∧
        n ∈ (λ kv : VarObj * Q, var_name (obj (fst kv))) <$> ts) →
  add_terms result f ts = Throws RecursionError.
Proof.
revert result. induction ts as [|[var coef] ts IH]; intros result Hnd Hold Hres Hsh.
- destruct Hsh as (n & _ & Hn). by apply elem_of_nil in Hn.
- rewrite fmap_cons in Hnd. apply NoDup_cons in Hnd as [Hvar Hnd].
  apply Forall_cons in Hold as [Hvold Hold]. simpl in Hvar, Hvold.
  simpl add_terms. unfold add_term.
  rewrite (dict_find_copy (pterms result) var fresh Hvold).
  2:{ eapply Forall_impl; first exact Hres. intros kv Hkv Hname. apply Hkv.
      rewrite fmap_cons. apply elem_of_cons. by left. }
  destruct (decide _) as [Hin|Hnin]; first done.
  apply IH; [done|done| |].
  + apply Forall_app. split.
    * eapply Forall_impl; first exact Hres. intros kv Hkv Hname. apply Hkv.
      rewrite fmap_cons. apply elem_of_cons. by right.
    * constructor; last done. simpl. intros Hname. by destruct Hvar.
  + destruct Hsh as (n & Hn1 & Hn2). exists n.
    rewrite fmap_cons in Hn2. apply elem_of_cons in Hn2 as [->|Hn2].
    * by destruct Hnin.
    * split; last done. unfold key_names. simpl. rewrite fmap_app.
      apply elem_of_app. by left.
Qed.

(** What [for var, coef in other.terms.items(): result.add_term(var, f(coef))]
    does to a copy of [self]. *)
Lemma add_terms_copy (self : PyExpression) (fresh : nat) (f : Q → Q) (s : Q)
      (other : operand) (x : list Q) :
  (∀ q, f q == s * q) →
  allocated_before fresh other →
  NoDup (operand_names other) →
  match add_terms (deepcopy fresh self) f (operand_terms other) with
  | Returns r =>
      ¬ shares_name self other ∧ pconstant r = pconstant self ∧
      terms_value x (pterms r) ==
      terms_value x (pterms self) + s * terms_value x (operand_terms other)
  | Throws e => e = RecursionError ∧ shares_name self other
  end.
Proof.
intros Hf Hold Hnd. unfold shares_name, operand_names in *.
destruct (decide (Exists (λ n, n ∈ (λ kv : VarObj * Q, var_name (obj (fst kv))) <$>
                                   operand_terms other) (key_names self)))
  as [Hsh|Hsh].
- apply Exists_exists in Hsh.
  rewrite (add_terms_shared _ f _ fresh Hnd Hold); first done.
  + eapply Forall_impl; first apply deepcopy_fresh. by intros kv Hkv _.
  + by rewrite deepcopy_names.
- rewrite add_terms_disjoint; [|done|].
  + split; first by rewrite <- Exists_exists.
    split; first done.
    simpl pterms. rewrite terms_value_app, (terms_value_scaled _ _ _ _ Hf).
    unfold deepcopy. simpl pterms.
    by rewrite (terms_value_copy x (pterms self) (λ i, fresh + i)%nat).
  + rewrite deepcopy_names. intros n Hn Hn'. apply Hsh, Exists_exists. eauto.
Qed.

Lemma operand_terms_value (x : list Q) (other : operand) :
  operand_value x other ==
  match other with
  | Num q => q
  | ExprRef e => terms_value x (operand_terms other) + pconstant e
  | _ => terms_value x (operand_terms other)
  end.
Proof.
destruct other as [q|v|e|]; try reflexivity.
simpl. change (terms_value x [(v, 1)]) with (1 * x !!! index (obj v) + 0). lra.
Qed.

Lemma number_shares_nothing (self : PyExpression) (q : Q) :
  ¬ shares_name self (Num q).
Proof. intros (n & _ & Hn). by apply elem_of_nil in Hn. Qed.

(** The cases of [__add__] and [__sub__] of an expression: the loop over
    the terms of the operand, for each kind of operand. *)
Ltac operator_cases self n other f s x Hold Hnd :=
  let Hloop := fresh "Hloop" in
  let Hop := fresh "Hop" in
  assert (Hloop := add_terms_copy self n f s other x
                     ltac:(intros ?; simpl; lra) Hold Hnd);
  assert (Hop := operand_terms_value x other);
  destruct other as [q|v|e|];
  [ split; [apply number_shares_nothing|];
    unfold value_at; simpl pterms; simpl pconstant;
    unfold deepcopy; simpl pterms;
    rewrite (terms_value_copy x (pterms self) (λ i, n + i)%nat);
    simpl operand_value; lra
  | simpl add_terms in Hloop; simpl operand_terms in Hloop, Hop;
    destruct (add_term (deepcopy n self) v _) as [r|err];
    [ destruct Hloop as (Hno & Hc & Hv); split; [done|];
      unfold value_at; rewrite Hc, Hv, Hop; lra
    | left; exact Hloop ]
  | simpl operand_terms in Hloop, Hop;
    destruct (add_terms (deepcopy n self) _ (pterms e)) as [r|err];
    [ destruct Hloop as (Hno & Hc & Hv); split; [done|];
      unfold value_at; simpl pterms; simpl pconstant; rewrite Hc, Hv, Hop; lra
    | left; exact Hloop ]
  | right; split; reflexivity ].

(** X26. [LPExpression.__add__] with an operand whose variables were
    created before the call and have one name each: it raises
    [RecursionError] exactly when a variable of the operand has the name of
    a key of [self] (the key of the copy is another object), [TypeError]
    exactly for an operand that is no number, variable or expression; when
    it returns, the result is worth the sum of the two at every point. *)
Theorem expr_add_value (self : PyExpression) (fresh : nat) (other : operand)
        (x : list Q) :
  allocated_before fresh other →
  NoDup (operand_names other) →
  match expr_add self fresh other with
  | Returns r =>
      ¬ shares_name self other ∧
      value_at x r == value_at x self + operand_value x other
  | Throws e =>
      (e = RecursionError ∧ shares_name self other) ∨
      (e = TypeError ∧ other = OtherObject)
  end.
Proof.
intros Hold Hnd. unfold expr_add.
let n := constr:(fresh) in
operator_cases self n other (λ coef : Q, coef) 1 x Hold Hnd.
Qed.

Lemma expr_add_value_witness :
  match expr_add (mkPyExpr [(mkObj 0 var_x, 2)] 0) 2 (VarRef (mkObj 1 var_y)) with
  | Returns r =>
      ¬ shares_name (mkPyExpr [(mkObj 0 var_x, 2)] 0) (VarRef (mkObj 1 var_y)) ∧
      value_at [7; 5] r ==
      value_at [7; 5] (mkPyExpr [(mkObj 0 var_x, 2)] 0) +
      operand_value [7; 5] (VarRef (mkObj 1 var_y))
  | Throws e =>
      (e = RecursionError ∧
       shares_name (mkPyExpr [(mkObj 0 var_x, 2)] 0) (VarRef (mkObj 1 var_y))) ∨
      (e = TypeError ∧ VarRef (mkObj 1 var_y) = OtherObject)
  end.
Proof.
apply (expr_add_value (mkPyExpr [(mkObj 0 var_x, 2)] 0) 2 (VarRef (mkObj 1 var_y))
         [7; 5]).
- repeat constructor.
- apply NoDup_singleton.
Defined.

(** X27. [LPExpression.__sub__] with an operand whose variables were
    created before the call and have one name each: it raises
    [RecursionError] exactly when a variable of the operand has the name of
    a key of [self], so that [e - e] and [(x + y) - x] never return;
    [TypeError] exactly for an operand that is no number, variable or
    expression; when it returns, the result is worth the difference of the
    two at every point. *)
Theorem expr_sub_value (self : PyExpression) (fresh : nat) (other : operand)
        (x : list Q) :
  allocated_before fresh other →
  NoDup (operand_names other) →
  match expr_sub self fresh other with
  | Returns r =>
      ¬ shares_name self other ∧
      value_at x r == value_at x self - operand_value x other
  | Throws e =>
      (e = RecursionError ∧ shares_name self other) ∨
      (e = TypeError ∧ other = OtherObject)
  end.
Proof.
intros Hold Hnd. unfold expr_sub.
let n := constr:(fresh) in
operator_cases self n other Qopp (- (1)) x Hold Hnd.
Qed.

Lemma expr_sub_value_witness :
  match expr_sub (mkPyExpr [(mkObj 0 var_x, 1); (mkObj 1 var_y, 1)] 0) 2
                 (VarRef (mkObj 0 var_x)) with
  | Returns r =>
      ¬ shares_name (mkPyExpr [(mkObj 0 var_x, 1); (mkObj 1 var_y, 1)] 0)
                    (VarRef (mkObj 0 var_x)) ∧
      value_at [7; 5] r ==
      value_at [7; 5] (mkPyExpr [(mkObj 0 var_x, 1); (mkObj 1 var_y, 1)] 0) -
      operand_value [7; 5] (VarRef (mkObj 0 var_x))
  | Throws e =>
      (e = RecursionError ∧
       shares_name (mkPyExpr [(mkObj 0 var_x, 1); (mkObj 1 var_y, 1)] 0)
                   (VarRef (mkObj 0 var_x))) ∨
      (e = TypeError ∧ VarRef (mkObj 0 var_x) = OtherObject)
  end.
Proof.
apply (expr_sub_value (mkPyExpr [(mkObj 0 var_x, 1); (mkObj 1 var_y, 1)] 0) 2
         (VarRef (mkObj 0 var_x)) [7; 5]).
- repeat constructor.
- apply NoDup_singleton.
Defined.

(** X28. [LPVariable.__add__] and [__sub__] with an expression, for a
    variable created before the call: they raise [RecursionError] exactly
    when the expression has a key of the name of the variable (as in
    [x + 2*x]: the key of the copy is another object), and raise nothing
    else; when they return, the result is worth [x[self] + e] (or
    [x[self] - e]) at every point. *)
Theorem var_add_sub_expression (self : VarObj) (fresh : nat) (e : PyExpression)
        (x : list Q) :
  (oid self < fresh)%nat →
  match var_add self fresh (ExprRef e) with
  | Returns r =>
      (var_name (obj self) ∉ key_names e) ∧
      value_at x r == x !!! index (obj self) + value_at x e
  | Throws err => err = RecursionError ∧ var_name (obj self) ∈ key_names e
  end ∧
  match var_sub self fresh (ExprRef e) with
  | Returns r =>
      (var_name (obj self) ∉ key_names e) ∧
      value_at x r == x !!! index (obj self) - value_at x e
  | Throws err => err = RecursionError ∧ var_name (obj self) ∈ key_names e
  end.
Proof.
intros Hlt. unfold var_add, var_sub, add_term. split.
- rewrite (dict_find_copy _ self fresh Hlt).
  2:{ eapply Forall_impl; first apply deepcopy_fresh. by intros kv Hkv _. }
  fold (key_names (deepcopy fresh e)). rewrite deepcopy_names.
  destruct (decide _) as [Hin|Hnin]; first done.
  split; first done.
  unfold value_at, deepcopy. simpl pterms. simpl pconstant.
  rewrite terms_value_app, (terms_value_copy x (pterms e) (λ i, fresh + i)%nat).
  change (terms_value x [(self, 1)]) with (1 * x !!! index (obj self) + 0). lra.
- rewrite (dict_find_copy _ self fresh Hlt).
  2:{ simpl pterms. apply Forall_fmap.
      eapply Forall_impl; first apply deepcopy_fresh. by intros kv Hkv _. }
  fold (key_names (scale (deepcopy fresh e) (- (1)))).
  rewrite scale_names, deepcopy_names.
  destruct (decide _) as [Hin|Hnin]; first done.
  split; first done.
  pose proof (scale_value x (deepcopy fresh e) (- (1))) as Hs.
  rewrite deepcopy_value in Hs.
  unfold value_at at 1. unfold value_at at 1 in Hs.
  remember (scale (deepcopy fresh e) (- (1))) as scaled eqn:Hscaled.
  simpl pterms. simpl pconstant. rewrite terms_value_app.
  change (terms_value x [(self, 1)]) with (1 * x !!! index (obj self) + 0). lra.
Qed.

Lemma var_add_sub_expression_witness :
  match var_add (mkObj 0 var_x) 2 (ExprRef (mkPyExpr [(mkObj 1 var_x, 2)] 0)) with
  | Returns r =>
      ("x" ∉ key_names (mkPyExpr [(mkObj 1 var_x, 2)] 0)) ∧
      value_at [7] r == 7 + value_at [7] (mkPyExpr [(mkObj 1 var_x, 2)] 0)
  | Throws err =>
      err = RecursionError ∧ "x" ∈ key_names (mkPyExpr [(mkObj 1 var_x, 2)] 0)
  end ∧
  match var_sub (mkObj 0 var_x) 2 (ExprRef (mkPyExpr [(mkObj 1 var_x, 2)] 0)) with
  | Returns r =>
      ("x" ∉ key_names (mkPyExpr [(mkObj 1 var_x, 2)] 0)) ∧
      value_at [7] r == 7 - value_at [7] (mkPyExpr [(mkObj 1 var_x, 2)] 0)
  | Throws err =>
      err = RecursionError ∧ "x" ∈ key_names (mkPyExpr [(mkObj 1 var_x, 2)] 0)
  end.
Proof.
apply (var_add_sub_expression (mkObj 0 var_x) 2 (mkPyExpr [(mkObj 1 var_x, 2)] 0) [7]).
simpl. lia.
Defined.

(** X29. The comparisons [<=], [>=] and [==] of an expression with an
    operand whose variables were created before the call and have one name
    each: they raise as the subtraction does; the constraint they return has
    the sense asked for and holds at a point exactly when the value of the
    expression and the value of the operand at that point are in that
    relation. *)
Theorem expr_compare_meaning (sense_symbol : string) (self : PyExpression)
        (fresh : nat) (other : operand) (x : list Q) :
  allocated_before fresh other →
  NoDup (operand_names other) →
  match expr_compare sense_symbol self fresh other with
  | Returns c =>
      psense c = sense_symbol ∧
      ¬ shares_name self other ∧
      (constraint_holds x c ↔
       related sense_symbol (value_at x self) (operand_value x other))
  | Throws e =>
      (e = RecursionError ∧ shares_name self other) ∨
      (e = TypeError ∧ other = OtherObject)
  end.
Proof.
intros Hold Hnd.
assert (Hsub : match expr_sub self fresh other with
               | Returns r =>
                   ¬ shares_name self other ∧
                   value_at x r == value_at x self - operand_value x other
               | Throws e =>
                   (e = RecursionError ∧ shares_name self other) ∨
                   (e = TypeError ∧ other = OtherObject)
               end).
{ unfold expr_sub.
  let n := constr:(fresh) in
  operator_cases self n other Qopp (- (1)) x Hold Hnd. }
assert (Hrel : ∀ l r lhs, lhs == l - r →
          (if String.eqb sense_symbol "<=" then lhs <= 0
           else if String.eqb sense_symbol ">=" then 0 <= lhs
           else lhs == 0) ↔ related sense_symbol l r).
{ intros l r lhs Hl. unfold related.
  destruct (String.eqb sense_symbol "<="); [|destruct (String.eqb sense_symbol ">=")];
    split; intros H; lra. }
unfold expr_compare.
destruct other as [q|v|e|].
- split; first done. split; first apply number_shares_nothing.
  unfold constraint_holds. simpl psense. simpl plhs. simpl prhs.
  rewrite deepcopy_value. reflexivity.
- destruct (expr_sub self fresh (VarRef v)) as [lhs|err]; last done.
  destruct Hsub as [Hno Hv]. split; first done. split; first done.
  unfold constraint_holds. simpl psense. simpl plhs. simpl prhs.
  by apply Hrel.
- destruct (expr_sub self fresh (ExprRef e)) as [lhs|err]; last done.
  destruct Hsub as [Hno Hv]. split; first done. split; first done.
  unfold constraint_holds. simpl psense. simpl plhs. simpl prhs.
  by apply Hrel.
- right. by split.
Qed.

Lemma expr_compare_meaning_witness :
  match expr_compare "<=" (mkPyExpr [(mkObj 0 var_x, 2)] 0) 2
                     (VarRef (mkObj 1 var_y)) with
  | Returns c =>
      psense c = "<=" ∧
      ¬ shares_name (mkPyExpr [(mkObj 0 var_x, 2)] 0) (VarRef (mkObj 1 var_y)) ∧
      (constraint_holds [7; 5] c ↔
       related "<=" (value_at [7; 5] (mkPyExpr [(mkObj 0 var_x, 2)] 0))
                    (operand_value [7; 5] (VarRef (mkObj 1 var_y))))
  | Throws e =>
      (e = RecursionError ∧
       shares_name (mkPyExpr [(mkObj 0 var_x, 2)] 0) (VarRef (mkObj 1 var_y))) ∨
      (e = TypeError ∧ VarRef (mkObj 1 var_y) = OtherObject)
  end.
Proof.
apply (expr_compare_meaning "<=" (mkPyExpr [(mkObj 0 var_x, 2)] 0) 2
         (VarRef (mkObj 1 var_y)) [7; 5]).
- repeat constructor.
- apply NoDup_singleton.
Defined.

(** ** Constraints built from expressions, in the model *)

Lemma constraints_loop_snoc n cs cst A b :
  constraints_loop n (cs ++ [cst]) = Ok (A, b) →
  ∃ A0 b0 row bi,
    constraints_loop n cs = Ok (A0, b0) ∧ constraint_row n cst = Ok (row, bi) ∧
    A = A0 ++ [row] ∧ b = b0 ++ [bi].
Proof.
revert A b. induction cs as [|c0 cs IH]; intros A b; simpl.
- destruct (constraint_row n cst) as [[row bi]|e]; last done.
  intros [= <- <-]. by exists [], [], row, bi.
- destruct (constraint_row n c0) as [[row0 b0]|e]; last done.
  destruct (constraints_loop n (cs ++ [cst])) as [[A' b']|e]; last done.
  intros [= <- <-].
  destruct (IH A' b' eq_refl) as (A0 & b0' & row & bi & -> & Hrow & -> & ->).
  by exists (row0 :: A0), (b0 :: b0'), row, bi.
Qed.

Lemma constraint_row_meaning n cst row bi x :
  constraint_row n cst = Ok (row, bi) →
  distinct_indices (lhs cst) →
  (sense cst = "<=" →
   (dot row x <= bi ↔ eval_terms x (terms (lhs cst)) + constant (lhs cst) <= crhs cst))
  ∧ (sense cst = ">=" →
     (dot row x <= bi ↔ crhs cst <= eval_terms x (terms (lhs cst)) + constant (lhs cst))).
Proof.
intros Hrow Hnd.
apply constraint_row_Ok in Hrow as (row0 & Hrow0 & Hcase).
unfold coefficient_row in Hrow0.
apply (fill_terms_dot _ _ _ _ x Hnd (zeros_all_zero _ _)) in Hrow0.
rewrite dot_zeros in Hrow0. fold (eval_terms x (terms (lhs cst))) in Hrow0.
unfold effective_rhs in Hcase.
destruct Hcase as [(Hs & -> & ->)|(Hs & -> & ->)].
- split.
  + intros _. rewrite Hrow0. split; intros; lra.
  + intros Hs'. destruct Hs as [Hs|Hs]; rewrite Hs in Hs'; discriminate Hs'.
- split.
  + intros Hs'. rewrite Hs in Hs'. discriminate Hs'.
  + intros _. rewrite dot_opp_row, Hrow0. split; intros; lra.
Qed.

(** X30. A constraint of sense ['<='] or ['>='] handed to [add_constraint]
    becomes the last row of what [to_standard_form] returns: the objective
    vector and the rows of the constraints that were there are those of the
    model before, and a point satisfies the new row exactly when the
    constraint holds at it. *)
Theorem add_constraint_last_row (self : LPModel) (cst : PyConstraint)
        (c : list Q) (A : matrix) (b x : list Q) :
  psense cst = "<=" ∨ psense cst = ">=" →
  distinct_indices (erase (plhs cst)) →
  to_standard_form (add_constraint self (erase_constraint cst)) = Ok (c, A, b) →
  ∃ A0 b0 row bi,
    to_standard_form self = Ok (c, A0, b0) ∧
    mdata A = mdata A0 ++ [row] ∧ b = b0 ++ [bi] ∧
    (dot row x <= bi ↔ constraint_holds x cst).
Proof.
intros Hs Hnd. unfold to_standard_form. simpl.
destruct (match objective self with Some _ => _ | None => _ end) as [c0|e]; last done.
destruct (constraints_loop _ (constraints self ++ _)) as [[A1 b1]|e] eqn:EA; last done.
intros [= <- <- <-].
destruct (constraints_loop_snoc _ _ _ _ _ EA) as (A0 & b0 & row & bi & -> & Hrow & -> & ->).
exists (Matrix (length (constraints self)) (length (variables self)) A0), b0, row, bi.
split; first done. split; first done. split; first done.
destruct (constraint_row_meaning _ _ _ _ x Hrow Hnd) as [Hle Hge].
unfold erase_constraint in Hle, Hge. cbn [lhs sense crhs] in Hle, Hge.
change (constant (erase (plhs cst))) with (pconstant (plhs cst)) in Hle, Hge.
rewrite <- value_at_erase in Hle, Hge.
unfold constraint_holds.
destruct Hs as [Hs|Hs]; rewrite Hs.
- by apply Hle.
- by apply Hge.
Qed.

Lemma add_constraint_last_row_witness :
  ∃ A0 b0 row bi,
    to_standard_form (mkModel "m" [var_x] [] None "maximize") = Ok ([0], A0, b0) ∧
    mdata (Matrix 1 1 [[1]]) = mdata A0 ++ [row] ∧ [5] = b0 ++ [bi] ∧
    (dot row [3] <= bi ↔
     constraint_holds [3] (mkPyConstraint (mkPyExpr [(mkObj 0 var_x, 1)] 0) "<=" 5)).
Proof.
apply (add_constraint_last_row (mkModel "m" [var_x] [] None "maximize")
         (mkPyConstraint (mkPyExpr [(mkObj 0 var_x, 1)] 0) "<=" 5)
         [0] (Matrix 1 1 [[1]]) [5] [3]).
- by left.
- apply NoDup_singleton.
- vm_compute. reflexivity.
Defined.

(** ** The order of binary64 values *)

(** The comparison of two finite values of one sign: exponents first, then
    mantissas. *)
Lemma lex_compare_spec (e1 e2 : Z) (m1 m2 : positive) :
  match (e1 ?= e2)%Z with
  | Eq => Pos.compare_cont Eq m1 m2
  | Lt => Lt
  | Gt => Gt
  end =
  match (e1 ?= e2)%Z with
  | Eq => (m1 ?= m2)%positive
  | Lt => Lt
  | Gt => Gt
  end.
Proof. reflexivity. Qed.

Lemma SFcompare_swap (x y : spec_float) :
  SFcompare y x = option_map CompOpp (SFcompare x y).
Proof.
destruct x as [sx|sx| |sx mx ex], y as [sy|sy| |sy my ey]; simpl;
  try destruct sx; try destruct sy; try reflexivity;
  change (PosDef.Pos.compare_cont Eq) with Pos.compare;
  rewrite (Z.compare_antisym ex ey), (Pos.compare_antisym mx my);
  destruct (ex ?= ey)%Z; simpl; try reflexivity;
  by rewrite ?CompOpp_involutive.
Qed.

(** [x < y] and [y < z] give [x < z], for the order [Lt] of [SFcompare]; an
    [Eq] on either side keeps the other comparison. *)
Lemma SFcompare_trans (x y z : spec_float) (c : comparison) :
  SFcompare x y = Some c → SFcompare y z = Some c → SFcompare x z = Some c.
Proof.
destruct x as [sx|sx| |sx mx ex], y as [sy|sy| |sy my ey], z as [sz|sz| |sz mz ez];
  simpl; try destruct sx; try destruct sy; try destruct sz; try congruence;
  change (PosDef.Pos.compare_cont Eq) with Pos.compare;
  intros [= <-];
  destruct (Z.compare_spec ex ey), (Z.compare_spec ey ez), (Z.compare_spec ex ez);
  destruct (Pos.compare_spec mx my), (Pos.compare_spec my mz), (Pos.compare_spec mx mz);
  simpl; try congruence; lia.
Qed.

Lemma SFcompare_Eq_l (x y z : spec_float) (c : comparison) :
  SFcompare x y = Some Eq → SFcompare y z = Some c → SFcompare x z = Some c.
Proof.
destruct x as [sx|sx| |sx mx ex], y as [sy|sy| |sy my ey], z as [sz|sz| |sz mz ez];
  simpl; try destruct sx; try destruct sy; try destruct sz; try congruence;
  change (PosDef.Pos.compare_cont Eq) with Pos.compare;
  intros H1 [= <-]; revert H1;
  destruct (Z.compare_spec ex ey), (Z.compare_spec ey ez), (Z.compare_spec ex ez);
  destruct (Pos.compare_spec mx my), (Pos.compare_spec my mz), (Pos.compare_spec mx mz);
  simpl; try congruence; lia.
Qed.

Lemma f64_ltb_Lt (x y : float) :
  (x <? y)%float = true ↔ SFcompare (Prim2SF x) (Prim2SF y) = Some Lt.
Proof.
rewrite FloatAxioms.ltb_spec. unfold SFltb.
destruct (SFcompare _ _) as [[]|]; split; congruence.
Qed.

Lemma f64_eqb_Eq (x y : float) :
  (x =? y)%float = true ↔ SFcompare (Prim2SF x) (Prim2SF y) = Some Eq.
Proof.
rewrite FloatAxioms.eqb_spec. unfold SFeqb.
destruct (SFcompare _ _) as [[]|]; split; congruence.
Qed.

Lemma f64_leb_cases (x y : float) :
  (x <=? y)%float = true ↔
  SFcompare (Prim2SF x) (Prim2SF y) = Some Lt ∨
  SFcompare (Prim2SF x) (Prim2SF y) = Some Eq.
Proof.
rewrite FloatAxioms.leb_spec. unfold SFleb.
destruct (SFcompare _ _) as [[]|]; split; intros H; auto; try discriminate H;
  destruct H; congruence.
Qed.

(** A value that a comparison [<=] accepts on either side is no NaN, and
    two such values are comparable. *)
Lemma f64_leb_comparable (a x b y : float) :
  (a <=? x)%float = true → (b <=? y)%float = true →
  ∃ c, SFcompare (Prim2SF x) (Prim2SF y) = Some c.
Proof.
rewrite !f64_leb_cases. intros Hx Hy.
destruct (Prim2SF x) as [sx|sx| |sx mx ex], (Prim2SF y) as [sy|sy| |sy my ey];
  try (simpl; by eexists).
- exfalso. destruct (Prim2SF b) as [| | |]; simpl in Hy; destruct Hy; congruence.
- exfalso. destruct (Prim2SF b) as [| | |]; simpl in Hy; destruct Hy; congruence.
- exfalso. destruct (Prim2SF a) as [| | |]; simpl in Hx; destruct Hx; congruence.
- exfalso. destruct (Prim2SF a) as [| | |]; simpl in Hx; destruct Hx; congruence.
- exfalso. destruct (Prim2SF a) as [| | |]; simpl in Hx; destruct Hx; congruence.
- exfalso. destruct (Prim2SF a) as [| | |]; simpl in Hx; destruct Hx; congruence.
- exfalso. destruct (Prim2SF b) as [| | |]; simpl in Hy; destruct Hy; congruence.
Qed.

Lemma f64_ltb_trans (x y z : float) :
  (x <? y)%float = true → (y <? z)%float = true → (x <? z)%float = true.
Proof. rewrite !f64_ltb_Lt. apply SFcompare_trans. Qed.

Lemma f64_ltb_asym (x y : float) :
  (x <? y)%float = true → (y <? x)%float = false.
Proof.
intros H. apply f64_ltb_Lt in H. apply not_true_is_false. intros H'.
apply f64_ltb_Lt in H'. rewrite SFcompare_swap, H in H'. done.
Qed.

Lemma f64_ltb_not_leb (x y : float) :
  (x <? y)%float = true → (y <=? x)%float = false.
Proof.
intros H. apply f64_ltb_Lt in H. apply not_true_is_false. intros H'.
apply f64_leb_cases in H'. rewrite SFcompare_swap, H in H'. simpl in H'.
destruct H'; congruence.
Qed.

(** Among comparable values, [not (x < y)] is [y <= x]. *)
Lemma f64_nltb_leb (x y : float) (c : comparison) :
  SFcompare (Prim2SF x) (Prim2SF y) = Some c →
  (x <? y)%float = false → (y <=? x)%float = true.
Proof.
intros Hc H. apply f64_leb_cases. rewrite SFcompare_swap, Hc. simpl.
destruct c; simpl; auto.
apply f64_ltb_Lt in Hc. congruence.
Qed.

Lemma f64_leb_ltb_trans (x y z : float) :
  (x <=? y)%float = true → (y <? z)%float = true → (x <? z)%float = true.
Proof.
rewrite f64_leb_cases, !f64_ltb_Lt. intros [H|H] H'.
- by eapply SFcompare_trans.
- by eapply SFcompare_Eq_l.
Qed.

Lemma f64_ltb_leb_trans (x y z : float) :
  (x <? y)%float = true → (y <=? z)%float = true → (x <? z)%float = true.
Proof.
rewrite f64_leb_cases, !f64_ltb_Lt. intros H [H'|H'].
- by eapply SFcompare_trans.
- rewrite SFcompare_swap in H |- *.
  destruct (SFcompare (Prim2SF y) (Prim2SF x)) as [c|] eqn:Hyx; last done.
  rewrite SFcompare_swap in H'.
  destruct (SFcompare (Prim2SF z) (Prim2SF y)) as [c'|] eqn:Hzy; last done.
  assert (c' = Eq) as -> by (destruct c'; simpl in H'; congruence).
  by rewrite (SFcompare_Eq_l _ _ _ _ Hzy Hyx).
Qed.

(** ** The ratio test over binary64 *)

(** On a list of pairs that passed [r[0] >= 0] and whose indices increase,
    [min] returns the first pair with the least ratio. *)
Lemma f64_min_from_spec (best : float * nat) (l : list (float * nat)) :
  Forall (λ x : float * nat, (zero <=? fst x)%float = true) (best :: l) →
  StronglySorted (λ x y : float * nat, (snd x < snd y)%nat) (best :: l) →
  F64.min_from best l ∈ best :: l ∧
  ∀ y, y ∈ best :: l →
       (fst (F64.min_from best l) <? fst y)%float = true ∨
       ((fst y <? fst (F64.min_from best l))%float = false ∧
        (snd (F64.min_from best l) ≤ snd y)%nat).
Proof.
revert best. induction l as [|x l IH]; intros best Hv Hs; simpl.
- split; first by left. intros y Hy. apply list_elem_of_singleton in Hy as ->.
  right. split; last done.
  destruct (fst best <? fst best)%float eqn:E; last done.
  by rewrite (f64_ltb_asym _ _ E) in E.
- apply StronglySorted_cons in Hs as [Hb Hs].
  apply Forall_cons in Hb as [Hbx Hbl].
  apply Forall_cons in Hv as [Hvb Hv]. pose proof Hv as Hvxl.
  apply Forall_cons in Hv as [Hvx Hvl].
  destruct (fst x <? fst best)%float eqn:E.
  + destruct (IH x Hvxl Hs) as [Hin Hmin]. split; first by right.
    intros y Hy. apply elem_of_cons in Hy as [->|Hy]; last by apply Hmin.
    left. destruct (Hmin x) as [Hlt|[Hnlt _]]; first by left.
    * by eapply f64_ltb_trans.
    * assert (Hvm : (zero <=? fst (F64.min_from x l))%float = true).
      { rewrite Forall_forall in Hvxl. by apply Hvxl. }
      destruct (f64_leb_comparable _ _ _ _ Hvx Hvm) as [c Hc].
      eapply f64_leb_ltb_trans; last exact E.
      by eapply f64_nltb_leb.
  + assert (Hs' : StronglySorted (λ x y : float * nat, (snd x < snd y)%nat) (best :: l)).
    { apply StronglySorted_cons. split; first done.
      by apply StronglySorted_cons in Hs as [_ ?]. }
    assert (Hv' : Forall (λ x : float * nat, (zero <=? fst x)%float = true) (best :: l))
      by by constructor.
    destruct (IH best Hv' Hs') as [Hin Hmin]. split.
    { apply elem_of_cons in Hin as [->|Hin]; [by left|by do 2 right]. }
    assert (Hvm : (zero <=? fst (F64.min_from best l))%float = true).
    { rewrite Forall_forall in Hv'. by apply Hv'. }
    destruct (f64_leb_comparable _ _ _ _ Hvx Hvb) as [c Hc].
    pose proof (f64_nltb_leb _ _ _ Hc E) as Hle.
    intros y Hy. apply elem_of_cons in Hy as [->|Hy]; first (apply Hmin; by left).
    apply elem_of_cons in Hy as [->|Hy]; last (apply Hmin; by right).
    destruct (Hmin best) as [Hlt|[Hnlt Hidx]]; first by left.
    * left. by eapply f64_ltb_leb_trans.
    * right. split; last (simpl in *; lia).
      destruct (fst x <? fst (F64.min_from best l))%float eqn:E'; last done.
      by rewrite (f64_leb_ltb_trans _ _ _ Hle E') in Hnlt.
Qed.

Lemma f64_ratios_of_lookup (column b : list float) (i : nat) (x : float * nat) :
  F64.ratios_of column b !! i = Some x ↔
  ∃ bi, b !! i = Some bi ∧
        x = if (F64.eps <? column !!! i)%float then ((bi / (column !!! i))%float, i)
            else (infinity, i).
Proof.
unfold F64.ratios_of. rewrite list_lookup_imap.
destruct (b !! i) as [bi|]; simpl.
- split; [intros [= <-]; by exists bi|]. by intros (? & [= <-] & ->).
- split; [done|]. by intros (? & ? & _).
Qed.

Lemma f64_ratios_of_sorted (column b : list float) :
  StronglySorted (λ x y : float * nat, (snd x < snd y)%nat) (F64.ratios_of column b).
Proof.
apply StronglySorted_lookup. intros i j x y Hij Hx Hy.
apply f64_ratios_of_lookup in Hx as (bi & _ & ->).
apply f64_ratios_of_lookup in Hy as (bj & _ & ->).
by destruct (F64.eps <? _)%float, (F64.eps <? _)%float.
Qed.

Lemma f64_tail_lookup_total (T : list (list float)) (i : nat) :
  tail T !!! i = T !!! (i + 1)%nat.
Proof.
replace (i + 1)%nat with (S i) by lia.
destruct T as [|r T]; simpl; [|done]. by destruct i.
Qed.

Lemma f64_column_of_lookup (self : F64.LPSolver) (j i : nat) :
  (i < length (tail (F64.tableau self)))%nat →
  F64.column_of self j !!! i = F64.entry (F64.tableau self) (i + 1) j.
Proof.
intros Hi. unfold F64.column_of, F64.entry.
rewrite (list_lookup_total_fmap (λ row : list float, row !!! j)) by done.
by rewrite f64_tail_lookup_total.
Qed.

Lemma f64_rhs_column_lookup (self : F64.LPSolver) (i : nat) :
  (i < length (tail (F64.tableau self)))%nat →
  F64.rhs_column self !!! i = F64.rhs (F64.tableau self) (i + 1).
Proof.
intros Hi. unfold F64.rhs_column, F64.rhs.
rewrite (list_lookup_total_fmap F64.last_of) by done.
by rewrite f64_tail_lookup_total.
Qed.

(** The pairs among which [get_leaving_variable] takes the minimum: one for
    each row whose ratio passes [r[0] >= 0]. *)
Lemma f64_leaving_pairs_elem (self : F64.LPSolver) (j : nat) (x : float * nat) :
  x ∈ filter (λ r : float * nat, (zero <=? fst r)%float = true)
             (F64.ratios_of (F64.column_of self j) (F64.rhs_column self)) ↔
  (snd x < length (tail (F64.tableau self)))%nat ∧
  fst x = F64.ratio_at self j (snd x) ∧ (zero <=? fst x)%float = true.
Proof.
rewrite list_elem_of_filter, list_elem_of_lookup.
setoid_rewrite f64_ratios_of_lookup. unfold F64.ratio_at, F64.quotient. split.
- intros (Hnn & i & bi & Hbi & ->).
  assert (Hi : (i < length (tail (F64.tableau self)))%nat).
  { apply lookup_lt_Some in Hbi. unfold F64.rhs_column in Hbi.
    by rewrite length_fmap in Hbi. }
  assert (Hb : bi = F64.rhs (F64.tableau self) (i + 1)).
  { rewrite <- f64_rhs_column_lookup by done.
    by rewrite (list_lookup_total_correct _ _ _ Hbi). }
  revert Hnn. rewrite f64_column_of_lookup by done. subst bi.
  destruct (F64.eps <? _)%float eqn:E; simpl; rewrite E; intros Hnn;
    repeat split; done.
- destruct x as [k i]. simpl. intros (Hi & -> & Hv).
  split; first done. exists i, (F64.rhs (F64.tableau self) (i + 1)).
  split.
  + rewrite <- f64_rhs_column_lookup by done. apply list_lookup_lookup_total_lt.
    unfold F64.rhs_column. by rewrite length_fmap.
  + rewrite f64_column_of_lookup by done.
    by destruct (F64.eps <? _)%float eqn:E; simpl; rewrite ?E.
Qed.

Lemma f64_forallb_Forall (p : float → bool) (l : list float) :
  forallb p l = true ↔ Forall (λ x, p x = true) l.
Proof.
induction l as [|x l IH]; simpl.
- split; [constructor|done].
- rewrite andb_true_iff, Forall_cons, IH. done.
Qed.

Lemma f64_leaving_test (self : F64.LPSolver) (j : nat) :
  forallb (λ x, (x <=? F64.eps)%float) (F64.column_of self j) = true ↔
  ∀ i, (i < length (tail (F64.tableau self)))%nat →
       (F64.entry (F64.tableau self) (i + 1) j <=? F64.eps)%float = true.
Proof.
rewrite f64_forallb_Forall, Forall_lookup. split.
- intros H i Hi. rewrite <- f64_column_of_lookup by done.
  apply (H i). apply list_lookup_lookup_total_lt.
  unfold F64.column_of. by rewrite length_fmap.
- intros H i x Hx.
  assert (Hi : (i < length (tail (F64.tableau self)))%nat).
  { apply lookup_lt_Some in Hx. unfold F64.column_of in Hx.
    by rewrite length_fmap in Hx. }
  apply list_lookup_total_correct in Hx. rewrite f64_column_of_lookup in Hx by done.
  subst x. by apply H.
Qed.

(** What [get_leaving_variable] does: [None] when every entry of the column
    is [<= 1e-10]; otherwise the index of the first pair with the least
    ratio among the pairs that pass [r[0] >= 0], and [ValueError] when none
    passes. *)
Lemma f64_leaving_cases (self : F64.LPSolver) (j : nat) :
  ((∀ i, (i < length (tail (F64.tableau self)))%nat →
         (F64.entry (F64.tableau self) (i + 1) j <=? F64.eps)%float = true) ∧
   F64.get_leaving_variable self j = Ok None)
  ∨ (¬ (∀ i, (i < length (tail (F64.tableau self)))%nat →
             (F64.entry (F64.tableau self) (i + 1) j <=? F64.eps)%float = true) ∧
     ((∃ r, F64.get_leaving_variable self j = Ok (Some r) ∧
            (r < length (tail (F64.tableau self)))%nat ∧
            (zero <=? F64.ratio_at self j r)%float = true ∧
            ∀ i, (i < length (tail (F64.tableau self)))%nat →
                 (zero <=? F64.ratio_at self j i)%float = true →
                 (F64.ratio_at self j r <? F64.ratio_at self j i)%float = true ∨
                 ((F64.ratio_at self j i <? F64.ratio_at self j r)%float = false ∧
                  (r ≤ i)%nat))
      ∨ ((∀ i, (i < length (tail (F64.tableau self)))%nat →
               (zero <=? F64.ratio_at self j i)%float = false) ∧
         F64.get_leaving_variable self j
         = Raise (ValueError "min() arg is an empty sequence")))).
Proof.
unfold F64.get_leaving_variable. cbv zeta.
destruct (forallb _ (F64.column_of self j)) eqn:E.
- left. split; [|done]. by apply f64_leaving_test.
- right. split.
  { intros H. apply f64_leaving_test in H. congruence. }
  pose proof (f64_leaving_pairs_elem self j) as Helem.
  assert (Hs : StronglySorted (λ x y : float * nat, (snd x < snd y)%nat)
                 (filter (λ r : float * nat, (zero <=? fst r)%float = true)
                    (F64.ratios_of (F64.column_of self j) (F64.rhs_column self))))
    by apply StronglySorted_filter, f64_ratios_of_sorted.
  assert (Hv : Forall (λ x : float * nat, (zero <=? fst x)%float = true)
                 (filter (λ r : float * nat, (zero <=? fst r)%float = true)
                    (F64.ratios_of (F64.column_of self j) (F64.rhs_column self)))).
  { apply Forall_forall. intros x Hx. by apply list_elem_of_filter in Hx as [? _]. }
  destruct (filter _ _) as [|x l]; simpl.
  + right. split; last done. intros i Hi.
    destruct (zero <=? F64.ratio_at self j i)%float eqn:Hvi; last done.
    specialize (Helem (F64.ratio_at self j i, i)). simpl in Helem.
    destruct Helem as [_ Helem]. by apply elem_of_nil in Helem.
  + left. destruct (f64_min_from_spec x l Hv Hs) as [Hin Hmin].
    destruct (F64.min_from x l) as [k r] eqn:Em. simpl in Hmin.
    exists r. split; first done.
    apply Helem in Hin as (Hr & Hk & Hvk). simpl in Hr, Hk, Hvk. subst k.
    split; first done. split; first done.
    intros i Hi Hvi.
    apply (Hmin (F64.ratio_at self j i, i)). by apply Helem.
Qed.

Lemma f64_infinity_valid : (zero <=? infinity)%float = true.
Proof. reflexivity. Qed.

Lemma f64_not_nan_comparable (x y : float) :
  is_nan x = false → is_nan y = false →
  ∃ c, SFcompare (Prim2SF x) (Prim2SF y) = Some c.
Proof.
unfold is_nan. rewrite !negb_false_iff. intros Hx Hy.
apply (f64_leb_comparable x x y y); apply f64_leb_cases; right;
  by apply f64_eqb_Eq.
Qed.

(** Among values that are no NaN, [x <= y] is [not (y < x)]. *)
Lemma f64_leb_nltb (x y : float) :
  is_nan x = false → is_nan y = false →
  (x <=? y)%float = true ↔ (y <? x)%float = false.
Proof.
intros Hx Hy. split.
- intros H. destruct (y <? x)%float eqn:E; last done.
  by rewrite (f64_ltb_not_leb _ _ E) in H.
- destruct (f64_not_nan_comparable y x Hy Hx) as [c Hc]. by apply (f64_nltb_leb _ _ c).
Qed.

(** On a column without NaN the first test of [get_leaving_variable]
    decides whether there is a candidate row. *)
Lemma f64_leaving_None (self : F64.LPSolver) (j : nat) :
  (∀ i, (i < length (tail (F64.tableau self)))%nat →
        is_nan (F64.entry (F64.tableau self) (i + 1) j) = false) →
  (F64.get_leaving_variable self j = Ok None ↔ ∀ i, ¬ F64.candidate self j i).
Proof.
intros Hnan.
assert (Hiff : (∀ i, (i < length (tail (F64.tableau self)))%nat →
                  (F64.entry (F64.tableau self) (i + 1) j <=? F64.eps)%float = true)
               ↔ ∀ i, ¬ F64.candidate self j i).
{ split.
  - intros H i [Hi Hc]. specialize (H i Hi).
    by rewrite (f64_ltb_not_leb _ _ Hc) in H.
  - intros H i Hi. apply f64_leb_nltb; [by apply Hnan|done|].
    destruct (F64.eps <? _)%float eqn:E; last done.
    by destruct (H i). }
rewrite <- Hiff.
destruct (f64_leaving_cases self j) as [[Hall ->]|[Hnall Hc]]; first done.
split; last done.
intros He. destruct Hc as [(r & Hr & _)|[_ Hr]]; congruence.
Qed.

(** With a candidate row whose computed ratio is nonnegative and below
    [inf], the row returned is the first candidate row with the least
    ratio. *)
Lemma f64_leaving_min (self : F64.LPSolver) (j i0 : nat) :
  F64.candidate self j i0 →
  (zero <=? F64.quotient self j i0)%float = true →
  (F64.quotient self j i0 <? infinity)%float = true →
  ∃ r, F64.get_leaving_variable self j = Ok (Some r) ∧
       F64.candidate self j r ∧
       (zero <=? F64.quotient self j r)%float = true ∧
       ∀ k, F64.candidate self j k →
            (zero <=? F64.quotient self j k)%float = true →
            (F64.quotient self j r <=? F64.quotient self j k)%float = true ∧
            ((F64.quotient self j k =? F64.quotient self j r)%float = true →
             (r ≤ k)%nat).
Proof.
intros [Hi0 Hc0] Hv0 Hfin0.
assert (Hr0 : F64.ratio_at self j i0 = F64.quotient self j i0).
{ unfold F64.ratio_at. by rewrite Hc0. }
destruct (f64_leaving_cases self j) as [[Hall _]|[_ [(r & Hr & Hrlt & Hvr & Hmin)|[Hnone _]]]].
+ specialize (Hall i0 Hi0). by rewrite (f64_ltb_not_leb _ _ Hc0) in Hall.
+ exists r. split; first done.
  assert (Hcr : (F64.eps <? F64.entry (F64.tableau self) (r + 1) j)%float = true).
  { destruct (F64.eps <? F64.entry (F64.tableau self) (r + 1) j)%float eqn:E;
      first done.
    assert (Hinf : F64.ratio_at self j r = infinity)
      by (unfold F64.ratio_at; by rewrite E).
    destruct (Hmin i0 Hi0) as [Hlt|[Hnlt _]].
    - by rewrite Hr0.
    - rewrite Hinf, Hr0 in Hlt.
      by rewrite (f64_ltb_asym _ _ Hfin0) in Hlt.
    - rewrite Hinf, Hr0 in Hnlt. congruence. }
  assert (Hrr : F64.ratio_at self j r = F64.quotient self j r).
  { unfold F64.ratio_at. by rewrite Hcr. }
  rewrite Hrr in Hvr, Hmin.
  split; first done. split; first done.
  intros k [Hk Hck] Hvk.
  assert (Hrk : F64.ratio_at self j k = F64.quotient self j k).
  { unfold F64.ratio_at. by rewrite Hck. }
  specialize (Hmin k Hk). rewrite Hrk in Hmin.
  destruct (f64_leb_comparable _ _ _ _ Hvk Hvr) as [c Hc].
  destruct (Hmin Hvk) as [Hlt|[Hnlt Hle]].
  * split.
    -- apply f64_leb_cases. left. by apply f64_ltb_Lt.
    -- intros He. apply f64_eqb_Eq in He. apply f64_ltb_Lt in Hlt.
       rewrite SFcompare_swap, He in Hlt. done.
  * split; last done. by eapply f64_nltb_leb.
+ specialize (Hnone i0 Hi0). rewrite Hr0 in Hnone. congruence.
Qed.

(** C2 (amended). Over binary64: on a column without NaN,
    [get_leaving_variable] returns [None] exactly when no constraint row has
    [T[i, j] > 1e-10]; when some candidate row has a computed ratio
    [T[i, -1] / T[i, j]] that is nonnegative and below [inf], it returns a
    candidate row whose computed ratio is the least among the candidate rows
    with a nonnegative ratio, the smallest row index among equal ratios. *)
Theorem leaving_variable_min_ratio (self : F64.LPSolver) (j : nat) :
  ((∀ i, (i < length (tail (F64.tableau self)))%nat →
         is_nan (F64.entry (F64.tableau self) (i + 1) j) = false) →
   (F64.get_leaving_variable self j = Ok None ↔ ∀ i, ¬ F64.candidate self j i))
  ∧ (∀ i0, F64.candidate self j i0 →
       (zero <=? F64.quotient self j i0)%float = true →
       (F64.quotient self j i0 <? infinity)%float = true →
       ∃ r, F64.get_leaving_variable self j = Ok (Some r) ∧
            F64.candidate self j r ∧
            (zero <=? F64.quotient self j r)%float = true ∧
            ∀ k, F64.candidate self j k →
                 (zero <=? F64.quotient self j k)%float = true →
                 (F64.quotient self j r <=? F64.quotient self j k)%float = true ∧
                 ((F64.quotient self j k =? F64.quotient self j r)%float = true →
                  (r ≤ k)%nat)).
Proof.
split.
- apply f64_leaving_None.
- intros i0. apply f64_leaving_min.
Qed.

Lemma leaving_variable_min_ratio_witness :
  ∃ r, F64.get_leaving_variable F64.negative_rhs_start 0 = Ok (Some r) ∧
       F64.candidate F64.negative_rhs_start 0 r ∧
       (zero <=? F64.quotient F64.negative_rhs_start 0 r)%float = true ∧
       ∀ k, F64.candidate F64.negative_rhs_start 0 k →
            (zero <=? F64.quotient F64.negative_rhs_start 0 k)%float = true →
            (F64.quotient F64.negative_rhs_start 0 r
             <=? F64.quotient F64.negative_rhs_start 0 k)%float = true ∧
            ((F64.quotient F64.negative_rhs_start 0 k
              =? F64.quotient F64.negative_rhs_start 0 r)%float = true →
             (r ≤ k)%nat).
Proof.
apply (proj2 (leaving_variable_min_ratio F64.negative_rhs_start 0) 1%nat).
- split; [vm_compute; lia|vm_compute; reflexivity].
- vm_compute. reflexivity.
- vm_compute. reflexivity.
Defined.

(** X5. Over binary64, [get_leaving_variable] raises exactly when there is
    a constraint row and every constraint row is a candidate
    ([T[i, j] > 1e-10]) whose computed ratio fails [r[0] >= 0] (it is
    negative or NaN); the exception is the [ValueError] of [min] on an empty
    sequence. *)
Theorem leaving_variable_raises_iff (self : F64.LPSolver) (j : nat) (e : exception) :
  F64.get_leaving_variable self j = Raise e ↔
  e = ValueError "min() arg is an empty sequence" ∧
  (0 < length (tail (F64.tableau self)))%nat ∧
  ∀ i, (i < length (tail (F64.tableau self)))%nat →
       (F64.eps <? F64.entry (F64.tableau self) (i + 1) j)%float = true ∧
       (zero <=? F64.quotient self j i)%float = false.
Proof.
split.
- intros He.
  destruct (f64_leaving_cases self j)
    as [[_ Hn]|[Hnall [(r & Hr & _)|[Hnone Hr]]]]; try congruence.
  split; first congruence.
  assert (Hrows : ∀ i, (i < length (tail (F64.tableau self)))%nat →
            (F64.eps <? F64.entry (F64.tableau self) (i + 1) j)%float = true ∧
            (zero <=? F64.quotient self j i)%float = false).
  { intros i Hi. specialize (Hnone i Hi). unfold F64.ratio_at in Hnone.
    destruct (F64.eps <? _)%float; first done.
    by rewrite f64_infinity_valid in Hnone. }
  split; last done.
  destruct (length (tail (F64.tableau self))) as [|m]; last lia.
  destruct Hnall. intros i Hi. lia.
- intros (-> & Hm & Hrows).
  destruct (f64_leaving_cases self j)
    as [[Hall _]|[_ [(r & _ & Hr & Hv & _)|[_ Hr]]]]; last done.
  + destruct (Hrows 0%nat Hm) as [Hc _]. specialize (Hall 0%nat Hm).
    by rewrite (f64_ltb_not_leb _ _ Hc) in Hall.
  + destruct (Hrows r Hr) as [Hc Hq]. unfold F64.ratio_at in Hv.
    rewrite Hc in Hv. congruence.
Qed.

Lemma leaving_variable_raises_iff_witness :
  F64.get_leaving_variable
    (F64.setup F64.init_solver [1%float]
       (F64.Matrix 2 1 [[1%float]; [1%float]]) [(-1)%float; (-2)%float]) 0
  = Raise (ValueError "min() arg is an empty sequence").
Proof.
apply leaving_variable_raises_iff. split; first done. split.
- vm_compute. lia.
- intros i Hi. assert (i = 0 ∨ i = 1)%nat as [-> | ->] by (vm_compute in Hi; lia);
    split; vm_compute; reflexivity.
Defined.



(** ** The entering test over binary64 *)





Lemma f64_first_index_None (p : float → bool) (j0 : nat) (l : list float) :
  F64.first_index p j0 l = None ↔ Forall (λ x, p x = false) l.
Proof.
revert j0. induction l as [|a l IH]; intros j0; simpl.
- split; [constructor|done].
- destruct (p a) eqn:Ea.
  + split; [done|]. intros H. inversion H; congruence.
  + rewrite IH. split; [by constructor|]. intros H. by inversion H.
Qed.







(** ** The pivot element *)



